(** * The 2048 board engine of [components/Game2048.tsx]

    A shallow embedding of the move/merge engine, the random tile
    spawner, the game-over test and the React controller of the 2048
    game, together with the properties the specification states
    about them.

    JavaScript arrays are objects: a board of type [number[][]] is a
    reference to an array of references to rows.  The embedding keeps
    that: arrays live in a store ([heap]) and the functions of the
    source are programs of a state-and-failure monad [M] over it, so
    that a write such as [board[x][y] = v] is visible through every
    alias of the row.  Numbers are modelled as integers ([Z]): tile
    values and scores are small non-negative integers, far below the
    range where doubles stop being exact. *)

From Stdlib Require Import ZArith QArith Qround Lia.

From stdpp Require Import base option list gmap strings.

Local Open Scope Z_scope.

(** ** The store *)

Definition loc := nat.

(** An array of numbers (a row) or an array of rows (a board). *)
Inductive obj :=
| Row (cells : list Z)
| Mat (rows : list loc).

Abbreviation heap := (gmap loc obj).

(** A computation reads and updates the store; [None] is a run that
    throws ([TypeError] on a property of [undefined]) or that leaves
    the typed domain by reading [undefined] where a number is used. *)
Definition M (A : Type) : Type := heap → option (A * heap).

Global Instance M_ret : MRet M := λ A a h, Some (a, h).

Global Instance M_bind : MBind M :=
  λ A B k m h, match m h with
               | Some (a, h') => k a h'
               | None => None
               end.

Definition throw {A} : M A := λ _, None.

(** [new Array], array literals, and the array-returning builtins
    ([filter], [map], spread) allocate a fresh object. *)
Definition alloc (o : obj) : M loc :=
  λ h, let l := fresh (dom h) in Some (l, <[l := o]> h).

Definition getRow (l : loc) : M (list Z) :=
  λ h, match h !! l with
       | Some (Row xs) => Some (xs, h)
       | _ => None
       end.

Definition getMat (l : loc) : M (list loc) :=
  λ h, match h !! l with
       | Some (Mat rs) => Some (rs, h)
       | _ => None
       end.

Definition setRow (l : loc) (xs : list Z) : M unit :=
  λ h, match h !! l with
       | Some (Row _) => Some (tt, <[l := Row xs]> h)
       | _ => None
       end.

Definition setMat (l : loc) (rs : list loc) : M unit :=
  λ h, match h !! l with
       | Some (Mat _) => Some (tt, <[l := Mat rs]> h)
       | _ => None
       end.

(** An index read whose result is used as a number or as an object:
    out of range it yields [undefined], which ends the run. *)
Definition liftO {A} (o : option A) : M A :=
  λ h, match o with Some a => Some (a, h) | None => None end.

(** [arr[i]] as a number. *)
Definition getCell (l : loc) (i : nat) : M Z :=
  xs ← getRow l; liftO (xs !! i).

(** [arr[i] = v].  Every write of the source is inside the array (out
    of range JavaScript would extend it, leaving holes). *)
Definition setCell (l : loc) (i : nat) (v : Z) : M unit :=
  xs ← getRow l;
  if decide (i < length xs)%nat then setRow l (<[i := v]> xs) else throw.

(** [arr.push(v)] on a row and on a board. *)
Definition pushRow (l : loc) (v : Z) : M unit :=
  xs ← getRow l; setRow l (xs ++ [v]).

Definition pushMat (l : loc) (r : loc) : M unit :=
  rs ← getMat l; setMat l (rs ++ [r]).

(** [arr.length] *)
Definition lengthRow (l : loc) : M nat :=
  xs ← getRow l; mret (length xs).

Definition lengthMat (l : loc) : M nat :=
  rs ← getMat l; mret (length rs).

(** ** Constants and row engine *)

Definition GRID_SIZE : nat := 4.

(** [row.filter((val) => val !== 0)] *)
Definition nonZero (row : list Z) : list Z := filter (λ val, val ≠ 0) row.

(** The merge loop of [moveRowLeft]:
    [for (let i = 0; i < newRow.length - 1; i++) { if (newRow[i] ===
    newRow[i + 1]) { newRow[i] *= 2; score += newRow[i];
    newRow[i + 1] = 0; i++; } }].
    [fuel] bounds the number of guard evaluations; running out of it
    is a failure, so a successful run is a run of the loop. *)
Fixpoint mergeLoop (fuel : nat) (newRow : loc) (i : nat) (score : Z) : M Z :=
  match fuel with
  | O => throw
  | S fuel =>
    n ← lengthRow newRow;
    if decide (i + 1 < n)%nat then
      a ← getCell newRow i;
      b ← getCell newRow (i + 1);
      if decide (a = b) then
        a ← getCell newRow i;
        setCell newRow i (a * 2);;
        a ← getCell newRow i;
        let score := score + a in
        setCell newRow (i + 1) 0;;
        mergeLoop fuel newRow (i + 1 + 1) score
      else mergeLoop fuel newRow (i + 1) score
    else mret score
  end.

(** [while (newRow.length < GRID_SIZE) { newRow.push(0); }] *)
Fixpoint padLoop (fuel : nat) (newRow : loc) : M unit :=
  match fuel with
  | O => throw
  | S fuel =>
    n ← lengthRow newRow;
    if decide (n < GRID_SIZE)%nat then
      pushRow newRow 0;; padLoop fuel newRow
    else mret tt
  end.

(** [moveRowLeft]: both [filter]s return a new array; the loop in
    between writes to the first of them.  The number of elements is
    read only to give the merge loop its fuel: the loop evaluates its
    guard at most once per element, and once more to leave. *)
Definition moveRowLeft (row : loc) : M (loc * Z) :=
  xs ← getRow row;
  newRow ← alloc (Row (nonZero xs));
  n ← lengthRow newRow;
  score ← mergeLoop (S n) newRow 0 0;
  ys ← getRow newRow;
  newRow ← alloc (Row (nonZero ys));
  padLoop (S GRID_SIZE) newRow;;
  mret (newRow, score).

(** ** Board moves *)

(** The loop of [moveLeft]; [newBoard] is the array the rows are pushed
    to and [totalScore] the running sum. *)
Fixpoint moveLeftLoop (fuel : nat) (board newBoard : loc) (i : nat)
    (totalScore : Z) : M Z :=
  match fuel with
  | O => throw
  | S fuel =>
    n ← lengthMat board;
    if decide (i < n)%nat then
      rows ← getMat board;
      row ← liftO (rows !! i);
      '(newRow, score) ← moveRowLeft row;
      pushMat newBoard newRow;;
      moveLeftLoop fuel board newBoard (i + 1) (totalScore + score)
    else mret totalScore
  end.

Definition moveLeft (board : loc) : M (loc * Z) :=
  newBoard ← alloc (Mat []);
  n ← lengthMat board;
  totalScore ← moveLeftLoop (S n) board newBoard 0 0;
  mret (newBoard, totalScore).

(** [arr.reverse()] reverses in place (and returns the same array). *)
Definition reverseRow (l : loc) : M unit :=
  xs ← getRow l; setRow l (reverse xs).

Fixpoint moveRightLoop (fuel : nat) (board newBoard : loc) (i : nat)
    (totalScore : Z) : M Z :=
  match fuel with
  | O => throw
  | S fuel =>
    n ← lengthMat board;
    if decide (i < n)%nat then
      rows ← getMat board;
      row ← liftO (rows !! i);
      xs ← getRow row;
      reversedRow ← alloc (Row xs);
      reverseRow reversedRow;;
      '(newRow, score) ← moveRowLeft reversedRow;
      reverseRow newRow;;
      pushMat newBoard newRow;;
      moveRightLoop fuel board newBoard (i + 1) (totalScore + score)
    else mret totalScore
  end.

Definition moveRight (board : loc) : M (loc * Z) :=
  newBoard ← alloc (Mat []);
  n ← lengthMat board;
  totalScore ← moveRightLoop (S n) board newBoard 0 0;
  mret (newBoard, totalScore).

(** [board[0].map((_, i) => board.map((row) => row[i]))] *)
Definition transpose (board : loc) : M loc :=
  rows ← getMat board;
  r0 ← liftO (rows !! 0%nat);
  n ← lengthRow r0;
  cols ← mapM (λ i, col ← mapM (λ row, getCell row i) rows;
                    alloc (Row col)) (seq 0 n);
  alloc (Mat cols).

Definition moveUp (board : loc) : M (loc * Z) :=
  transposed ← transpose board;
  '(moved, totalScore) ← moveLeft transposed;
  newBoard ← transpose moved;
  mret (newBoard, totalScore).

Definition moveDown (board : loc) : M (loc * Z) :=
  transposed ← transpose board;
  '(moved, totalScore) ← moveRight transposed;
  newBoard ← transpose moved;
  mret (newBoard, totalScore).

(** ** Read-only functions, on the contents of a board

    [arraysEqual] and [isGameOver] only read.  They are modelled on
    the matrix of numbers a board reference denotes ([getBoard]); an
    index read gives [option Z], [None] being [undefined], and [===]
    is equality of such values. *)

Definition getBoard (board : loc) : M (list (list Z)) :=
  rows ← getMat board; mapM getRow rows.

(** What a loop body does next: go on, or [return r]. *)
Inductive ctl (R : Type) :=
| Next
| Return (r : R).

Arguments Next {R}.

Arguments Return {R} r.

(** [for (let i = 0; i < n; i++) body], the indices given as a list;
    the body may return from the function or throw. *)
Fixpoint forIn {R} (idx : list nat) (body : nat → option (ctl R))
    : option (ctl R) :=
  match idx with
  | [] => Some Next
  | i :: idx' =>
    match body i with
    | Some Next => forIn idx' body
    | r => r
    end
  end.

Module Val.

Definition arraysEqual (a b : list (list Z)) : option bool :=
  r ← forIn (seq 0 (length a)) (λ i,
        ai ← a !! i;
        forIn (seq 0 (length ai)) (λ j,
          bi ← b !! i;
          if decide (ai !! j ≠ bi !! j) then Some (Return false)
          else Some Next));
  Some (match r with Return v => v | Next => true end).

Definition isGameOver (board : list (list Z)) : option bool :=
  r ← forIn (seq 0 GRID_SIZE) (λ i,
        forIn (seq 0 GRID_SIZE) (λ j,
          bi ← board !! i;
          if decide (bi !! j = Some 0) then Some (Return false)
          else Some Next));
  match r with
  | Return v => Some v
  | Next =>
    r ← forIn (seq 0 GRID_SIZE) (λ i,
          forIn (seq 0 GRID_SIZE) (λ j,
            c1 ← (if decide (j < GRID_SIZE - 1)%nat then
                    bi ← board !! i;
                    Some (bool_decide (bi !! j = bi !! (j + 1)%nat))
                  else Some false : option bool);
            if (c1 : bool) then Some (Return false) else
            c2 ← (if decide (i < GRID_SIZE - 1)%nat then
                    bi ← board !! i;
                    bi1 ← board !! (i + 1)%nat;
                    Some (bool_decide (bi !! j = bi1 !! j))
                  else Some false : option bool);
            if (c2 : bool) then Some (Return false) else Some Next));
    Some (match r with Return v => v | Next => true end)
  end.

(** The cells [addRandomTile] collects with its nested [forEach]:
    the coordinates of the zero cells, row by row. *)
Definition emptyCells (board : list (list Z)) : list (nat * nat) :=
  mjoin (imap (λ i row,
    mjoin (imap (λ j cell, if decide (cell = 0) then [(i, j)] else [])
                row)) board).

End Val.

Definition arraysEqual (a b : loc) : M bool :=
  ma ← getBoard a; mb ← getBoard b; liftO (Val.arraysEqual ma mb).

Definition isGameOver (board : loc) : M bool :=
  m ← getBoard board; liftO (Val.isGameOver m).

(** ** Random tiles

    [Math.random()] is an input of the model: each call takes the next
    draw, a rational [u] standing for a number of [0, 1). *)

(** [Math.floor(u * n)].  The product is taken exactly.  The code
    multiplies in floating point, and its product is the exact one
    rounded: for a draw of [0, 1) it stays below [n], so that the
    index is inside the array there as it is here; but when the exact
    product is within the rounding error below an integer, the floor
    the code takes is the next integer.  What is proved of the spawner
    does not depend on which of the empty cells a draw selects, except
    where the draws are kept away from such products. *)
Definition floorMul (u : Q) (n : nat) : Z :=
  Qfloor (u * inject_Z (Z.of_nat n)).

(** [arr[k]] for a computed index. *)
Definition lookupZ {A} (l : list A) (k : Z) : option A :=
  if decide (0 ≤ k) then l !! Z.to_nat k else None.

(** [Math.random() < 0.9 ? 2 : 4] *)
Definition tileValue (u : Q) : Z :=
  if Qlt_le_dec u (9 # 10) then 2 else 4.

(** [u1] and [u2] are the two draws, in the order of the calls. *)
Definition addRandomTile (u1 u2 : Q) (board : loc) : M loc :=
  m ← getBoard board;
  let emptyCells := Val.emptyCells m in
  if decide (length emptyCells = 0%nat) then mret board else
  '(x, y) ← liftO (lookupZ emptyCells (floorMul u1 (length emptyCells)));
  rows ← getMat board;
  row ← liftO (rows !! x);
  setCell row y (tileValue u2);;
  rows ← getMat board;
  copies ← mapM (λ row, xs ← getRow row; alloc (Row xs)) rows;
  alloc (Mat copies).

(** [Array.from({ length: GRID_SIZE }, () => Array(GRID_SIZE).fill(0))],
    then two tiles. *)
Definition getInitialBoard (u1 u2 u3 u4 : Q) : M loc :=
  rows ← mapM (λ _, alloc (Row (replicate GRID_SIZE 0))) (seq 0 GRID_SIZE);
  board ← alloc (Mat rows);
  b1 ← addRandomTile u1 u2 board;
  addRandomTile u3 u4 b1.

(** ** The controller

    The React state of [CanvasGame].  A handler reads the state of the
    render it was created in and queues its updates; the next render
    shows them all, so a handler is a transition of this record.
    ([handleKeyDown] is re-created when [board], [score] or [gameOver]
    change; [bestScore] changes only in a handler that also replaces
    [board], so the handler in use has the current state.  Events are
    taken one at a time, each on the state the previous one left.) *)

Record state := State {
  gameStarted : bool;
  board : loc;
  score : Z;
  bestScore : Z;
  gameOver : bool;
}.

Definition setBoard (b : loc) (st : state) : state :=
  State (gameStarted st) b (score st) (bestScore st) (gameOver st).

Definition setScore (s : Z) (st : state) : state :=
  State (gameStarted st) (board st) s (bestScore st) (gameOver st).

Definition setBestScore (s : Z) (st : state) : state :=
  State (gameStarted st) (board st) (score st) s (gameOver st).

Definition setGameOver (g : bool) (st : state) : state :=
  State (gameStarted st) (board st) (score st) (bestScore st) g.

Definition setGameStarted (g : bool) (st : state) : state :=
  State g (board st) (score st) (bestScore st) (gameOver st).

(** The [switch] of [handleMove]; [None] is its [default: return]. *)
Definition moveOf (direction : string) : option (loc → M (loc * Z)) :=
  if decide (direction = "up") then Some moveUp
  else if decide (direction = "down") then Some moveDown
  else if decide (direction = "left") then Some moveLeft
  else if decide (direction = "right") then Some moveRight
  else None.

(** [u1], [u2]: the draws [addRandomTile] may take. *)
Definition handleMove (direction : string) (u1 u2 : Q) (st : state)
    : M state :=
  if gameOver st then mret st else
  match moveOf direction with
  | None => mret st
  | Some move =>
    '(newBoard, totalScore) ← move (board st);
    same ← arraysEqual (board st) newBoard;
    if negb (same : bool) then
      boardWithNewTile ← addRandomTile u1 u2 newBoard;
      let newScore := score st + totalScore in
      let st1 := setScore newScore st in
      let st2 := if decide (newScore > bestScore st)
                 then setBestScore newScore st1 else st1 in
      let st3 := setBoard boardWithNewTile st2 in
      over ← isGameOver boardWithNewTile;
      mret (if (over : bool) then setGameOver true st3 else st3)
    else mret st
  end.

Definition newGame (u1 u2 u3 u4 : Q) (st : state) : M state :=
  b ← getInitialBoard u1 u2 u3 u4;
  mret (setGameOver false (setScore 0 (setBoard b st))).

(** The state of the first render:
    [useState(false)], [useState(getInitialBoard())], [useState(0)],
    [useState(0)], [useState(false)]. *)
Definition initialState (u1 u2 u3 u4 : Q) : M state :=
  b ← getInitialBoard u1 u2 u3 u4;
  mret (State false b 0 0 false).

(** What the user can do: an arrow key, the "New Game" button
    ([newGame(); setGameStarted(true)]), the "Restart" button of the
    game-over overlay ([newGame]) and the "Play" button
    ([setGameStarted(true)]). *)
Inductive event :=
| Key (direction : string) (u1 u2 : Q)
| NewGameButton (u1 u2 u3 u4 : Q)
| RestartButton (u1 u2 u3 u4 : Q)
| PlayButton.

Definition handle (e : event) (st : state) : M state :=
  match e with
  | Key direction u1 u2 => handleMove direction u1 u2 st
  | NewGameButton u1 u2 u3 u4 =>
    st' ← newGame u1 u2 u3 u4 st; mret (setGameStarted true st')
  | RestartButton u1 u2 u3 u4 => newGame u1 u2 u3 u4 st
  | PlayButton => mret (setGameStarted true st)
  end.

Fixpoint handleAll (es : list event) (st : state) : M state :=
  match es with
  | [] => mret st
  | e :: es' => st' ← handle e st; handleAll es' st'
  end.

(** ** Denotations

    What the programs above compute, as functions on the contents of
    rows and boards.  The theorems below relate each program to its
    denotation. *)

(** The merge pass on a line without zeros: scan left to right; when
    an element equals its right neighbour, replace it by the double,
    zero the neighbour, add the double to the score and go on after
    both. *)
Fixpoint mergePass (l : list Z) : list Z * Z :=
  match l with
  | a :: (b :: rest) as tl =>
    if decide (a = b) then
      let '(r, s) := mergePass rest in (a * 2 :: 0 :: r, a * 2 + s)
    else
      let '(r, s) := mergePass tl in (a :: r, s)
  | _ => (l, 0)
  end.

Definition padTo (n : nat) (l : list Z) : list Z :=
  l ++ replicate (n - length l) 0.

(** The line primitive as the specification words it: compact, merge
    pass, compact again, right-pad to [N]. *)
Definition slideAndMergeLine (line : list Z) : list Z * Z :=
  let compacted := nonZero line in
  let '(merged, scoreDelta) := mergePass compacted in
  (padTo GRID_SIZE (nonZero merged), scoreDelta).

Definition sumZ (l : list Z) : Z := foldr Z.add 0 l.

Module Den.

Definition moveLeft (m : list (list Z)) : list (list Z) * Z :=
  (map (λ row, (slideAndMergeLine row).1) m,
   sumZ (map (λ row, (slideAndMergeLine row).2) m)).

Definition moveRight (m : list (list Z)) : list (list Z) * Z :=
  (map (λ row, reverse (slideAndMergeLine (reverse row)).1) m,
   sumZ (map (λ row, (slideAndMergeLine (reverse row)).2) m)).

Definition transpose (m : list (list Z)) : option (list (list Z)) :=
  r0 ← m !! 0%nat;
  mapM (λ i, mapM (λ row : list Z, row !! i) m) (seq 0 (length r0)).

Definition moveUp (m : list (list Z)) : option (list (list Z) * Z) :=
  t ← transpose m;
  r ← transpose (moveLeft t).1;
  Some (r, (moveLeft t).2).

Definition moveDown (m : list (list Z)) : option (list (list Z) * Z) :=
  t ← transpose m;
  r ← transpose (moveRight t).1;
  Some (r, (moveRight t).2).

Definition moveOf (direction : string)
    : option (list (list Z) → option (list (list Z) * Z)) :=
  if decide (direction = "up") then Some moveUp
  else if decide (direction = "down") then Some moveDown
  else if decide (direction = "left") then Some (λ m, Some (moveLeft m))
  else if decide (direction = "right") then Some (λ m, Some (moveRight m))
  else None.

(** [m] with cell [(x, y)] set to [v]. *)
Definition setAt (x y : nat) (v : Z) (m : list (list Z))
    : list (list Z) :=
  alter (λ row, <[y := v]> row) x m.

Definition addRandomTile (u1 u2 : Q) (m : list (list Z))
    : option (list (list Z)) :=
  let cells := Val.emptyCells m in
  if decide (length cells = 0%nat) then Some m else
  '(x, y) ← lookupZ cells (floorMul u1 (length cells));
  Some (setAt x y (tileValue u2) m).

End Den.

(** ** A program logic for [M]

    [post c h Q]: from store [h] the computation [c] returns, with a
    result and a store that satisfy [Q]. *)

Definition post {A} (c : M A) (h : heap) (Q : A → heap → Prop) : Prop :=
  match c h with
  | Some (a, h') => Q a h'
  | None => False
  end.

(** ** Boards in the store *)

(** The rows [rs] hold the lines of [m]. *)
Definition rowsAt (h : heap) (rs : list loc) (m : list (list Z)) : Prop :=
  Forall2 (λ r xs, h !! r = Some (Row xs)) rs m.

(** The reference [b] denotes the matrix [m]. *)
Definition boardAt (h : heap) (b : loc) (m : list (list Z)) : Prop :=
  ∃ rs, h !! b = Some (Mat rs) ∧ rowsAt h rs m.

(** [b] denotes [m] in [h'] and was allocated after [h], as were its
    rows, no two of which are the same array. *)
Definition newBoardAt (h h' : heap) (b : loc) (m : list (list Z)) : Prop :=
  ∃ rs, h' !! b = Some (Mat rs) ∧ rowsAt h' rs m ∧ NoDup rs ∧
        (b ∉ dom h) ∧ Forall (λ r, r ∉ dom h) rs.

(** ** The row loops of [moveLeft] and [moveRight] *)

(** What holds of the array under construction, [h0] being the store
    at the call and [h] the current one. *)
Definition loopInv (h0 h : heap) (newBoard : loc) (acc : list loc)
    (res : list (list Z)) : Prop :=
  (h0 ⊆ h) ∧ (newBoard ∉ dom h0) ∧ h !! newBoard = Some (Mat acc) ∧
  rowsAt h acc res ∧ NoDup acc ∧ Forall (λ r, r ∉ dom h0) acc.

(** ** Boards of the game: 4 rows of 4 cells *)

Definition is4x4 (m : list (list Z)) : Prop :=
  length m = GRID_SIZE ∧ Forall (λ row, length row = GRID_SIZE) m.

(** [board[i][j]], [None] when there is no such cell. *)
Definition cell (m : list (list Z)) (i j : nat) : option Z :=
  row ← m !! i; row !! j.

(** The total of all cells. *)
Definition sumAll (m : list (list Z)) : Z := sumZ (map sumZ m).

(** A cell value of the game: empty, or a power of two from 2 on. *)
Definition isTile (v : Z) : Prop := v = 0 ∨ (2 ≤ v ∧ v = 2 ^ Z.log2 v).

Global Instance isTile_dec v : Decision (isTile v).
Proof. unfold isTile. apply _. Defined.

Definition allTiles (m : list (list Z)) : Prop := Forall (Forall isTile) m.

(** ** [isGameOver] on a 4 by 4 board *)

(** Some cell is empty. *)
Definition hasEmpty (m : list (list Z)) : bool :=
  existsb (λ i, existsb (λ j, bool_decide (cell m i j = Some 0))
                        (seq 0 GRID_SIZE)) (seq 0 GRID_SIZE).

(** Some cell equals its right neighbour or the cell below it. *)
Definition hasEqualNeighbours (m : list (list Z)) : bool :=
  existsb (λ i, existsb (λ j,
      bool_decide (j < GRID_SIZE - 1)%nat
        && bool_decide (cell m i j = cell m i (j + 1))
      || bool_decide (i < GRID_SIZE - 1)%nat
        && bool_decide (cell m i j = cell m (i + 1) j))
    (seq 0 GRID_SIZE)) (seq 0 GRID_SIZE).

(** ** The spawner on a board with distinct rows *)

(** A draw of [Math.random()]. *)
Definition unit01 (u : Q) : Prop := (0 <= u)%Q ∧ (u < 1)%Q.

(** [b] denotes [m], and no two rows of [b] are the same array. *)
Definition properBoardAt (h : heap) (b : loc) (m : list (list Z)) : Prop :=
  ∃ rows, h !! b = Some (Mat rows) ∧ rowsAt h rows m ∧ NoDup rows.

(** ** The controller *)

(** The board of the state is a 4 by 4 board of the store. *)
Definition wfState (h : heap) (st : state) : Prop :=
  ∃ m, boardAt h (board st) m ∧ is4x4 m.

(** An accepted move: the board changed to [m1], a tile was spawned
    into it, the score grew by the score of the move. *)
Definition accepted (direction : string) (u1 u2 : Q) (m : list (list Z))
    (h h' : heap) (st st' : state) : Prop :=
  ∃ dmove m1 s m2,
    Den.moveOf direction = Some dmove ∧ dmove m = Some (m1, s) ∧ m1 ≠ m ∧
    Den.addRandomTile u1 u2 m1 = Some m2 ∧
    newBoardAt h h' (board st') m2 ∧ is4x4 m2 ∧
    score st' = score st + s ∧
    bestScore st' = Z.max (bestScore st) (score st') ∧
    gameStarted st' = gameStarted st ∧
    Val.isGameOver m2 = Some (gameOver st').

(** The draws of an event are draws of [Math.random()]. *)
Definition validEvent (e : event) : Prop :=
  match e with
  | Key _ u1 _ => unit01 u1
  | NewGameButton u1 _ u3 _ | RestartButton u1 _ u3 _ =>
    unit01 u1 ∧ unit01 u3
  | PlayButton => True
  end.

(** A store with one board, used to run the functions on. *)
Definition sampleBoard : list (list Z) :=
  [[2; 2; 0; 0]; [0; 0; 0; 0]; [0; 4; 0; 4]; [0; 0; 0; 0]].

Definition sampleHeap : heap :=
  list_to_map [(0%nat, Row [2; 2; 0; 0]); (1%nat, Row [0; 0; 0; 0]);
               (2%nat, Row [0; 4; 0; 4]); (3%nat, Row [0; 0; 0; 0]);
               (4%nat, Mat [0; 1; 2; 3]%nat)].

(** The board of the specification's example: a checkerboard of 2s and
    4s, where every diagonal neighbour is equal. *)
Definition checkerBoard : list (list Z) :=
  [[2; 4; 2; 4]; [4; 2; 4; 2]; [2; 4; 2; 4]; [4; 2; 4; 2]].

Definition checkerHeap : heap :=
  list_to_map [(0%nat, Row [2; 4; 2; 4]); (1%nat, Row [4; 2; 4; 2]);
               (2%nat, Row [2; 4; 2; 4]); (3%nat, Row [4; 2; 4; 2]);
               (4%nat, Mat [0; 1; 2; 3]%nat)].

(** A board that the move to the left does not change. *)
Definition settledBoard : list (list Z) :=
  [[2; 4; 0; 0]; [0; 0; 0; 0]; [4; 0; 0; 0]; [0; 0; 0; 0]].

Definition settledHeap : heap :=
  list_to_map [(0%nat, Row [2; 4; 0; 0]); (1%nat, Row [0; 0; 0; 0]);
               (2%nat, Row [4; 0; 0; 0]); (3%nat, Row [0; 0; 0; 0]);
               (4%nat, Mat [0; 1; 2; 3]%nat)].

(** A board with one empty cell, at (2, 1). *)
Definition crowdedBoard : list (list Z) :=
  [[2; 4; 2; 4]; [4; 2; 4; 2]; [2; 0; 2; 4]; [4; 2; 4; 2]].

Definition crowdedHeap : heap :=
  list_to_map [(0%nat, Row [2; 4; 2; 4]); (1%nat, Row [4; 2; 4; 2]);
               (2%nat, Row [2; 0; 2; 4]); (3%nat, Row [4; 2; 4; 2]);
               (4%nat, Mat [0; 1; 2; 3]%nat)].

(** ** Boards reached from the initial board *)

(** A call on a board: one of the moves of the [switch], or the
    spawner with its two draws. *)
Inductive op :=
| OpMove (direction : string)
| OpSpawn (u1 u2 : Q).

Definition runOp (o : op) (b : loc) : M loc :=
  match o with
  | OpMove direction =>
    match moveOf direction with
    | Some move => '(newBoard, _) ← move b; mret newBoard
    | None => mret b
    end
  | OpSpawn u1 u2 => addRandomTile u1 u2 b
  end.

Fixpoint runOps (os : list op) (b : loc) : M loc :=
  match os with
  | [] => mret b
  | o :: os' => b' ← runOp o b; runOps os' b'
  end.

Definition validOp (o : op) : Prop :=
  match o with
  | OpMove _ => True
  | OpSpawn u1 _ => unit01 u1
  end.

(** What every board of a game satisfies. *)
Definition gameBoard (h : heap) (b : loc) : Prop :=
  ∃ m, properBoardAt h b m ∧ is4x4 m ∧ allTiles m.

(** ** Notions for the further properties *)

(** The number of tiles of a line. *)
Definition tiles (xs : list Z) : nat := length (nonZero xs).

(** No tile of the line has an equal right neighbour. *)
Definition noEqualPair (xs : list Z) : Prop :=
  ∀ j v, xs !! j = Some v → xs !! (j + 1)%nat ≠ Some v.

(** A board of [n] rows of [k] cells. *)
Definition rect (n k : nat) (m : list (list Z)) : Prop :=
  length m = n ∧ Forall (λ row, length row = k) m.

(** ** The lines of a move

    Each move slides four lines toward a wall.  [lines direction m]
    lists them, each from the wall outward: the rows for "left", the
    rows read from the right for "right", the columns for "up" and the
    columns read from the bottom for "down". *)

Definition mirror (m : list (list Z)) : list (list Z) := map reverse m.

Definition lines (direction : string) (m : list (list Z))
    : option (list (list Z)) :=
  if decide (direction = "up") then Den.transpose m
  else if decide (direction = "down") then mirror <$> Den.transpose m
  else if decide (direction = "left") then Some m
  else if decide (direction = "right") then Some (mirror m)
  else None.

(** The cell of the board that is cell [q] of line [p]. *)
Definition source (direction : string) (p q : nat) : nat * nat :=
  if decide (direction = "up") then (q, p)
  else if decide (direction = "down") then (GRID_SIZE - 1 - q, p)%nat
  else if decide (direction = "left") then (p, q)
  else (p, GRID_SIZE - 1 - q)%nat.

(** No move changes the board. *)
Definition stuck (m : list (list Z)) : Prop :=
  ∀ direction dmove, Den.moveOf direction = Some dmove →
    ∃ s, dmove m = Some (m, s).

(** The test of [arraysEqual] on row [i]: some cell of the row of [a]
    is not the cell of [b] at its place. *)
Definition rowDiffers (a b : list (list Z)) (i : nat) : bool :=
  match a !! i, b !! i with
  | Some ai, Some bi =>
    existsb (λ j, bool_decide (ai !! j ≠ bi !! j)) (seq 0 (length ai))
  | _, _ => false
  end.

(** The board [getInitialBoard] starts from. *)
Definition zeroBoard : list (list Z) :=
  replicate GRID_SIZE (replicate GRID_SIZE 0).

(** What holds of the state of every render: the board is a 4 by 4
    board of tile values with a tile on it, the score is between 0 and
    the best score, and the game-over flag is what [isGameOver] says
    of the board. *)
Definition goodState (h : heap) (st : state) : Prop :=
  ∃ m, boardAt h (board st) m ∧ is4x4 m ∧ allTiles m ∧ 0 < sumAll m ∧
       0 ≤ score st ≤ bestScore st ∧
       Val.isGameOver m = Some (gameOver st).



(** The number of cells of the board that are 0. *)
Definition zeros (m : list (list Z)) : nat :=
  length (filter (λ v, v = 0) (mjoin m)).

(** The number of cells that are 0 and come before the cell [(x, y)],
    reading the board row by row. *)
Definition zerosBefore (m : list (list Z)) (x y : nat) : nat :=
  length (filter (λ v, v = 0) (mjoin (take x m))) +
  length (filter (λ v, v = 0) (take y (default [] (m !! x)))).

(** ** Colours and drawing *)

(** [{ background, text }] *)
Record tileColors := TileColors {
  background : string;
  text : string;
}.

(** The object [colors] of [getTileColors], its keys being numbers. *)
Definition colors : gmap Z tileColors :=
  list_to_map [
    (2, TileColors "#eee4da" "#776e65");
    (4, TileColors "#ede0c8" "#776e65");
    (8, TileColors "#f2b179" "#ffffff");
    (16, TileColors "#f59563" "#ffffff");
    (32, TileColors "#f67c5f" "#ffffff");
    (64, TileColors "#f65e3b" "#ffffff");
    (128, TileColors "#edcf72" "#ffffff");
    (256, TileColors "#edcc61" "#ffffff");
    (512, TileColors "#edc850" "#ffffff");
    (1024, TileColors "#edc53f" "#ffffff");
    (2048, TileColors "#edc22e" "#ffffff")].

(** [colors[value] || { ... }]: every entry of [colors] is an object,
    so the alternative is taken exactly when there is no entry. *)
Definition getTileColors (value : Z) : tileColors :=
  if decide (value = 0) then TileColors "#cdc1b4" "#776e65"
  else default (TileColors "#3c3a32" "#ffffff") (colors !! value).

Definition TILE_SIZE : Z := 100.

Definition CANVAS_SIZE : Z := Z.of_nat GRID_SIZE * TILE_SIZE.

(** The calls [drawBoard] makes on the 2D context, each with the style
    that was set for it just before: [clearRect], [fillRect] under
    [fillStyle], [strokeRect] under [lineWidth] and [strokeStyle],
    [fillText] under [fillStyle] (the font and the alignment are the
    same for every text); the text is [String(value)]. *)
Inductive draw :=
| ClearRect (x y w h : Z)
| FillRect (fillStyle : string) (x y w h : Z)
| StrokeRect (lineWidth : Z) (strokeStyle : string) (x y w h : Z)
| FillText (fillStyle : string) (value : Z) (x y : Z).

(** The body of the inner loop of [drawBoard] for the cell [(i, j)]
    holding [value]. *)
Definition drawCell (value : Z) (i j : nat) : list draw :=
  let c := getTileColors value in
  let x := Z.of_nat j * TILE_SIZE in
  let y := Z.of_nat i * TILE_SIZE in
  [FillRect (background c) (x + 5) (y + 5) (TILE_SIZE - 10) (TILE_SIZE - 10);
   StrokeRect 4 "#444444" (x + 5) (y + 5) (TILE_SIZE - 10) (TILE_SIZE - 10)]
  ++ (if decide (value ≠ 0)
      then [FillText (text c) value (x + TILE_SIZE / 2) (y + TILE_SIZE / 2)]
      else []).

(** [drawBoard] with a canvas and a context at hand (without them it
    returns at once): the calls it makes, in order.  It reads
    [board[i][j]] for the 4 by 4 indices; [None] when such a cell is
    missing. *)
Definition drawCalls (board : list (list Z)) : option (list draw) :=
  cells ← mapM (λ i,
             mapM (λ j, value ← cell board i j; Some (drawCell value i j))
                  (seq 0 GRID_SIZE))
           (seq 0 GRID_SIZE);
  Some (ClearRect 0 0 CANVAS_SIZE CANVAS_SIZE :: mjoin (mjoin cells)).

Definition drawBoard (board : loc) : M (list draw) :=
  m ← getBoard board; liftO (drawCalls m).

(** * The programs and their denotations *)

Section Logic.
Context {A B : Type}.
Implicit Types (h : heap) (l : loc).

Lemma post_run (c : M A) h Q :
  post c h Q ↔ ∃ a h', c h = Some (a, h') ∧ Q a h'.
Proof.
  unfold post. destruct (c h) as [[a h']|]; split.
  - eauto.
  - by intros (? & ? & [= <- <-] & ?).
  - done.
  - by intros (? & ? & ? & ?).
Qed.

Lemma post_mono (c : M A) h (Q Q' : A → heap → Prop) :
  post c h Q → (∀ a h', Q a h' → Q' a h') → post c h Q'.
Proof. unfold post. destruct (c h) as [[a h']|]; eauto. Qed.

Lemma post_ret (a : A) h (Q : A → heap → Prop) :
  Q a h → post (mret a) h Q.
Proof. done. Qed.

Lemma post_bind (c : M A) (k : A → M B) h (Q : B → heap → Prop) :
  post c h (λ a h', post (k a) h' Q) → post (c ≫= k) h Q.
Proof.
  unfold post, mbind, M_bind. by destruct (c h) as [[a h']|].
Qed.

Lemma post_liftO (o : option A) a h (Q : A → heap → Prop) :
  o = Some a → Q a h → post (liftO o) h Q.
Proof. by intros ->. Qed.
End Logic.

Section Primitives.
Implicit Types (h : heap) (l : loc).

Lemma post_alloc o h (Q : loc → heap → Prop) :
  (∀ l, l ∉ dom h → Q l (<[l := o]> h)) → post (alloc o) h Q.
Proof. intros HQ. apply HQ, is_fresh. Qed.

Lemma post_getRow l xs h (Q : list Z → heap → Prop) :
  h !! l = Some (Row xs) → Q xs h → post (getRow l) h Q.
Proof. unfold post, getRow. by intros ->. Qed.

Lemma post_getMat l rs h (Q : list loc → heap → Prop) :
  h !! l = Some (Mat rs) → Q rs h → post (getMat l) h Q.
Proof. unfold post, getMat. by intros ->. Qed.

Lemma post_setRow l xs ys h (Q : unit → heap → Prop) :
  h !! l = Some (Row xs) → Q tt (<[l := Row ys]> h) →
  post (setRow l ys) h Q.
Proof. unfold post, setRow. by intros ->. Qed.

Lemma post_setMat l rs rs' h (Q : unit → heap → Prop) :
  h !! l = Some (Mat rs) → Q tt (<[l := Mat rs']> h) →
  post (setMat l rs') h Q.
Proof. unfold post, setMat. by intros ->. Qed.

Lemma post_getCell l xs i a h (Q : Z → heap → Prop) :
  h !! l = Some (Row xs) → xs !! i = Some a → Q a h →
  post (getCell l i) h Q.
Proof.
  intros Hl Hi HQ. apply post_bind, (post_getRow _ xs); [done|].
  by apply (post_liftO _ a).
Qed.

Lemma post_setCell l xs i v h (Q : unit → heap → Prop) :
  h !! l = Some (Row xs) → (i < length xs)%nat →
  Q tt (<[l := Row (<[i := v]> xs)]> h) →
  post (setCell l i v) h Q.
Proof.
  intros Hl Hi HQ. apply post_bind, (post_getRow _ xs); [done|].
  rewrite decide_True by done. by apply (post_setRow _ xs).
Qed.

Lemma post_pushRow l xs v h (Q : unit → heap → Prop) :
  h !! l = Some (Row xs) → Q tt (<[l := Row (xs ++ [v])]> h) →
  post (pushRow l v) h Q.
Proof.
  intros Hl HQ. apply post_bind, (post_getRow _ xs); [done|].
  by apply (post_setRow _ xs).
Qed.

Lemma post_pushMat l rs r h (Q : unit → heap → Prop) :
  h !! l = Some (Mat rs) → Q tt (<[l := Mat (rs ++ [r])]> h) →
  post (pushMat l r) h Q.
Proof.
  intros Hl HQ. apply post_bind, (post_getMat _ rs); [done|].
  by apply (post_setMat _ rs).
Qed.

Lemma post_reverseRow l xs h (Q : unit → heap → Prop) :
  h !! l = Some (Row xs) → Q tt (<[l := Row (reverse xs)]> h) →
  post (reverseRow l) h Q.
Proof.
  intros Hl HQ. apply post_bind, (post_getRow _ xs); [done|].
  by apply (post_setRow _ xs).
Qed.

Lemma post_lengthRow l xs h (Q : nat → heap → Prop) :
  h !! l = Some (Row xs) → Q (length xs) h → post (lengthRow l) h Q.
Proof.
  intros Hl HQ. by apply post_bind, (post_getRow _ xs).
Qed.

Lemma post_lengthMat l rs h (Q : nat → heap → Prop) :
  h !! l = Some (Mat rs) → Q (length rs) h → post (lengthMat l) h Q.
Proof.
  intros Hl HQ. by apply post_bind, (post_getMat _ rs).
Qed.
End Primitives.

(** ** The row engine computes [slideAndMergeLine] *)

Lemma mergePass_cons2 a b rest :
  mergePass (a :: b :: rest) =
  if decide (a = b) then
    (a * 2 :: 0 :: (mergePass rest).1, a * 2 + (mergePass rest).2)
  else (a :: (mergePass (b :: rest)).1, (mergePass (b :: rest)).2).
Proof.
  change (mergePass (a :: b :: rest)) with
    (if decide (a = b) then
       let '(r, s) := mergePass rest in (a * 2 :: 0 :: r, a * 2 + s)
     else let '(r, s) := mergePass (b :: rest) in (a :: r, s)).
  destruct (decide (a = b)).
  - by destruct (mergePass rest).
  - by destruct (mergePass (b :: rest)).
Qed.

Lemma mergeLoop_spec fuel l pre suf acc (h : heap) :
  h !! l = Some (Row (pre ++ suf)) → (length suf < fuel)%nat →
  post (mergeLoop fuel l (length pre) acc) h (λ s h',
    h' = <[l := Row (pre ++ (mergePass suf).1)]> h ∧
    s = acc + (mergePass suf).2).
Proof.
  revert pre suf acc h.
  induction fuel as [|fuel IH]; intros pre suf acc h Hl Hfuel; [lia|].
  cbn [mergeLoop].
  apply post_bind, (post_lengthRow _ (pre ++ suf)); [done|].
  rewrite length_app.
  destruct suf as [|a [|b rest]]; cbn [length] in *.
  - rewrite decide_False by lia. apply post_ret.
    split; [by rewrite insert_id | simpl; lia].
  - rewrite decide_False by lia. apply post_ret.
    split; [by rewrite insert_id | simpl; lia].
  - rewrite decide_True by lia.
    assert (Ha : (pre ++ a :: b :: rest) !! length pre = Some a)
      by apply list_lookup_middle, eq_refl.
    assert (Hb : (pre ++ a :: b :: rest) !! (length pre + 1)%nat = Some b).
    { rewrite lookup_app_r by lia.
      by replace (length pre + 1 - length pre)%nat with 1%nat by lia. }
    apply post_bind, (post_getCell _ _ _ a _ _ Hl Ha).
    apply post_bind, (post_getCell _ _ _ b _ _ Hl Hb).
    rewrite mergePass_cons2. destruct (decide (a = b)) as [<-|Hne].
    + apply post_bind, (post_getCell _ _ _ a _ _ Hl Ha).
      apply post_bind, (post_setCell _ _ _ _ _ _ Hl);
        [rewrite length_app; simpl; lia|].
      rewrite insert_app_r_alt, Nat.sub_diag by lia. cbn [insert list_insert].
      set (h1 := <[l := _]> h).
      assert (Hl1 : h1 !! l = Some (Row (pre ++ a * 2 :: a :: rest)))
        by apply lookup_insert_eq.
      apply post_bind, (post_getCell _ _ _ (a * 2) _ _ Hl1);
        [by apply list_lookup_middle|].
      apply post_bind, (post_setCell _ _ _ _ _ _ Hl1);
        [rewrite length_app; simpl; lia|].
      rewrite insert_app_r_alt by lia.
      replace (length pre + 1 - length pre)%nat with 1%nat by lia.
      cbn [insert list_insert]. subst h1. rewrite insert_insert_eq.
      replace (length pre + 1 + 1)%nat
        with (length (pre ++ [a * 2; 0])) by (rewrite length_app; simpl; lia).
      eapply post_mono.
      * apply (IH (pre ++ [a * 2; 0]) rest); [|lia].
        rewrite lookup_insert_eq. by rewrite <-app_assoc.
      * intros s h' [-> ->]. rewrite insert_insert_eq, <-app_assoc.
        split; [done | simpl; lia].
    + replace (length pre + 1)%nat
        with (length (pre ++ [a])) by (rewrite length_app; simpl; lia).
      eapply post_mono.
      * apply (IH (pre ++ [a]) (b :: rest)); [|simpl; lia].
        by rewrite <-app_assoc.
      * intros s h' [-> ->]. by rewrite <-app_assoc.
Qed.

Lemma padTo_ge n l : (n ≤ length l)%nat → padTo n l = l.
Proof.
  intros Hn. unfold padTo.
  replace (n - length l)%nat with 0%nat by lia. apply app_nil_r.
Qed.

Lemma padTo_snoc n l :
  (length l < n)%nat → padTo n (l ++ [0]) = padTo n l.
Proof.
  intros Hn. unfold padTo. rewrite length_app. cbn [length].
  replace (n - length l)%nat with (S (n - (length l + 1))) by lia.
  by rewrite <-app_assoc.
Qed.

Lemma padLoop_spec fuel l xs (h : heap) :
  h !! l = Some (Row xs) → (GRID_SIZE - length xs < fuel)%nat →
  post (padLoop fuel l) h (λ _ h',
    h' = <[l := Row (padTo GRID_SIZE xs)]> h).
Proof.
  revert xs h. induction fuel as [|fuel IH]; intros xs h Hl Hfuel; [lia|].
  cbn [padLoop]. apply post_bind, (post_lengthRow _ xs); [done|].
  destruct (decide (length xs < GRID_SIZE)%nat) as [Hlt|Hge].
  - apply post_bind, (post_pushRow _ xs); [done|].
    eapply post_mono.
    + apply (IH (xs ++ [0])); [apply lookup_insert_eq|].
      rewrite length_app. simpl. lia.
    + intros _ h' ->. by rewrite insert_insert_eq, padTo_snoc.
  - apply post_ret. rewrite padTo_ge by lia. by rewrite insert_id.
Qed.

(** [moveRowLeft] leaves every array of the store as it was, and
    returns a new array that holds [slideAndMergeLine] of the row. *)
Lemma moveRowLeft_spec row xs (h : heap) :
  h !! row = Some (Row xs) →
  post (moveRowLeft row) h (λ '(newRow, score) h',
    (h ⊆ h') ∧ (newRow ∉ dom h) ∧
    h' !! newRow = Some (Row (slideAndMergeLine xs).1) ∧
    score = (slideAndMergeLine xs).2).
Proof.
  intros Hrow. unfold moveRowLeft.
  apply post_bind, (post_getRow _ xs); [done|].
  apply post_bind, post_alloc. intros l1 Hl1.
  apply post_bind, (post_lengthRow _ (nonZero xs));
    [apply lookup_insert_eq|].
  apply post_bind. eapply post_mono.
  { apply (mergeLoop_spec _ l1 [] (nonZero xs) 0);
      [apply lookup_insert_eq | lia]. }
  intros score h1 [-> ->]. rewrite insert_insert_eq. cbn [app].
  apply post_bind, (post_getRow _ (mergePass (nonZero xs)).1);
    [apply lookup_insert_eq|].
  apply post_bind, post_alloc. intros l2 Hl2.
  apply post_bind. eapply post_mono.
  { apply (padLoop_spec _ l2 (nonZero (mergePass (nonZero xs)).1));
      [apply lookup_insert_eq | unfold GRID_SIZE; lia]. }
  intros _ h2 ->. rewrite insert_insert_eq. apply post_ret.
  assert (Hd1 : h !! l1 = None) by by apply not_elem_of_dom.
  assert (Hd2 : l2 ∉ dom h) by set_solver.
  unfold slideAndMergeLine.
  destruct (mergePass (nonZero xs)) as [merged scoreDelta]. cbn.
  split_and!; [|done|apply lookup_insert_eq|lia].
  apply insert_subseteq_r; [by apply not_elem_of_dom|].
  by apply insert_subseteq.
Qed.

Lemma rowsAt_weaken (h h' : heap) rs m :
  h ⊆ h' → rowsAt h rs m → rowsAt h' rs m.
Proof.
  intros Hsub Hrs. eapply Forall2_impl; [exact Hrs|].
  intros r xs Hr. exact (lookup_weaken _ _ _ _ Hr Hsub).
Qed.

Lemma boardAt_weaken (h h' : heap) b m :
  h ⊆ h' → boardAt h b m → boardAt h' b m.
Proof.
  intros Hsub (rs & Hb & Hrs). exists rs. split.
  - by eapply lookup_weaken.
  - by eapply rowsAt_weaken.
Qed.

Lemma rowsAt_dom (h : heap) rs m :
  rowsAt h rs m → Forall (λ r, r ∈ dom h) rs.
Proof.
  induction 1; constructor; [|done]. by apply elem_of_dom.
Qed.

Lemma rowsAt_inj (h : heap) rs m m' :
  rowsAt h rs m → rowsAt h rs m' → m = m'.
Proof.
  intros H. revert m'. induction H as [|r xs rs m Hr _ IH]; intros m' H'.
  - by inv H'.
  - inv H'. f_equal. by apply IH.
Qed.

Lemma boardAt_inj (h : heap) b m m' :
  boardAt h b m → boardAt h b m' → m = m'.
Proof.
  intros (rs & Hb & Hrs) (rs' & Hb' & Hrs').
  rewrite Hb in Hb'. injection Hb' as <-. by eapply rowsAt_inj.
Qed.

Lemma newBoardAt_boardAt (h h' : heap) b m :
  newBoardAt h h' b m → boardAt h' b m.
Proof. intros (rs & ? & ? & _). by exists rs. Qed.

Lemma loopInv_push (h0 h h1 : heap) newBoard acc res r ys :
  loopInv h0 h newBoard acc res →
  h ⊆ h1 → r ∉ dom h → h1 !! r = Some (Row ys) →
  loopInv h0 (<[newBoard := Mat (acc ++ [r])]> h1) newBoard
    (acc ++ [r]) (res ++ [ys]).
Proof.
  intros (Hsub & Hnb & Hacc & Hres & Hnd & Hfr) Hsub1 Hr Hys.
  assert (Hne : newBoard ≠ r).
  { intros ->. apply Hr, elem_of_dom. eauto. }
  assert (Hin : Forall (λ r', r' ∈ dom h) acc) by by eapply rowsAt_dom.
  split_and!.
  - apply insert_subseteq_r; [by apply not_elem_of_dom|].
    by etrans.
  - done.
  - apply lookup_insert_eq.
  - apply Forall2_app.
    + eapply Forall2_impl; [exact Hres|]. intros r' xs Hr'. cbn.
      rewrite lookup_insert_ne.
      * exact (lookup_weaken _ _ _ _ Hr' Hsub1).
      * intros ->. cbn in Hr'. congruence.
    + constructor; [|constructor]. by rewrite lookup_insert_ne.
  - apply NoDup_app. split_and!; [done| |apply NoDup_singleton].
    intros r' Hr' ->%list_elem_of_singleton.
    rewrite Forall_forall in Hin. by apply Hr, Hin.
  - apply Forall_app. split; [done|]. constructor; [|constructor].
    intros Hd. apply Hr. by eapply (subseteq_dom h0 h).
Qed.

Lemma moveLeftLoop_spec fuel (h0 : heap) board newBoard :
  ∀ rows1 rows2 m2 acc res t (h : heap),
  h0 !! board = Some (Mat (rows1 ++ rows2)) → rowsAt h0 rows2 m2 →
  loopInv h0 h newBoard acc res → (length rows2 < fuel)%nat →
  post (moveLeftLoop fuel board newBoard (length rows1) t) h (λ t' h',
    ∃ acc',
      loopInv h0 h' newBoard acc'
        (res ++ map (λ row, (slideAndMergeLine row).1) m2) ∧
      t' = t + sumZ (map (λ row, (slideAndMergeLine row).2) m2)).
Proof.
  induction fuel as [|fuel IH];
    intros rows1 rows2 m2 acc res t h Hb Hrows Hinv Hfuel; [lia|].
  cbn [moveLeftLoop].
  assert (Hsub : h0 ⊆ h) by apply Hinv.
  assert (Hb' : h !! board = Some (Mat (rows1 ++ rows2)))
    by exact (lookup_weaken _ _ _ _ Hb Hsub).
  apply post_bind, (post_lengthMat _ _ _ _ Hb'). rewrite length_app.
  destruct Hrows as [|r xs rows2 m2 Hr Hrows].
  - rewrite decide_False by (simpl; lia). apply post_ret.
    exists acc. cbn. rewrite app_nil_r. split; [done|lia].
  - rewrite decide_True by (simpl; lia).
    apply post_bind, (post_getMat _ _ _ _ Hb').
    apply post_bind, (post_liftO _ r); [by apply list_lookup_middle|].
    apply post_bind. eapply post_mono.
    { apply (moveRowLeft_spec r xs). exact (lookup_weaken _ _ _ _ Hr Hsub). }
    intros [newRow score] h1 (Hsub1 & Hfresh & Hnew & ->).
    assert (Hacc : h1 !! newBoard = Some (Mat acc)).
    { destruct Hinv as (_ & _ & Hacc & _).
      exact (lookup_weaken _ _ _ _ Hacc Hsub1). }
    apply post_bind, (post_pushMat _ _ _ _ _ Hacc).
    replace (length rows1 + 1)%nat with (length (rows1 ++ [r]))
      by (rewrite length_app; simpl; lia).
    eapply post_mono.
    { eapply (IH (rows1 ++ [r]) rows2 m2).
      - by rewrite <-app_assoc.
      - done.
      - by eapply loopInv_push.
      - simpl in Hfuel. lia. }
    intros t' h' (acc' & Hinv' & ->). exists acc'. cbn.
    rewrite <-app_assoc in Hinv'. split; [done | unfold sumZ; lia].
Qed.

Lemma loopInv_newBoardAt (h0 h : heap) newBoard acc res :
  loopInv h0 h newBoard acc res → newBoardAt h0 h newBoard res.
Proof. intros (? & ? & ? & ? & ? & ?). by exists acc. Qed.

Lemma loopInv_init (h0 : heap) newBoard :
  newBoard ∉ dom h0 → loopInv h0 (<[newBoard := Mat []]> h0) newBoard [] [].
Proof.
  intros Hnb. split_and!; try done.
  - by apply insert_subseteq, not_elem_of_dom.
  - apply lookup_insert_eq.
  - constructor.
  - constructor.
Qed.

(** [moveLeft] leaves the store as it was and returns a new board. *)
Lemma moveLeft_spec board m (h : heap) :
  boardAt h board m →
  post (moveLeft board) h (λ '(newBoard, totalScore) h',
    (h ⊆ h') ∧ newBoardAt h h' newBoard (Den.moveLeft m).1 ∧
    totalScore = (Den.moveLeft m).2).
Proof.
  intros (rows & Hb & Hrows). unfold moveLeft.
  apply post_bind, post_alloc. intros newBoard Hnb.
  pose proof (loopInv_init h newBoard Hnb) as Hinv.
  assert (Hb' : <[newBoard := Mat []]> h !! board = Some (Mat rows)).
  { refine (lookup_weaken _ _ _ _ Hb _). apply Hinv. }
  apply post_bind, (post_lengthMat _ _ _ _ Hb').
  apply post_bind. eapply post_mono.
  { apply (moveLeftLoop_spec _ h board newBoard [] rows m [] [] 0);
      [done..|lia]. }
  intros t' h' (acc' & Hinv' & ->). apply post_ret.
  split_and!; [apply Hinv' | by eapply loopInv_newBoardAt | done].
Qed.

Lemma moveRightLoop_spec fuel (h0 : heap) board newBoard :
  ∀ rows1 rows2 m2 acc res t (h : heap),
  h0 !! board = Some (Mat (rows1 ++ rows2)) → rowsAt h0 rows2 m2 →
  loopInv h0 h newBoard acc res → (length rows2 < fuel)%nat →
  post (moveRightLoop fuel board newBoard (length rows1) t) h (λ t' h',
    ∃ acc',
      loopInv h0 h' newBoard acc'
        (res ++ map (λ row, reverse (slideAndMergeLine (reverse row)).1) m2) ∧
      t' = t + sumZ (map (λ row, (slideAndMergeLine (reverse row)).2) m2)).
Proof.
  induction fuel as [|fuel IH];
    intros rows1 rows2 m2 acc res t h Hb Hrows Hinv Hfuel; [lia|].
  cbn [moveRightLoop].
  assert (Hsub : h0 ⊆ h) by apply Hinv.
  assert (Hb' : h !! board = Some (Mat (rows1 ++ rows2)))
    by exact (lookup_weaken _ _ _ _ Hb Hsub).
  apply post_bind, (post_lengthMat _ _ _ _ Hb'). rewrite length_app.
  destruct Hrows as [|r xs rows2 m2 Hr Hrows].
  - rewrite decide_False by (simpl; lia). apply post_ret.
    exists acc. cbn. rewrite app_nil_r. split; [done|lia].
  - rewrite decide_True by (simpl; lia).
    apply post_bind, (post_getMat _ _ _ _ Hb').
    apply post_bind, (post_liftO _ r); [by apply list_lookup_middle|].
    apply post_bind, (post_getRow _ xs);
      [exact (lookup_weaken _ _ _ _ Hr Hsub)|].
    apply post_bind, post_alloc. intros reversedRow Hrev.
    apply post_bind, (post_reverseRow _ xs); [apply lookup_insert_eq|].
    rewrite insert_insert_eq.
    apply post_bind. eapply post_mono.
    { apply (moveRowLeft_spec reversedRow (reverse xs)).
      apply lookup_insert_eq. }
    intros [newRow score] h1 (Hsub1 & Hfresh & Hnew & ->).
    apply post_bind, (post_reverseRow _ _ _ _ Hnew).
    set (h2 := <[newRow := _]> h1).
    assert (Hfresh' : newRow ∉ dom h) by set_solver.
    assert (Hsub2 : h ⊆ h2).
    { apply insert_subseteq_r; [by apply not_elem_of_dom|].
      etrans; [|exact Hsub1].
      by apply insert_subseteq, not_elem_of_dom. }
    assert (Hacc : h2 !! newBoard = Some (Mat acc)).
    { destruct Hinv as (_ & _ & Hacc & _).
      exact (lookup_weaken _ _ _ _ Hacc Hsub2). }
    apply post_bind, (post_pushMat _ _ _ _ _ Hacc).
    replace (length rows1 + 1)%nat with (length (rows1 ++ [r]))
      by (rewrite length_app; simpl; lia).
    eapply post_mono.
    { eapply (IH (rows1 ++ [r]) rows2 m2).
      - by rewrite <-app_assoc.
      - done.
      - eapply loopInv_push; [done..|]. apply lookup_insert_eq.
      - simpl in Hfuel. lia. }
    intros t' h' (acc' & Hinv' & ->). exists acc'. cbn.
    rewrite <-app_assoc in Hinv'. split; [done | unfold sumZ; lia].
Qed.

Lemma moveRight_spec board m (h : heap) :
  boardAt h board m →
  post (moveRight board) h (λ '(newBoard, totalScore) h',
    (h ⊆ h') ∧ newBoardAt h h' newBoard (Den.moveRight m).1 ∧
    totalScore = (Den.moveRight m).2).
Proof.
  intros (rows & Hb & Hrows). unfold moveRight.
  apply post_bind, post_alloc. intros newBoard Hnb.
  pose proof (loopInv_init h newBoard Hnb) as Hinv.
  assert (Hb' : <[newBoard := Mat []]> h !! board = Some (Mat rows)).
  { refine (lookup_weaken _ _ _ _ Hb _). apply Hinv. }
  apply post_bind, (post_lengthMat _ _ _ _ Hb').
  apply post_bind. eapply post_mono.
  { apply (moveRightLoop_spec _ h board newBoard [] rows m [] [] 0);
      [done..|lia]. }
  intros t' h' (acc' & Hinv' & ->). apply post_ret.
  split_and!; [apply Hinv' | by eapply loopInv_newBoardAt | done].
Qed.

(** ** Arrays of new rows: [map] with a callback that builds a row *)

Lemma mapM_allocRows {A} (g : A → M (list Z)) (R : A → list Z → Prop)
    (h0 : heap) :
  (∀ (h : heap) a xs, h0 ⊆ h → R a xs →
     post (g a) h (λ ys h', h' = h ∧ ys = xs)) →
  ∀ l t (h : heap), h0 ⊆ h → Forall2 R l t →
  post (mapM (λ a, xs ← g a; alloc (Row xs)) l) h (λ rs h',
    (h ⊆ h') ∧ rowsAt h' rs t ∧ NoDup rs ∧ Forall (λ r, r ∉ dom h) rs).
Proof.
  intros Hg l t h Hsub Hlt. revert h Hsub.
  induction Hlt as [|a xs l t Ha _ IH]; intros h Hsub.
  - apply post_ret. split_and!; [done|constructor..].
  - cbn [mapM]. apply post_bind, post_bind. eapply post_mono.
    { by apply Hg. }
    intros ys h1 [-> ->]. apply post_alloc. intros r Hr.
    assert (Hsub1 : h ⊆ <[r := Row xs]> h)
      by by apply insert_subseteq, not_elem_of_dom.
    apply post_bind. eapply post_mono.
    { apply IH. by etrans. }
    intros rs h' (Hsub' & Hrs & Hnd & Hfr). apply post_ret.
    split_and!.
    + by etrans.
    + constructor; [|done].
      refine (lookup_weaken _ _ _ _ _ Hsub'). apply lookup_insert_eq.
    + constructor; [|done]. intros Hin.
      rewrite Forall_forall in Hfr. apply (Hfr _ Hin).
      rewrite dom_insert_L. set_solver.
    + constructor; [done|]. eapply Forall_impl; [exact Hfr|].
      intros r' Hr' Hd. apply Hr'. rewrite dom_insert_L. set_solver.
Qed.

Lemma post_allocMat (h0 h : heap) rs t :
  h0 ⊆ h → rowsAt h rs t → NoDup rs → Forall (λ r, r ∉ dom h0) rs →
  post (alloc (Mat rs)) h (λ b h', (h ⊆ h') ∧ newBoardAt h0 h' b t).
Proof.
  intros Hsub Hrs Hnd Hfr. apply post_alloc. intros b Hb.
  assert (Hsub' : h ⊆ <[b := Mat rs]> h)
    by by apply insert_subseteq, not_elem_of_dom.
  split; [done|]. exists rs. split_and!; [|by eapply rowsAt_weaken|done| |done].
  - apply lookup_insert_eq.
  - intros Hd. apply Hb. by eapply (subseteq_dom h0 h).
Qed.

(** ** [transpose] *)

Lemma readColumn_spec (h : heap) rows m i col :
  rowsAt h rows m → mapM (λ row : list Z, row !! i) m = Some col →
  post (mapM (λ row, getCell row i) rows) h (λ ys h', h' = h ∧ ys = col).
Proof.
  intros Hrows. revert col.
  induction Hrows as [|r xs rows m Hr _ IH]; intros col Hcol.
  - injection Hcol as <-. by apply post_ret.
  - cbn [mapM] in *.
    destruct (xs !! i) as [a|] eqn:Ha; [|done]. cbn in Hcol.
    destruct (mapM _ m) as [col'|]; [|done]. injection Hcol as <-.
    apply post_bind, (post_getCell _ _ _ a _ _ Hr Ha).
    apply post_bind. eapply post_mono; [by apply IH|].
    intros ys h' [-> ->]. by apply post_ret.
Qed.

Lemma transpose_spec board m t (h : heap) :
  boardAt h board m → Den.transpose m = Some t →
  post (transpose board) h (λ newBoard h',
    (h ⊆ h') ∧ newBoardAt h h' newBoard t).
Proof.
  intros (rows & Hb & Hrows) Ht. unfold transpose, Den.transpose in *.
  apply post_bind, (post_getMat _ _ _ _ Hb).
  destruct Hrows as [|r0 xs0 rows m Hr0 Hrows]; [done|]. cbn in Ht.
  apply post_bind, (post_liftO _ r0); [done|].
  apply post_bind, (post_lengthRow _ _ _ _ Hr0).
  apply mapM_Some in Ht.
  apply post_bind. eapply post_mono.
  { apply (mapM_allocRows _
      (λ i col, mapM (λ row : list Z, row !! i) (xs0 :: m) = Some col) h);
      [|done|exact Ht].
    intros h1 i col Hsub Hcol.
    apply (readColumn_spec _ _ (xs0 :: m)); [|done].
    eapply rowsAt_weaken; [done|]. by constructor. }
  intros cols h1 (Hsub & Hcols & Hnd & Hfr).
  eapply post_mono; [by apply (post_allocMat h)|].
  intros b h' [Hsub' Hnew]. split; [by etrans | done].
Qed.

(** ** The four moves *)

Lemma newBoardAt_anti (h0 h1 h' : heap) b m :
  h0 ⊆ h1 → newBoardAt h1 h' b m → newBoardAt h0 h' b m.
Proof.
  intros Hsub (rs & Hb & Hrs & Hnd & Hfb & Hfr).
  pose proof (subseteq_dom h0 h1 Hsub) as Hd.
  exists rs. split_and!; [done..| |].
  - set_solver.
  - eapply Forall_impl; [exact Hfr|]. set_solver.
Qed.

Lemma moveUp_spec board m m' s (h : heap) :
  boardAt h board m → Den.moveUp m = Some (m', s) →
  post (moveUp board) h (λ '(newBoard, totalScore) h',
    (h ⊆ h') ∧ newBoardAt h h' newBoard m' ∧ totalScore = s).
Proof.
  intros Hb Hup. unfold Den.moveUp in Hup.
  apply bind_Some in Hup as (t & Ht & Hup).
  apply bind_Some in Hup as (r & Hr & [= <- <-]). unfold moveUp.
  apply post_bind. eapply post_mono; [by eapply transpose_spec|].
  intros transposed h1 [Hsub1 Ht1].
  apply post_bind. eapply post_mono.
  { eapply moveLeft_spec. by eapply newBoardAt_boardAt. }
  intros [moved totalScore] h2 (Hsub2 & Hmoved & ->).
  apply post_bind. eapply post_mono.
  { eapply transpose_spec; [|exact Hr]. by eapply newBoardAt_boardAt. }
  intros newBoard h3 [Hsub3 Hnew]. apply post_ret.
  split_and!; [by do 2 etrans| |done].
  eapply newBoardAt_anti; [|exact Hnew]. by etrans.
Qed.

Lemma moveDown_spec board m m' s (h : heap) :
  boardAt h board m → Den.moveDown m = Some (m', s) →
  post (moveDown board) h (λ '(newBoard, totalScore) h',
    (h ⊆ h') ∧ newBoardAt h h' newBoard m' ∧ totalScore = s).
Proof.
  intros Hb Hup. unfold Den.moveDown in Hup.
  apply bind_Some in Hup as (t & Ht & Hup).
  apply bind_Some in Hup as (r & Hr & [= <- <-]). unfold moveDown.
  apply post_bind. eapply post_mono; [by eapply transpose_spec|].
  intros transposed h1 [Hsub1 Ht1].
  apply post_bind. eapply post_mono.
  { eapply moveRight_spec. by eapply newBoardAt_boardAt. }
  intros [moved totalScore] h2 (Hsub2 & Hmoved & ->).
  apply post_bind. eapply post_mono.
  { eapply transpose_spec; [|exact Hr]. by eapply newBoardAt_boardAt. }
  intros newBoard h3 [Hsub3 Hnew]. apply post_ret.
  split_and!; [by do 2 etrans| |done].
  eapply newBoardAt_anti; [|exact Hnew]. by etrans.
Qed.

(** Each move of the [switch] runs its denotation on the contents of
    the board, writes to no array of the caller and returns a new
    board. *)
Lemma move_spec direction move dmove board m m' s (h : heap) :
  moveOf direction = Some move → Den.moveOf direction = Some dmove →
  boardAt h board m → dmove m = Some (m', s) →
  post (move board) h (λ '(newBoard, totalScore) h',
    (h ⊆ h') ∧ newBoardAt h h' newBoard m' ∧ totalScore = s).
Proof.
  unfold moveOf, Den.moveOf. intros Hmove Hdmove Hb Hm.
  repeat case_decide; simplify_eq.
  - by eapply moveUp_spec.
  - by eapply moveDown_spec.
  - eapply post_mono; [by eapply moveLeft_spec|].
    intros [newBoard totalScore] h'. by rewrite Hm.
  - eapply post_mono; [by eapply moveRight_spec|].
    intros [newBoard totalScore] h'. by rewrite Hm.
Qed.

Lemma moveOf_Den direction move :
  moveOf direction = Some move → is_Some (Den.moveOf direction).
Proof.
  unfold moveOf, Den.moveOf. intros. repeat case_decide; by simplify_eq.
Qed.

(** ** Reading a board *)

Lemma getBoard_spec board m (h : heap) :
  boardAt h board m →
  post (getBoard board) h (λ m' h', h' = h ∧ m' = m).
Proof.
  intros (rows & Hb & Hrows). unfold getBoard.
  apply post_bind, (post_getMat _ _ _ _ Hb). clear Hb.
  induction Hrows as [|r xs rows m Hr _ IH].
  - by apply post_ret.
  - cbn [mapM]. apply post_bind, (post_getRow _ _ _ _ Hr).
    apply post_bind. eapply post_mono; [exact IH|].
    intros m' h' [-> ->]. by apply post_ret.
Qed.

Lemma arraysEqual_spec a b ma mb r (h : heap) :
  boardAt h a ma → boardAt h b mb → Val.arraysEqual ma mb = Some r →
  post (arraysEqual a b) h (λ r' h', h' = h ∧ r' = r).
Proof.
  intros Ha Hb Hr. unfold arraysEqual.
  apply post_bind. eapply post_mono; [by apply getBoard_spec|].
  intros ? ? [-> ->].
  apply post_bind. eapply post_mono; [by apply getBoard_spec|].
  intros ? ? [-> ->]. by apply (post_liftO _ r).
Qed.

Lemma isGameOver_spec b m r (h : heap) :
  boardAt h b m → Val.isGameOver m = Some r →
  post (isGameOver b) h (λ r' h', h' = h ∧ r' = r).
Proof.
  intros Hb Hr. unfold isGameOver.
  apply post_bind. eapply post_mono; [by apply getBoard_spec|].
  intros ? ? [-> ->]. by apply (post_liftO _ r).
Qed.

(** ** The spawner *)

Lemma elem_of_emptyCells (m : list (list Z)) x y :
  (x, y) ∈ Val.emptyCells m ↔
  ∃ row, m !! x = Some row ∧ row !! y = Some 0.
Proof.
  unfold Val.emptyCells. rewrite list_elem_of_join. split.
  - intros (l & Hxy & Hl).
    apply elem_of_lookup_imap in Hl as (i & row & -> & Hrow).
    apply list_elem_of_join in Hxy as (l' & Hxy & Hl').
    apply elem_of_lookup_imap in Hl' as (j & cell & -> & Hcell).
    case_decide; [|by apply elem_of_nil in Hxy].
    apply list_elem_of_singleton in Hxy as [= -> ->]. subst cell. eauto.
  - intros (row & Hrow & Hcell).
    set (f := λ (i : nat) (row : list Z),
      mjoin (imap (λ j cell, if decide (cell = 0) then [(i, j)] else [])
                  row)).
    exists (f x row). split.
    + apply list_elem_of_join. exists [(x, y)]. split.
      * by apply list_elem_of_singleton.
      * apply elem_of_lookup_imap. exists y, 0.
        split; [by rewrite decide_True|done].
    + by apply (elem_of_lookup_imap_2 f).
Qed.

Lemma lookupZ_elem_of {A} (l : list A) k a :
  lookupZ l k = Some a → a ∈ l.
Proof.
  unfold lookupZ. case_decide; [|done]. apply list_elem_of_lookup_2.
Qed.

(** A draw of [0, 1) picks an index inside the array. *)
Lemma floorMul_bounds u n :
  (0 <= u)%Q → (u < 1)%Q → (0 < n)%nat →
  0 ≤ floorMul u n < Z.of_nat n.
Proof.
  intros H0 H1 Hn. unfold floorMul.
  set (q := inject_Z (Z.of_nat n)).
  assert (Hq : (0 < q)%Q).
  { unfold q. rewrite <-(Zlt_Qlt 0). lia. }
  split.
  - rewrite <-(Qfloor_Z 0). apply Qfloor_resp_le.
    apply Qmult_le_0_compat; [done | by apply Qlt_le_weak].
  - rewrite Zlt_Qlt. eapply Qle_lt_trans; [apply Qfloor_le|].
    fold q. rewrite <-(Qmult_1_l q) at 2.
    by apply Qmult_lt_compat_r.
Qed.

Lemma lookupZ_floorMul {A} (l : list A) u :
  (0 <= u)%Q → (u < 1)%Q → l ≠ [] →
  is_Some (lookupZ l (floorMul u (length l))).
Proof.
  intros H0 H1 Hl.
  assert (0 < length l)%nat by (destruct l; [done | simpl; lia]).
  pose proof (floorMul_bounds u (length l) H0 H1 ltac:(done)) as [Hlo Hhi].
  unfold lookupZ. rewrite decide_True by done.
  apply lookup_lt_is_Some. lia.
Qed.

Lemma tileValue_cases u : tileValue u = 2 ∨ tileValue u = 4.
Proof. unfold tileValue. destruct (Qlt_le_dec u (9 # 10)); auto. Qed.

Lemma rowsAt_setAt (h : heap) rows m x y v rx xs :
  rowsAt h rows m → (∀ i, rows !! i = Some rx → i = x) →
  rows !! x = Some rx → h !! rx = Some (Row xs) →
  rowsAt (<[rx := Row (<[y := v]> xs)]> h) rows (Den.setAt x y v m).
Proof.
  intros Hrows Hnd Hx Hrx. unfold Den.setAt.
  apply Forall2_same_length_lookup_2.
  { rewrite length_alter. by eapply Forall2_length. }
  intros i r row Hr Hrow.
  destruct (decide (i = x)) as [->|Hne].
  - assert (r = rx) as -> by congruence.
    rewrite list_lookup_alter_eq in Hrow.
    destruct (m !! x) as [row0|] eqn:Hrow0; [|done].
    injection Hrow as <-.
    pose proof (Forall2_lookup_lr _ _ _ _ _ _ Hrows Hx Hrow0) as Hh.
    cbn in Hh. assert (xs = row0) as -> by congruence.
    apply lookup_insert_eq.
  - rewrite list_lookup_alter_ne in Hrow by done.
    pose proof (Forall2_lookup_lr _ _ _ _ _ _ Hrows Hr Hrow) as Hh.
    cbn in Hh. rewrite lookup_insert_ne; [done|].
    intros <-. by apply Hne, Hnd.
Qed.

Lemma newBoardAt_dom (h0 h1 h' : heap) b m :
  dom h0 ⊆ dom h1 → newBoardAt h1 h' b m → newBoardAt h0 h' b m.
Proof.
  intros Hd (rs & Hb & Hrs & Hnd & Hfb & Hfr).
  exists rs. split_and!; [done..| |].
  - set_solver.
  - eapply Forall_impl; [exact Hfr|]. set_solver.
Qed.

(** On a full board [addRandomTile] returns its argument. *)
Lemma addRandomTile_full_spec u1 u2 b m (h : heap) :
  boardAt h b m → Val.emptyCells m = [] →
  post (addRandomTile u1 u2 b) h (λ b' h', b' = b ∧ h' = h).
Proof.
  intros Hb Hfull. unfold addRandomTile.
  apply post_bind. eapply post_mono; [by apply getBoard_spec|].
  intros ? ? [-> ->]. rewrite Hfull. by apply post_ret.
Qed.

(** With an empty cell, it writes the tile into the row of its
    argument, then returns a copy of the board. *)
Lemma addRandomTile_spawn_spec u1 u2 b rows m x y (h : heap) :
  h !! b = Some (Mat rows) → rowsAt h rows m →
  (∀ i rx, rows !! x = Some rx → rows !! i = Some rx → i = x) →
  Val.emptyCells m ≠ [] →
  lookupZ (Val.emptyCells m)
    (floorMul u1 (length (Val.emptyCells m))) = Some (x, y) →
  post (addRandomTile u1 u2 b) h (λ b' h',
    ∃ rx xs, rows !! x = Some rx ∧ h !! rx = Some (Row xs) ∧
      xs !! y = Some 0 ∧
      (<[rx := Row (<[y := tileValue u2]> xs)]> h ⊆ h') ∧
      boardAt h' b (Den.setAt x y (tileValue u2) m) ∧
      newBoardAt h h' b' (Den.setAt x y (tileValue u2) m)).
Proof.
  intros Hb Hrows Hnd Hne Hxy. unfold addRandomTile.
  apply post_bind. eapply post_mono.
  { apply (getBoard_spec b m). by exists rows. }
  intros ? ? [-> ->]. cbn zeta.
  rewrite decide_False by (by destruct (Val.emptyCells m)).
  apply post_bind, (post_liftO _ (x, y)); [done|].
  apply lookupZ_elem_of, elem_of_emptyCells in Hxy as (xs & Hxs & Hy).
  destruct (Forall2_lookup_r _ _ _ _ _ Hrows Hxs) as (rx & Hrx & Hh).
  cbn in Hh.
  apply post_bind, (post_getMat _ _ _ _ Hb).
  apply post_bind, (post_liftO _ rx); [done|].
  apply post_bind, (post_setCell _ _ _ _ _ _ Hh);
    [by eapply lookup_lt_Some|].
  set (v := tileValue u2). set (h1 := <[rx := _]> h).
  assert (Hbrx : b ≠ rx) by congruence.
  assert (Hb1 : h1 !! b = Some (Mat rows))
    by by (unfold h1; rewrite lookup_insert_ne).
  assert (Hrows1 : rowsAt h1 rows (Den.setAt x y v m)).
  { eapply rowsAt_setAt; [done| |done..]. intros i Hi. by eapply Hnd. }
  assert (Hdom : dom h ⊆ dom h1).
  { unfold h1. rewrite dom_insert_L. set_solver. }
  apply post_bind, (post_getMat _ _ _ _ Hb1).
  apply post_bind. eapply post_mono.
  { apply (mapM_allocRows getRow
             (λ r xs, h1 !! r = Some (Row xs)) h1); [|done|exact Hrows1].
    intros h2 r ys Hsub Hr.
    apply (post_getRow _ ys); [|done].
    exact (lookup_weaken _ _ _ _ Hr Hsub). }
  intros copies h2 (Hsub2 & Hcopies & Hndc & Hfrc).
  eapply post_mono; [by apply (post_allocMat h1)|].
  intros b' h' [Hsub' Hnew]. exists rx, xs.
  assert (Hsub1 : h1 ⊆ h') by by etrans.
  split_and!; [done..| |by eapply newBoardAt_dom].
  eapply boardAt_weaken; [exact Hsub1|]. by exists rows.
Qed.

(** ** Properties of the line primitive *)

(** Induction along the scan of [mergePass]. *)
Lemma mergePass_ind' (P : list Z → Prop) :
  P [] → (∀ a, P [a]) →
  (∀ a rest, P rest → P (a :: a :: rest)) →
  (∀ a b rest, a ≠ b → P (b :: rest) → P (a :: b :: rest)) →
  ∀ l, P l.
Proof.
  intros Hnil Hone Hmerge Hskip l.
  induction l as [l IH] using (induction_ltof1 _ (@length Z)).
  unfold ltof in IH. destruct l as [|a [|b rest]]; [done..|].
  destruct (decide (a = b)) as [<-|Hne].
  - apply Hmerge, IH. simpl. lia.
  - apply Hskip; [done|]. apply IH. simpl. lia.
Qed.

Lemma mergePass_merge a rest :
  mergePass (a :: a :: rest) =
  (a * 2 :: 0 :: (mergePass rest).1, a * 2 + (mergePass rest).2).
Proof. by rewrite mergePass_cons2, decide_True. Qed.

Lemma mergePass_skip a b rest :
  a ≠ b →
  mergePass (a :: b :: rest) =
  (a :: (mergePass (b :: rest)).1, (mergePass (b :: rest)).2).
Proof. intros. by rewrite mergePass_cons2, decide_False. Qed.

Lemma mergePass_length l : length (mergePass l).1 = length l.
Proof.
  induction l as [|a|a rest IH|a b rest Hne IH] using mergePass_ind';
    [done..| |].
  - rewrite mergePass_merge. cbn. by rewrite IH.
  - rewrite mergePass_skip by done. cbn [fst length]. by rewrite IH.
Qed.

Lemma sumZ_app l k : sumZ (l ++ k) = sumZ l + sumZ k.
Proof. unfold sumZ. induction l as [|a l IH]; simpl; lia. Qed.

Lemma sumZ_replicate_0 n : sumZ (replicate n 0) = 0.
Proof. unfold sumZ. induction n as [|n IH]; simpl; lia. Qed.

Lemma sumZ_reverse l : sumZ (reverse l) = sumZ l.
Proof.
  induction l as [|a l IH]; [done|].
  rewrite reverse_cons, sumZ_app, IH. unfold sumZ. simpl. lia.
Qed.

Lemma sumZ_nonZero l : sumZ (nonZero l) = sumZ l.
Proof.
  unfold nonZero, sumZ. induction l as [|a l IH]; [done|].
  rewrite filter_cons. case_decide; simpl; lia.
Qed.

Lemma sumZ_padTo n l : sumZ (padTo n l) = sumZ l.
Proof. unfold padTo. rewrite sumZ_app, sumZ_replicate_0. lia. Qed.

Lemma sumZ_mergePass l : sumZ (mergePass l).1 = sumZ l.
Proof.
  induction l as [|a|a rest IH|a b rest Hne IH] using mergePass_ind';
    [done..| |].
  - rewrite mergePass_merge. unfold sumZ in *. cbn. lia.
  - rewrite mergePass_skip by done. unfold sumZ in *. cbn [fst foldr] in *.
    lia.
Qed.

Lemma slideAndMergeLine_fst xs :
  (slideAndMergeLine xs).1 =
  padTo GRID_SIZE (nonZero (mergePass (nonZero xs)).1).
Proof. unfold slideAndMergeLine. by destruct (mergePass (nonZero xs)). Qed.

Lemma slideAndMergeLine_snd xs :
  (slideAndMergeLine xs).2 = (mergePass (nonZero xs)).2.
Proof. unfold slideAndMergeLine. by destruct (mergePass (nonZero xs)). Qed.

(** Mass of a line. *)
Lemma slideAndMergeLine_sum xs : sumZ (slideAndMergeLine xs).1 = sumZ xs.
Proof.
  by rewrite slideAndMergeLine_fst, sumZ_padTo, sumZ_nonZero,
    sumZ_mergePass, sumZ_nonZero.
Qed.

Lemma nonZero_length l : (length (nonZero l) ≤ length l)%nat.
Proof. apply length_filter. Qed.

Lemma slideAndMergeLine_length xs :
  (length xs ≤ GRID_SIZE)%nat → length (slideAndMergeLine xs).1 = GRID_SIZE.
Proof.
  intros Hlen. rewrite slideAndMergeLine_fst. unfold padTo.
  rewrite length_app, length_replicate.
  pose proof (nonZero_length (mergePass (nonZero xs)).1) as H1.
  rewrite mergePass_length in H1.
  pose proof (nonZero_length xs). lia.
Qed.

Lemma nonZero_Forall l : Forall (λ v, v ≠ 0) (nonZero l).
Proof.
  apply Forall_forall. intros v Hv.
  by apply list_elem_of_filter in Hv as [? _].
Qed.

Lemma nonZero_id l : Forall (λ v, v ≠ 0) l → nonZero l = l.
Proof.
  unfold nonZero. induction 1 as [|a l Ha _ IH]; [done|].
  by rewrite filter_cons, decide_True, IH.
Qed.

Lemma nonZero_app l k : nonZero (l ++ k) = nonZero l ++ nonZero k.
Proof. apply filter_app. Qed.

Lemma nonZero_replicate_0 n : nonZero (replicate n 0) = [].
Proof.
  unfold nonZero. induction n as [|n IH]; [done|].
  cbn [replicate]. rewrite filter_cons, decide_False; [done|].
  intros H. by apply H.
Qed.

Lemma nonZero_padTo n l : nonZero (padTo n l) = nonZero l.
Proof.
  unfold padTo. by rewrite nonZero_app, nonZero_replicate_0, app_nil_r.
Qed.

(** A merge shortens the line: if the pass keeps as many tiles as it
    was given, it merged nothing and scored nothing. *)
Lemma mergePass_no_merge l :
  Forall (λ v, v ≠ 0) l →
  length (nonZero (mergePass l).1) = length l →
  (mergePass l).2 = 0 ∧ (mergePass l).1 = l.
Proof.
  induction l as [|a|a rest IH|a b rest Hne IH] using mergePass_ind';
    intros Hnz Hlen; [done..| |].
  - exfalso. rewrite mergePass_merge in Hlen. cbn [fst] in Hlen.
    pose proof (nonZero_length (mergePass rest).1) as H1.
    rewrite mergePass_length in H1.
    pose proof (nonZero_length (a * 2 :: 0 :: (mergePass rest).1)) as H2.
    unfold nonZero in *. rewrite filter_cons in Hlen.
    case_decide; rewrite filter_cons, decide_False in Hlen by lia;
      cbn [length] in *; lia.
  - rewrite mergePass_skip in * by done. cbn [fst snd] in *.
    inv Hnz. unfold nonZero in *. rewrite filter_cons, decide_True in Hlen by done.
    cbn [length] in Hlen.
    destruct IH as [-> ->]; [done|cbn [length]; lia|done].
Qed.

(** A line that slides onto itself scores nothing. *)
Lemma slideAndMergeLine_unchanged xs :
  (slideAndMergeLine xs).1 = xs → (slideAndMergeLine xs).2 = 0.
Proof.
  intros Hsame. rewrite slideAndMergeLine_snd.
  apply mergePass_no_merge; [apply nonZero_Forall|].
  rewrite <-Hsame at 2. by rewrite slideAndMergeLine_fst, nonZero_padTo,
    (nonZero_id (nonZero _)) by apply nonZero_Forall.
Qed.

Lemma isTile_pow2 v : isTile v ↔ v = 0 ∨ ∃ k, 1 ≤ k ∧ v = 2 ^ k.
Proof.
  unfold isTile. split; (intros [->|H]; [by left|right]).
  - destruct H as [H2 Hv]. exists (Z.log2 v). split; [|done].
    apply Z.log2_le_pow2; lia.
  - destruct H as (k & Hk & ->).
    rewrite Z.log2_pow2 by lia. split; [|done].
    change 2 with (2 ^ 1) at 1. apply Z.pow_le_mono_r; lia.
Qed.

Lemma isTile_double v : isTile v → isTile (v * 2).
Proof.
  rewrite !isTile_pow2. intros [->|(k & Hk & ->)]; [by left|right].
  exists (k + 1). split; [lia|]. rewrite Z.pow_add_r by lia. lia.
Qed.

Lemma isTile_0 : isTile 0.
Proof. by left. Qed.

Lemma isTile_tileValue u : isTile (tileValue u).
Proof. destruct (tileValue_cases u) as [-> | ->]; right; by compute. Qed.

Lemma row4_inv (row : list Z) :
  length row = GRID_SIZE → ∃ a b c d, row = [a; b; c; d].
Proof.
  destruct row as [|a [|b [|c [|d [|]]]]]; try done. by exists a, b, c, d.
Qed.

Lemma is4x4_inv m :
  is4x4 m →
  ∃ a0 a1 a2 a3 b0 b1 b2 b3 c0 c1 c2 c3 d0 d1 d2 d3,
    m = [[a0; a1; a2; a3]; [b0; b1; b2; b3];
         [c0; c1; c2; c3]; [d0; d1; d2; d3]].
Proof.
  intros [Hlen Hrows].
  destruct m as [|r0 [|r1 [|r2 [|r3 [|]]]]]; try done.
  rewrite !Forall_cons in Hrows.
  destruct Hrows as (H0 & H1 & H2 & H3 & _).
  destruct (row4_inv _ H0) as (a0 & a1 & a2 & a3 & ->).
  destruct (row4_inv _ H1) as (b0 & b1 & b2 & b3 & ->).
  destruct (row4_inv _ H2) as (c0 & c1 & c2 & c3 & ->).
  destruct (row4_inv _ H3) as (d0 & d1 & d2 & d3 & ->).
  by repeat eexists.
Qed.

Lemma is4x4_intro a0 a1 a2 a3 b0 b1 b2 b3 c0 c1 c2 c3 d0 d1 d2 d3 :
  is4x4 [[a0; a1; a2; a3]; [b0; b1; b2; b3];
         [c0; c1; c2; c3]; [d0; d1; d2; d3]].
Proof. split; [done|]. by repeat constructor. Qed.

Lemma transpose_4x4 m :
  is4x4 m →
  ∃ t, Den.transpose m = Some t ∧ is4x4 t ∧ Den.transpose t = Some m ∧
       sumAll t = sumAll m ∧ (allTiles m → allTiles t).
Proof.
  intros Hm.
  destruct (is4x4_inv m Hm)
    as (a0&a1&a2&a3&b0&b1&b2&b3&c0&c1&c2&c3&d0&d1&d2&d3&->).
  eexists. split; [reflexivity|]. split_and!.
  - apply is4x4_intro.
  - reflexivity.
  - unfold sumAll, sumZ. simpl. lia.
  - unfold allTiles. rewrite !Forall_cons, !Forall_nil. tauto.
Qed.

Lemma moveLeft_4x4 m : is4x4 m → is4x4 (Den.moveLeft m).1.
Proof.
  intros [Hlen Hrows]. split; cbn; [by rewrite length_map|].
  apply Forall_map. eapply Forall_impl; [exact Hrows|].
  intros row Hrow. cbn beta in *. apply slideAndMergeLine_length. lia.
Qed.

Lemma moveRight_4x4 m : is4x4 m → is4x4 (Den.moveRight m).1.
Proof.
  intros [Hlen Hrows]. split; cbn; [by rewrite length_map|].
  apply Forall_map. eapply Forall_impl; [exact Hrows|].
  intros row Hrow. cbn beta in *. rewrite length_reverse.
  apply slideAndMergeLine_length. rewrite length_reverse. lia.
Qed.

(** On a 4 by 4 board every move is defined and gives a 4 by 4
    board. *)
Lemma moveOf_4x4 direction dmove m :
  Den.moveOf direction = Some dmove → is4x4 m →
  ∃ m' s, dmove m = Some (m', s) ∧ is4x4 m'.
Proof.
  unfold Den.moveOf. intros Hd Hm. repeat case_decide; simplify_eq.
  - destruct (transpose_4x4 m Hm) as (t & Ht & Ht4 & _).
    destruct (transpose_4x4 _ (moveLeft_4x4 t Ht4)) as (r & Hr & Hr4 & _).
    exists r, (Den.moveLeft t).2. split; [|done].
    apply bind_Some. exists t. split; [done|].
    apply bind_Some. by exists r.
  - destruct (transpose_4x4 m Hm) as (t & Ht & Ht4 & _).
    destruct (transpose_4x4 _ (moveRight_4x4 t Ht4)) as (r & Hr & Hr4 & _).
    exists r, (Den.moveRight t).2. split; [|done].
    apply bind_Some. exists t. split; [done|].
    apply bind_Some. by exists r.
  - eexists _, _. split; [done|]. by apply moveLeft_4x4.
  - eexists _, _. split; [done|]. by apply moveRight_4x4.
Qed.

(** ** Loops that only test *)

Lemma existsb_false {A} (P : A → bool) (l : list A) :
  existsb P l = false ↔ ∀ x, x ∈ l → P x = false.
Proof.
  induction l as [|a l IH]; cbn.
  - split; [|done]. intros _ x Hx. by apply elem_of_nil in Hx.
  - rewrite orb_false_iff, IH. split.
    + intros [Ha Hl] x [->|Hx]%elem_of_cons; auto.
    + intros Hall. split; [apply Hall; left|].
      intros x Hx. apply Hall. by right.
Qed.

Lemma existsb_true {A} (P : A → bool) (l : list A) :
  existsb P l = true ↔ ∃ x, x ∈ l ∧ P x = true.
Proof.
  rewrite existsb_exists. by setoid_rewrite list_elem_of_In.
Qed.

Lemma forIn_ext {R} idx (f g : nat → option (ctl R)) :
  (∀ i, i ∈ idx → f i = g i) → forIn idx f = forIn idx g.
Proof.
  induction idx as [|i idx IH]; intros Hfg; [done|]. cbn.
  rewrite <-Hfg by apply list_elem_of_here.
  rewrite IH; [done|]. intros j Hj. by apply Hfg, list_elem_of_further.
Qed.

Lemma forIn_test idx (P : nat → bool) :
  forIn idx (λ i, Some (if P i then Return false else Next)) =
  Some (if existsb P idx then Return false else Next).
Proof.
  induction idx as [|i idx IH]; [done|]. cbn. by destruct (P i).
Qed.

Lemma elem_of_seq_0 n i : i ∈ seq 0 n ↔ (i < n)%nat.
Proof. rewrite elem_of_seq. lia. Qed.

(** ** [arraysEqual] on boards of the same shape *)

Lemma arraysEqual_row (ai bi : list Z) :
  length ai = length bi →
  forIn (seq 0 (length ai)) (λ j,
    if decide (ai !! j ≠ bi !! j) then Some (Return false) else Some Next) =
  Some (if bool_decide (ai = bi) then Next else Return false).
Proof.
  intros Hlen.
  rewrite (forIn_ext _ _
    (λ j, Some (if bool_decide (ai !! j ≠ bi !! j)
                then Return false else Next))).
  2: { intros j _. by case_decide; case_bool_decide. }
  rewrite forIn_test. f_equal.
  destruct (existsb _ _) eqn:Hex.
  - apply existsb_true in Hex as (j & _ & Hj).
    apply bool_decide_eq_true in Hj.
    rewrite bool_decide_false; [done|]. by intros ->.
  - rewrite bool_decide_true; [done|].
    apply list_eq_same_length with (length ai); [done..|].
    intros j x y Hj Hx Hy.
    pose proof (proj1 (existsb_false _ _) Hex j) as Hf.
    rewrite elem_of_seq_0 in Hf. specialize (Hf Hj).
    apply bool_decide_eq_false in Hf. apply dec_stable in Hf. congruence.
Qed.

Lemma arraysEqual_same_shape (a b : list (list Z)) :
  Forall2 (λ r r', length r = length r') a b →
  Val.arraysEqual a b = Some (bool_decide (a = b)).
Proof.
  intros Hshape. unfold Val.arraysEqual.
  rewrite (forIn_ext _ _
    (λ i, Some (if negb (bool_decide (a !! i = b !! i))
                then Return false else Next))).
  2: { intros i Hi%elem_of_seq_0.
       destruct (lookup_lt_is_Some_2 a i Hi) as [ai Hai].
       destruct (Forall2_lookup_l _ _ _ _ _ Hshape Hai) as (bi & Hbi & Hlen).
       rewrite Hai, Hbi. cbn. rewrite arraysEqual_row by done.
       by repeat case_bool_decide; simplify_eq. }
  rewrite forIn_test. cbn. f_equal.
  destruct (existsb _ _) eqn:Hex.
  - apply existsb_true in Hex as (i & _ & Hi).
    apply negb_true_iff, bool_decide_eq_false in Hi.
    rewrite bool_decide_false; [done|]. by intros ->.
  - rewrite bool_decide_true; [done|].
    apply list_eq_same_length with (length a);
      [symmetry; by eapply Forall2_length|done|].
    intros i x y Hi Hx Hy.
    pose proof (proj1 (existsb_false _ _) Hex i) as Hf.
    rewrite elem_of_seq_0 in Hf. specialize (Hf Hi).
    apply negb_false_iff, bool_decide_eq_true in Hf. congruence.
Qed.

Lemma is4x4_same_shape a b :
  is4x4 a → is4x4 b → Forall2 (λ r r' : list Z, length r = length r') a b.
Proof.
  intros [Hla Ha] [Hlb Hb]. apply Forall2_same_length_lookup_2; [congruence|].
  intros i x y Hx Hy. rewrite Forall_forall in Ha, Hb.
  rewrite (Ha x), (Hb y); [done|by eapply list_elem_of_lookup_2..].
Qed.

Lemma arraysEqual_4x4 a b :
  is4x4 a → is4x4 b → Val.arraysEqual a b = Some (bool_decide (a = b)).
Proof. intros. by apply arraysEqual_same_shape, is4x4_same_shape. Qed.

Lemma is4x4_lookup m i :
  is4x4 m → (i < GRID_SIZE)%nat →
  ∃ row, m !! i = Some row ∧ length row = GRID_SIZE.
Proof.
  intros [Hlen Hrows] Hi.
  destruct (lookup_lt_is_Some_2 m i) as [row Hrow]; [lia|].
  exists row. split; [done|]. rewrite Forall_forall in Hrows.
  by eapply Hrows, list_elem_of_lookup_2.
Qed.

Lemma is4x4_cell m i j :
  is4x4 m → (i < GRID_SIZE)%nat → (j < GRID_SIZE)%nat →
  is_Some (cell m i j).
Proof.
  intros Hm Hi Hj. destruct (is4x4_lookup m i Hm Hi) as (row & Hrow & Hlen).
  unfold cell. rewrite Hrow. cbn. apply lookup_lt_is_Some_2. lia.
Qed.

Lemma isGameOver_loop1 m :
  is4x4 m →
  forIn (seq 0 GRID_SIZE) (λ i,
    forIn (seq 0 GRID_SIZE) (λ j,
      bi ← m !! i;
      if decide (bi !! j = Some 0) then Some (Return false)
      else Some Next)) =
  Some (if hasEmpty m then Return false else Next).
Proof.
  intros Hm. unfold hasEmpty. rewrite <-forIn_test.
  apply forIn_ext. intros i Hi%elem_of_seq_0. rewrite <-forIn_test.
  apply forIn_ext. intros j _.
  destruct (is4x4_lookup m i Hm Hi) as (row & Hrow & _).
  unfold cell. rewrite Hrow. cbn.
  by case_decide; case_bool_decide.
Qed.

Lemma isGameOver_loop2 m :
  is4x4 m →
  forIn (seq 0 GRID_SIZE) (λ i,
    forIn (seq 0 GRID_SIZE) (λ j,
      c1 ← (if decide (j < GRID_SIZE - 1)%nat then
              bi ← m !! i;
              Some (bool_decide (bi !! j = bi !! (j + 1)%nat))
            else Some false : option bool);
      if (c1 : bool) then Some (Return false) else
      c2 ← (if decide (i < GRID_SIZE - 1)%nat then
              bi ← m !! i;
              bi1 ← m !! (i + 1)%nat;
              Some (bool_decide (bi !! j = bi1 !! j))
            else Some false : option bool);
      if (c2 : bool) then Some (Return false) else Some Next)) =
  Some (if hasEqualNeighbours m then Return false else Next).
Proof.
  intros Hm. unfold hasEqualNeighbours. rewrite <-forIn_test.
  apply forIn_ext. intros i Hi%elem_of_seq_0. rewrite <-forIn_test.
  apply forIn_ext. intros j _.
  destruct (is4x4_lookup m i Hm Hi) as (row & Hrow & _).
  assert (Hnext : (i < 3)%nat → ∃ row', m !! (i + 1)%nat = Some row').
  { intros Hi'. destruct (is4x4_lookup m (i + 1) Hm) as (row' & ? & _);
      [unfold GRID_SIZE; lia | by exists row']. }
  unfold cell. rewrite Hrow. change (GRID_SIZE - 1)%nat with 3%nat.
  destruct (decide (j < 3)%nat) as [Hj|Hj];
    [rewrite (bool_decide_true _ Hj) | rewrite (bool_decide_false _ Hj)];
    (destruct (decide (i < 3)%nat) as [Hi'|Hi'];
     [rewrite (bool_decide_true _ Hi'); destruct (Hnext Hi') as [row' ->]
     |rewrite (bool_decide_false _ Hi')]);
    cbn; repeat case_bool_decide; done.
Qed.

Lemma isGameOver_4x4 m :
  is4x4 m →
  Val.isGameOver m = Some (negb (hasEmpty m) && negb (hasEqualNeighbours m)).
Proof.
  intros Hm. unfold Val.isGameOver.
  rewrite isGameOver_loop1 by done. cbn [mbind option_bind].
  destruct (hasEmpty m); [done|].
  rewrite isGameOver_loop2 by done. cbn [mbind option_bind].
  by destruct (hasEqualNeighbours m).
Qed.

Lemma hasEmpty_true m :
  hasEmpty m = true ↔
  ∃ i j, (i < GRID_SIZE)%nat ∧ (j < GRID_SIZE)%nat ∧ cell m i j = Some 0.
Proof.
  unfold hasEmpty. rewrite existsb_true. split.
  - intros (i & Hi%elem_of_seq_0 & (j & Hj%elem_of_seq_0 & H)%existsb_true).
    apply bool_decide_eq_true in H. eauto.
  - intros (i & j & Hi & Hj & H). exists i.
    split; [by apply elem_of_seq_0|]. apply existsb_true. exists j.
    split; [by apply elem_of_seq_0|]. by apply bool_decide_eq_true.
Qed.

Lemma hasEqualNeighbours_true m :
  hasEqualNeighbours m = true ↔
  ∃ i j, (i < GRID_SIZE)%nat ∧ (j < GRID_SIZE)%nat ∧
    ((j + 1 < GRID_SIZE)%nat ∧ cell m i j = cell m i (j + 1) ∨
     (i + 1 < GRID_SIZE)%nat ∧ cell m i j = cell m (i + 1) j).
Proof.
  unfold hasEqualNeighbours. rewrite existsb_true. split.
  - intros (i & Hi%elem_of_seq_0 & (j & Hj%elem_of_seq_0 & H)%existsb_true).
    exists i, j. split; [done|]. split; [done|].
    apply orb_true_iff in H as [H|H];
      apply andb_true_iff in H as [H1%bool_decide_eq_true H2%bool_decide_eq_true];
      [left|right]; split; (lia || done).
  - intros (i & j & Hi & Hj & H). exists i.
    split; [by apply elem_of_seq_0|]. apply existsb_true. exists j.
    split; [by apply elem_of_seq_0|]. apply orb_true_iff.
    destruct H as [[H1 H2]|[H1 H2]]; [left|right];
      apply andb_true_iff; split; apply bool_decide_eq_true; (lia || done).
Qed.

(** ** Mass, tile values and scores of the moves *)

Lemma sumAll_cons row m : sumAll (row :: m) = sumZ row + sumAll m.
Proof. done. Qed.

Lemma moveLeft_sum m : sumAll (Den.moveLeft m).1 = sumAll m.
Proof.
  unfold Den.moveLeft. cbn [fst]. induction m as [|row m IH]; [done|].
  cbn [map]. by rewrite !sumAll_cons, IH, slideAndMergeLine_sum.
Qed.

Lemma moveRight_sum m : sumAll (Den.moveRight m).1 = sumAll m.
Proof.
  unfold Den.moveRight. cbn [fst]. induction m as [|row m IH]; [done|].
  cbn [map]. by rewrite !sumAll_cons, IH, sumZ_reverse,
    slideAndMergeLine_sum, sumZ_reverse.
Qed.

Lemma moveOf_sum direction dmove m m' s :
  Den.moveOf direction = Some dmove → is4x4 m → dmove m = Some (m', s) →
  sumAll m' = sumAll m.
Proof.
  unfold Den.moveOf. intros Hd Hm Hdm. repeat case_decide; simplify_eq.
  - apply bind_Some in Hdm as (t & Ht & Hdm).
    apply bind_Some in Hdm as (r & Hr & [= <- <-]).
    destruct (transpose_4x4 m Hm) as (t' & Ht' & Ht4 & _ & Hsum & _).
    assert (t' = t) as -> by congruence.
    destruct (transpose_4x4 _ (moveLeft_4x4 t Ht4))
      as (r' & Hr' & _ & _ & Hsum' & _).
    assert (r' = r) as -> by congruence.
    by rewrite Hsum', moveLeft_sum.
  - apply bind_Some in Hdm as (t & Ht & Hdm).
    apply bind_Some in Hdm as (r & Hr & [= <- <-]).
    destruct (transpose_4x4 m Hm) as (t' & Ht' & Ht4 & _ & Hsum & _).
    assert (t' = t) as -> by congruence.
    destruct (transpose_4x4 _ (moveRight_4x4 t Ht4))
      as (r' & Hr' & _ & _ & Hsum' & _).
    assert (r' = r) as -> by congruence.
    by rewrite Hsum', moveRight_sum.
  - assert (m' = (Den.moveLeft m).1) as -> by by rewrite Hdm.
    apply moveLeft_sum.
  - assert (m' = (Den.moveRight m).1) as -> by by rewrite Hdm.
    apply moveRight_sum.
Qed.

Lemma mergePass_tiles l : Forall isTile l → Forall isTile (mergePass l).1.
Proof.
  induction l as [|a|a rest IH|a b rest Hne IH] using mergePass_ind';
    intros Hl; [done..| |].
  - rewrite mergePass_merge. cbn [fst]. inv Hl. inv H2.
    constructor; [by apply isTile_double|].
    constructor; [apply isTile_0 | by apply IH].
  - rewrite mergePass_skip by done. cbn [fst]. inv Hl.
    constructor; [done | by apply IH].
Qed.

Lemma nonZero_tiles l : Forall isTile l → Forall isTile (nonZero l).
Proof.
  rewrite !Forall_forall. intros Hl v Hv. apply Hl.
  by apply list_elem_of_filter in Hv as [_ ?].
Qed.

Lemma padTo_tiles n l : Forall isTile l → Forall isTile (padTo n l).
Proof.
  intros Hl. apply Forall_app. split; [done|].
  apply Forall_replicate, isTile_0.
Qed.

Lemma slideAndMergeLine_tiles xs :
  Forall isTile xs → Forall isTile (slideAndMergeLine xs).1.
Proof.
  intros Hxs. rewrite slideAndMergeLine_fst.
  by apply padTo_tiles, nonZero_tiles, mergePass_tiles, nonZero_tiles.
Qed.

Lemma moveLeft_tiles m : allTiles m → allTiles (Den.moveLeft m).1.
Proof.
  intros Hm. apply Forall_map. eapply Forall_impl; [exact Hm|].
  intros row Hrow. by apply slideAndMergeLine_tiles.
Qed.

Lemma moveRight_tiles m : allTiles m → allTiles (Den.moveRight m).1.
Proof.
  intros Hm. apply Forall_map. eapply Forall_impl; [exact Hm|].
  intros row Hrow. cbn beta.
  by apply Forall_reverse, slideAndMergeLine_tiles, Forall_reverse.
Qed.

Lemma moveOf_tiles direction dmove m m' s :
  Den.moveOf direction = Some dmove → is4x4 m → dmove m = Some (m', s) →
  allTiles m → allTiles m'.
Proof.
  unfold Den.moveOf. intros Hd Hm Hdm Htiles.
  repeat case_decide; simplify_eq.
  - apply bind_Some in Hdm as (t & Ht & Hdm).
    apply bind_Some in Hdm as (r & Hr & [= <- <-]).
    destruct (transpose_4x4 m Hm) as (t' & Ht' & Ht4 & _ & _ & Htl).
    assert (t' = t) as -> by congruence.
    destruct (transpose_4x4 _ (moveLeft_4x4 t Ht4))
      as (r' & Hr' & _ & _ & _ & Htl').
    assert (r' = r) as -> by congruence.
    by apply Htl', moveLeft_tiles, Htl.
  - apply bind_Some in Hdm as (t & Ht & Hdm).
    apply bind_Some in Hdm as (r & Hr & [= <- <-]).
    destruct (transpose_4x4 m Hm) as (t' & Ht' & Ht4 & _ & _ & Htl).
    assert (t' = t) as -> by congruence.
    destruct (transpose_4x4 _ (moveRight_4x4 t Ht4))
      as (r' & Hr' & _ & _ & _ & Htl').
    assert (r' = r) as -> by congruence.
    by apply Htl', moveRight_tiles, Htl.
  - assert (m' = (Den.moveLeft m).1) as -> by by rewrite Hdm.
    by apply moveLeft_tiles.
  - assert (m' = (Den.moveRight m).1) as -> by by rewrite Hdm.
    by apply moveRight_tiles.
Qed.

(** A move that gives the board back scores nothing. *)
Lemma moveLeft_unchanged m : (Den.moveLeft m).1 = m → (Den.moveLeft m).2 = 0.
Proof.
  unfold Den.moveLeft. cbn [fst snd]. induction m as [|row m IH]; [done|].
  cbn [map]. intros [= Hrow Hm]. unfold sumZ in *. cbn [foldr].
  rewrite IH by done. by rewrite slideAndMergeLine_unchanged.
Qed.

Lemma moveRight_unchanged m :
  (Den.moveRight m).1 = m → (Den.moveRight m).2 = 0.
Proof.
  unfold Den.moveRight. cbn [fst snd]. induction m as [|row m IH]; [done|].
  cbn [map]. intros [= Hrow Hm]. unfold sumZ in *. cbn [foldr].
  rewrite IH by done. rewrite slideAndMergeLine_unchanged; [done|].
  rewrite <-Hrow at 2. by rewrite reverse_involutive.
Qed.

Lemma moveOf_unchanged direction dmove m s :
  Den.moveOf direction = Some dmove → is4x4 m → dmove m = Some (m, s) →
  s = 0.
Proof.
  unfold Den.moveOf. intros Hd Hm Hdm. repeat case_decide; simplify_eq.
  - apply bind_Some in Hdm as (t & Ht & Hdm).
    apply bind_Some in Hdm as (r & Hr & [= -> <-]).
    destruct (transpose_4x4 m Hm) as (t' & Ht' & Ht4 & Hinv & _).
    assert (t' = t) as -> by congruence.
    destruct (transpose_4x4 _ (moveLeft_4x4 t Ht4)) as (r' & Hr' & _ & Hinv' & _).
    assert (r' = m) as -> by congruence.
    apply moveLeft_unchanged. congruence.
  - apply bind_Some in Hdm as (t & Ht & Hdm).
    apply bind_Some in Hdm as (r & Hr & [= -> <-]).
    destruct (transpose_4x4 m Hm) as (t' & Ht' & Ht4 & Hinv & _).
    assert (t' = t) as -> by congruence.
    destruct (transpose_4x4 _ (moveRight_4x4 t Ht4)) as (r' & Hr' & _ & Hinv' & _).
    assert (r' = m) as -> by congruence.
    apply moveRight_unchanged. congruence.
  - assert (s = (Den.moveLeft m).2) as -> by by rewrite Hdm.
    apply moveLeft_unchanged. by rewrite Hdm.
  - assert (s = (Den.moveRight m).2) as -> by by rewrite Hdm.
    apply moveRight_unchanged. by rewrite Hdm.
Qed.

(** ** Writing one cell *)

Lemma setAt_4x4 x y v m : is4x4 m → is4x4 (Den.setAt x y v m).
Proof.
  intros [Hlen Hrows]. unfold Den.setAt. split.
  - by rewrite length_alter.
  - apply Forall_alter; [done|]. intros row _ Hrow.
    by rewrite length_insert.
Qed.

Lemma setAt_tiles x y v m :
  isTile v → allTiles m → allTiles (Den.setAt x y v m).
Proof.
  intros Hv Hm. unfold Den.setAt. apply Forall_alter; [done|].
  intros row _ Hrow. by apply Forall_insert.
Qed.

Lemma sumZ_insert row y old v :
  row !! y = Some old → sumZ (<[y := v]> row) = sumZ row - old + v.
Proof.
  unfold sumZ. revert y. induction row as [|a row IH]; intros [|y] Hy;
    try done.
  - injection Hy as ->. cbn. lia.
  - change (<[S y := v]> (a :: row)) with (a :: <[y := v]> row).
    cbn [foldr]. rewrite (IH y) by done. lia.
Qed.

Lemma setAt_sum x y v m :
  cell m x y = Some 0 → sumAll (Den.setAt x y v m) = sumAll m + v.
Proof.
  unfold cell, Den.setAt. revert x.
  induction m as [|row m IH]; intros [|x] Hc; try done; cbn in Hc.
  - cbn [alter list_alter]. rewrite !sumAll_cons.
    rewrite (sumZ_insert _ _ 0) by done. lia.
  - cbn [alter list_alter]. rewrite !sumAll_cons.
    change (list_alter ?f x m) with (alter f x m).
    rewrite IH by done. lia.
Qed.

Lemma cell_setAt x y v m i j :
  cell (Den.setAt x y v m) i j =
  if decide (i = x ∧ j = y ∧ is_Some (cell m x y)) then Some v
  else cell m i j.
Proof.
  unfold cell, Den.setAt.
  destruct (decide (i = x)) as [->|Hi].
  - rewrite list_lookup_alter_eq.
    destruct (m !! x) as [row|] eqn:Hrow; cbn.
    + destruct (decide (j = y)) as [->|Hj].
      * destruct (row !! y) as [old|] eqn:Hold.
        -- rewrite decide_True by eauto.
           apply list_lookup_insert_eq. by eapply lookup_lt_Some.
        -- rewrite decide_False by (intros (_ & _ & []); done).
           rewrite list_insert_ge; [done|]. by apply lookup_ge_None.
      * rewrite decide_False by tauto.
        by rewrite list_lookup_insert_ne.
    + rewrite decide_False; [done|]. by intros (_ & _ & []).
  - rewrite decide_False by tauto. by rewrite list_lookup_alter_ne.
Qed.

Lemma cell_emptyCells m x y :
  (x, y) ∈ Val.emptyCells m ↔ cell m x y = Some 0.
Proof.
  rewrite elem_of_emptyCells. unfold cell. split.
  - intros (row & -> & Hy). done.
  - intros (row & Hrow & Hy)%bind_Some. eauto.
Qed.

Lemma is4x4_cell_range m i j v :
  is4x4 m → cell m i j = Some v → (i < GRID_SIZE)%nat ∧ (j < GRID_SIZE)%nat.
Proof.
  intros [Hlen Hrows] (row & Hrow & Hj)%bind_Some.
  apply lookup_lt_Some in Hrow as Hi. apply lookup_lt_Some in Hj as Hj'.
  rewrite Forall_forall in Hrows.
  rewrite (Hrows row) in Hj' by by eapply list_elem_of_lookup_2. lia.
Qed.

Lemma newBoardAt_proper (h h' : heap) b m :
  newBoardAt h h' b m → properBoardAt h' b m.
Proof. intros (rows & ? & ? & ? & _). by exists rows. Qed.

Lemma properBoardAt_boardAt (h : heap) b m :
  properBoardAt h b m → boardAt h b m.
Proof. intros (rows & ? & ? & _). by exists rows. Qed.

Lemma Den_addRandomTile_cases u1 u2 m :
  unit01 u1 →
  ∃ m', Den.addRandomTile u1 u2 m = Some m' ∧
    (Val.emptyCells m = [] ∧ m' = m ∨
     Val.emptyCells m ≠ [] ∧
     ∃ x y, lookupZ (Val.emptyCells m)
              (floorMul u1 (length (Val.emptyCells m))) = Some (x, y) ∧
            cell m x y = Some 0 ∧ m' = Den.setAt x y (tileValue u2) m).
Proof.
  intros [H0 H1]. unfold Den.addRandomTile. cbn zeta.
  destruct (Val.emptyCells m) as [|c cells] eqn:Hcells.
  - exists m. split; [done|]. by left.
  - rewrite decide_False by done.
    destruct (lookupZ_floorMul (c :: cells) u1 H0 H1) as [[x y] Hxy]; [done|].
    rewrite Hxy. cbn. eexists. split; [done|]. right. split; [done|].
    exists x, y. split_and!; [done| |done].
    apply cell_emptyCells. rewrite Hcells. by eapply lookupZ_elem_of.
Qed.

Lemma Den_addRandomTile_4x4 u1 u2 m m' :
  Den.addRandomTile u1 u2 m = Some m' → is4x4 m → is4x4 m'.
Proof.
  unfold Den.addRandomTile. cbn zeta. case_decide; [by intros [= <-]|].
  intros ([x y] & _ & [= <-])%bind_Some. apply setAt_4x4.
Qed.

Lemma Den_addRandomTile_tiles u1 u2 m m' :
  Den.addRandomTile u1 u2 m = Some m' → allTiles m → allTiles m'.
Proof.
  unfold Den.addRandomTile. cbn zeta. case_decide; [by intros [= <-]|].
  intros ([x y] & _ & [= <-])%bind_Some. apply setAt_tiles, isTile_tileValue.
Qed.

(** On a board allocated after [h0], the spawner leaves the arrays of
    [h0] alone. *)
Lemma addRandomTile_new_spec u1 u2 b m (h0 h : heap) :
  h0 ⊆ h → newBoardAt h0 h b m → unit01 u1 →
  post (addRandomTile u1 u2 b) h (λ b' h',
    (h0 ⊆ h') ∧
    ∃ m', Den.addRandomTile u1 u2 m = Some m' ∧ newBoardAt h0 h' b' m').
Proof.
  intros Hsub Hnew Hu.
  destruct (Den_addRandomTile_cases u1 u2 m Hu)
    as (m' & Hm' & [[Hfull ->]|(Hne & x & y & Hxy & Hcell & ->)]).
  - eapply post_mono.
    { eapply addRandomTile_full_spec; [|done]. by eapply newBoardAt_boardAt. }
    intros b' h' [-> ->]. eauto.
  - destruct Hnew as (rows & Hb & Hrows & Hnd & Hfb & Hfr).
    eapply post_mono.
    { eapply (addRandomTile_spawn_spec u1 u2 b rows m x y); [done..| |done|done].
      intros i rx Hx Hi. by eapply NoDup_lookup. }
    intros b' h' (rx & xs & Hrx & Hh & _ & Hsub' & _ & Hnew').
    assert (Hfresh : h0 !! rx = None).
    { apply not_elem_of_dom. rewrite Forall_forall in Hfr.
      by eapply Hfr, list_elem_of_lookup_2. }
    split.
    + etrans; [|exact Hsub']. by apply insert_subseteq_r.
    + eexists. split; [done|]. eapply newBoardAt_dom; [|exact Hnew'].
      by apply subseteq_dom.
Qed.

Lemma zeroRows_spec (h : heap) :
  post (mapM (λ _ : nat, alloc (Row (replicate GRID_SIZE 0)))
          (seq 0 GRID_SIZE)) h (λ rows h',
    (h ⊆ h') ∧
    rowsAt h' rows (replicate GRID_SIZE (replicate GRID_SIZE 0)) ∧
    NoDup rows ∧ Forall (λ r, r ∉ dom h) rows).
Proof.
  pose proof (mapM_allocRows (λ _ : nat, mret (replicate GRID_SIZE 0))
    (λ _ xs, xs = replicate GRID_SIZE 0) h) as Halloc.
  refine (Halloc _ (seq 0 GRID_SIZE)
            (replicate GRID_SIZE (replicate GRID_SIZE 0)) h _ _).
  - intros h1 _ xs _ ->. by apply post_ret.
  - done.
  - by repeat constructor.
Qed.

Lemma getInitialBoard_spec u1 u2 u3 u4 (h : heap) :
  unit01 u1 → unit01 u3 →
  post (getInitialBoard u1 u2 u3 u4) h (λ b h',
    (h ⊆ h') ∧ ∃ m, newBoardAt h h' b m ∧ is4x4 m ∧ allTiles m).
Proof.
  intros Hu1 Hu3. unfold getInitialBoard.
  apply post_bind. eapply post_mono; [apply zeroRows_spec|].
  intros rows h1 (Hsub1 & Hrows & Hnd & Hfr).
  apply post_bind. eapply post_mono; [by apply (post_allocMat h)|].
  intros board h2 [Hsub2 Hnew2].
  assert (Hsub02 : h ⊆ h2) by by etrans.
  apply post_bind. eapply post_mono;
    [by eapply (addRandomTile_new_spec u1 u2 _ _ h)|].
  intros b1 h3 (Hsub3 & m1 & Hm1 & Hnew3).
  eapply post_mono; [by eapply (addRandomTile_new_spec u3 u4 _ _ h)|].
  intros b2 h4 (Hsub4 & m2 & Hm2 & Hnew4).
  split; [done|]. exists m2. split; [done|].
  assert (H0 : is4x4 (replicate GRID_SIZE (replicate GRID_SIZE 0))
               ∧ allTiles (replicate GRID_SIZE (replicate GRID_SIZE 0))).
  { split; [apply is4x4_intro|].
    apply Forall_replicate, Forall_replicate, isTile_0. }
  destruct H0 as [H4 Ht]. split.
  - eapply Den_addRandomTile_4x4; [exact Hm2|].
    by eapply Den_addRandomTile_4x4.
  - eapply Den_addRandomTile_tiles; [exact Hm2|].
    by eapply Den_addRandomTile_tiles.
Qed.

Lemma handleMove_spec direction u1 u2 st m (h : heap) :
  boardAt h (board st) m → is4x4 m → unit01 u1 →
  post (handleMove direction u1 u2 st) h (λ st' h',
    (h ⊆ h') ∧
    (st' = st ∨ gameOver st = false ∧ accepted direction u1 u2 m h h' st st')).
Proof.
  intros Hb Hm Hu. unfold handleMove.
  destruct (gameOver st) eqn:Hover; [apply post_ret; auto|].
  destruct (moveOf direction) as [move|] eqn:Hmove; [|apply post_ret; auto].
  destruct (moveOf_Den _ _ Hmove) as [dmove Hdmove].
  destruct (moveOf_4x4 _ _ m Hdmove Hm) as (m1 & s & Hdm & Hm1).
  apply post_bind. eapply post_mono; [by eapply move_spec|].
  intros [newBoard totalScore] h1 (Hsub1 & Hnew1 & ->).
  apply post_bind. eapply post_mono.
  { eapply arraysEqual_spec.
    - by eapply boardAt_weaken.
    - by eapply newBoardAt_boardAt.
    - by apply arraysEqual_4x4. }
  intros same h1' [-> ->]. case_bool_decide as Hsame; cbn [negb].
  { apply post_ret. auto. }
  apply post_bind. eapply post_mono;
    [by eapply (addRandomTile_new_spec u1 u2 _ _ h)|].
  intros boardWithNewTile h2 (Hsub2 & m2 & Hm2 & Hnew2).
  assert (Hm2' : is4x4 m2) by by eapply Den_addRandomTile_4x4.
  apply post_bind. eapply post_mono.
  { eapply isGameOver_spec; [by eapply newBoardAt_boardAt|].
    by apply isGameOver_4x4. }
  intros over h2' [-> ->]. apply post_ret. split; [done|]. right.
  split; [done|]. exists dmove, m1, s, m2.
  rewrite (isGameOver_4x4 m2) by done.
  assert (m1 ≠ m) by congruence.
  destruct (negb (hasEmpty m2) && negb (hasEqualNeighbours m2)),
    (decide (score st + s > bestScore st));
    cbn; rewrite ?Hover; split_and!; try done; lia.
Qed.

Lemma newGame_spec u1 u2 u3 u4 st (h : heap) :
  unit01 u1 → unit01 u3 →
  post (newGame u1 u2 u3 u4 st) h (λ st' h',
    (h ⊆ h') ∧ wfState h' st' ∧ score st' = 0 ∧
    bestScore st' = bestScore st ∧ gameOver st' = false ∧
    gameStarted st' = gameStarted st).
Proof.
  intros Hu1 Hu3. unfold newGame.
  apply post_bind. eapply post_mono; [by apply getInitialBoard_spec|].
  intros b h' (Hsub & m & Hnew & Hm & _). apply post_ret.
  split_and!; try done. exists m. split; [|done].
  by eapply newBoardAt_boardAt.
Qed.

Lemma handle_spec e st (h : heap) :
  wfState h st → validEvent e →
  post (handle e st) h (λ st' h',
    (h ⊆ h') ∧ wfState h' st' ∧ bestScore st ≤ bestScore st' ∧
    match e with
    | Key _ _ _ =>
      st' = st ∨ bestScore st' = Z.max (bestScore st) (score st')
    | NewGameButton _ _ _ _ | RestartButton _ _ _ _ =>
      score st' = 0 ∧ bestScore st' = bestScore st
    | PlayButton => score st' = score st ∧ bestScore st' = bestScore st
    end).
Proof.
  intros (m & Hb & Hm) Hv. destruct e as [d u1 u2|u1 u2 u3 u4|u1 u2 u3 u4|];
    cbn [handle validEvent] in *.
  - eapply post_mono; [by eapply handleMove_spec|].
    intros st' h' (Hsub & [->|[_ Hacc]]).
    + split_and!; [done| |lia|by left]. exists m. split; [|done].
      by eapply boardAt_weaken.
    + destruct Hacc as (dm & m1 & s & m2 & _ & _ & _ & _ & Hnew & Hm2 &
                        _ & Hbest & _).
      split_and!; [done| |lia|by right]. exists m2. split; [|done].
      by eapply newBoardAt_boardAt.
  - destruct Hv as [Hu1 Hu3].
    apply post_bind. eapply post_mono; [by apply newGame_spec|].
    intros st' h' (Hsub & Hwf & Hscore & Hbest & _). apply post_ret.
    split_and!; [done|done|cbn; lia|done|done].
  - destruct Hv as [Hu1 Hu3].
    eapply post_mono; [by apply newGame_spec|].
    intros st' h' (Hsub & Hwf & Hscore & Hbest & _).
    split_and!; [done|done|lia|done|done].
  - apply post_ret. split_and!; [done| |done..]. by exists m.
Qed.

Lemma handleAll_spec es st (h : heap) :
  wfState h st → Forall validEvent es →
  post (handleAll es st) h (λ st' h',
    (h ⊆ h') ∧ wfState h' st' ∧ bestScore st ≤ bestScore st').
Proof.
  intros Hwf Hes. revert st h Hwf.
  induction Hes as [|e es He _ IH]; intros st h Hwf.
  - apply post_ret. split_and!; [done..|lia].
  - cbn [handleAll]. apply post_bind. eapply post_mono;
      [by apply handle_spec|].
    intros st1 h1 (Hsub1 & Hwf1 & Hbest1 & _).
    eapply post_mono; [by apply IH|].
    intros st2 h2 (Hsub2 & Hwf2 & Hbest2).
    split_and!; [by etrans|done|lia].
Qed.

Lemma initialState_spec u1 u2 u3 u4 (h : heap) :
  unit01 u1 → unit01 u3 →
  post (initialState u1 u2 u3 u4) h (λ st h',
    (h ⊆ h') ∧ wfState h' st ∧ score st = 0 ∧ bestScore st = 0 ∧
    gameOver st = false ∧ gameStarted st = false).
Proof.
  intros Hu1 Hu3. unfold initialState.
  apply post_bind. eapply post_mono; [by apply getInitialBoard_spec|].
  intros b h' (Hsub & m & Hnew & Hm & _). apply post_ret.
  split_and!; try done. exists m. split; [|done].
  by eapply newBoardAt_boardAt.
Qed.

Lemma addRandomTile_proper_spec u1 u2 b m (h : heap) :
  properBoardAt h b m → unit01 u1 →
  post (addRandomTile u1 u2 b) h (λ b' h',
    Val.emptyCells m = [] ∧ b' = b ∧ h' = h ∨
    ∃ x y rows rx xs,
      cell m x y = Some 0 ∧
      h !! b = Some (Mat rows) ∧ rows !! x = Some rx ∧
      h !! rx = Some (Row xs) ∧
      (<[rx := Row (<[y := tileValue u2]> xs)]> h ⊆ h') ∧
      boardAt h' b (Den.setAt x y (tileValue u2) m) ∧
      newBoardAt h h' b' (Den.setAt x y (tileValue u2) m)).
Proof.
  intros (rows & Hb & Hrows & Hnd) Hu.
  destruct (Den_addRandomTile_cases u1 u2 m Hu)
    as (m' & Hm' & [[Hfull ->]|(Hne & x & y & Hxy & Hcell & ->)]).
  - eapply post_mono.
    { eapply addRandomTile_full_spec; [|done]. by exists rows. }
    intros b' h' [-> ->]. by left.
  - eapply post_mono.
    { eapply (addRandomTile_spawn_spec u1 u2 b rows m x y); [done..| |done|done].
      intros i rx Hx Hi. by eapply NoDup_lookup. }
    intros b' h' (rx & xs & Hrx & Hh & _ & Hsub' & Hold & Hnew').
    right. by exists x, y, rows, rx, xs.
Qed.

(** * The properties of the specification *)

(** C2. [moveRowLeft] computes the line primitive of the
    specification: on a row holding [xs] it returns a row holding the
    first component of [slideAndMergeLine xs] (compact, one merge pass
    without cascading, compact again, pad to length 4) and the score of
    the pass; in particular [2,2,2,2] gives ([4,4,0,0], 8), [2,0,2,2]
    gives ([4,2,0,0], 4) and [4,4,4,4] gives ([8,8,0,0], 16). *)
Theorem moveRowLeft_slideAndMergeLine (h : heap) row xs :
  h !! row = Some (Row xs) →
  post (moveRowLeft row) h (λ '(newRow, score) h',
    h' !! newRow = Some (Row (slideAndMergeLine xs).1) ∧
    score = (slideAndMergeLine xs).2 ∧
    (xs = [2; 2; 2; 2] →
       h' !! newRow = Some (Row [4; 4; 0; 0]) ∧ score = 8) ∧
    (xs = [2; 0; 2; 2] →
       h' !! newRow = Some (Row [4; 2; 0; 0]) ∧ score = 4) ∧
    (xs = [4; 4; 4; 4] →
       h' !! newRow = Some (Row [8; 8; 0; 0]) ∧ score = 16)).
Proof.
  intros Hrow. eapply post_mono; [by apply moveRowLeft_spec|].
  intros [newRow score] h' (_ & _ & Hnew & ->).
  split_and!; [done|done|..]; by intros ->.
Qed.

Lemma moveRowLeft_slideAndMergeLine_witness :
  ({[0%nat := Row [2; 0; 2; 2]]} : heap) !! 0%nat = Some (Row [2; 0; 2; 2]) ∧
  post (moveRowLeft 0%nat) {[0%nat := Row [2; 0; 2; 2]]}
    (λ '(newRow, score) h',
       h' !! newRow = Some (Row [4; 2; 0; 0]) ∧ score = 4).
Proof.
  split; [reflexivity|].
  eapply post_mono.
  - apply (moveRowLeft_slideAndMergeLine _ 0%nat [2; 0; 2; 2]). reflexivity.
  - intros [newRow score] h' (_ & _ & _ & H & _). by apply H.
Defined.

(** ** Empty cells, said on the cells *)

(** The array [emptyCells] is empty exactly when no cell of the board
    is 0. *)
Lemma emptyCells_nil m :
  Val.emptyCells m = [] ↔ ∀ i j, cell m i j ≠ Some 0.
Proof.
  split.
  - intros Hnil i j Hc%cell_emptyCells. rewrite Hnil in Hc.
    by apply elem_of_nil in Hc.
  - intros Hall. apply elem_of_nil_inv.
    intros [i j] Hin%cell_emptyCells. by apply (Hall i j).
Qed.

(** The two cases of [addRandomTile], by the cells of the board. *)
Lemma addRandomTile_cells_spec u1 u2 b m (h : heap) :
  properBoardAt h b m → unit01 u1 →
  post (addRandomTile u1 u2 b) h (λ b' h',
    ((∀ i j, cell m i j ≠ Some 0) → b' = b ∧ h' = h) ∧
    ((∃ i j, cell m i j = Some 0) →
       ∃ x y, cell m x y = Some 0 ∧
         boardAt h' b (Den.setAt x y (tileValue u2) m) ∧
         newBoardAt h h' b' (Den.setAt x y (tileValue u2) m))).
Proof.
  intros Hb Hu. eapply post_mono; [by apply addRandomTile_proper_spec|].
  intros b' h' [(Hfull & -> & ->)|
                (x & y & rows & rx & xs & Hcell & _ & _ & _ & _ & Hold & Hnew)].
  - split; [done|]. intros (i & j & Hc).
    by destruct (proj1 (emptyCells_nil m) Hfull i j).
  - split.
    + intros Hall. by destruct (Hall x y).
    + intros _. by exists x, y.
Qed.

Lemma setAt_changes x y v m :
  cell m x y = Some 0 → v ≠ 0 → Den.setAt x y v m ≠ m.
Proof.
  intros Hcell Hv Heq. pose proof (cell_setAt x y v m x y) as Hc.
  rewrite Heq, Hcell, decide_True in Hc by eauto. congruence.
Qed.

Lemma tileValue_nonzero u : tileValue u ≠ 0.
Proof. destruct (tileValue_cases u) as [-> | ->]; done. Qed.

(** C3. Mass invariant.  The row returned by [moveRowLeft] has the sum
    of the row it was given; each of the four moves returns a board
    with the total of the board it was given; [addRandomTile] returns
    a board whose total is that of its argument plus the spawned value,
    2 or 4, when some cell of the board is 0, and the same total when
    no cell is 0. *)
Theorem mass_invariant (h : heap) b m row xs direction move u1 u2 :
  properBoardAt h b m → is4x4 m → h !! row = Some (Row xs) →
  moveOf direction = Some move → unit01 u1 →
  post (moveRowLeft row) h (λ '(newRow, _) h',
    ∃ ys, h' !! newRow = Some (Row ys) ∧ sumZ ys = sumZ xs) ∧
  post (move b) h (λ '(newBoard, _) h',
    ∃ m', boardAt h' newBoard m' ∧ sumAll m' = sumAll m) ∧
  post (addRandomTile u1 u2 b) h (λ b' h',
    ∃ m', boardAt h' b' m' ∧
      ((∀ i j, cell m i j ≠ Some 0) → sumAll m' = sumAll m) ∧
      ((∃ i j, cell m i j = Some 0) →
         sumAll m' = sumAll m + tileValue u2 ∧
         (tileValue u2 = 2 ∨ tileValue u2 = 4))).
Proof.
  intros Hb Hm Hrow Hmove Hu. split_and!.
  - eapply post_mono; [by apply moveRowLeft_spec|].
    intros [newRow score] h' (_ & _ & Hnew & _).
    eexists. split; [done|]. apply slideAndMergeLine_sum.
  - destruct (moveOf_Den _ _ Hmove) as [dmove Hdmove].
    destruct (moveOf_4x4 _ _ m Hdmove Hm) as (m1 & s & Hdm & Hm1).
    eapply post_mono.
    { eapply move_spec; [done..|by apply properBoardAt_boardAt|done]. }
    intros [newBoard totalScore] h' (_ & Hnew & _).
    exists m1. split; [by eapply newBoardAt_boardAt|].
    by eapply moveOf_sum.
  - eapply post_mono; [by apply addRandomTile_proper_spec|].
    intros b' h' [(Hfull & -> & ->)|
                  (x & y & rows & rx & xs' & Hcell & _ & _ & _ & _ & _ & Hnew)].
    + exists m. split; [by apply properBoardAt_boardAt|]. split; [done|].
      intros (i & j & Hc). by destruct (proj1 (emptyCells_nil m) Hfull i j).
    + eexists. split; [by eapply newBoardAt_boardAt|]. split.
      * intros Hall. by destruct (Hall x y).
      * intros _. split; [by apply setAt_sum | apply tileValue_cases].
Qed.

Lemma sample_proper : properBoardAt sampleHeap 4%nat sampleBoard.
Proof.
  exists [0; 1; 2; 3]%nat. split_and!.
  - reflexivity.
  - by repeat constructor.
  - apply (bool_decide_unpack _). by vm_compute.
Qed.

Lemma sample_4x4 : is4x4 sampleBoard.
Proof. apply is4x4_intro. Qed.

Lemma unit01_0 : unit01 0.
Proof. by split. Qed.

Lemma mass_invariant_witness :
  properBoardAt sampleHeap 4%nat sampleBoard ∧
  post (moveUp 4%nat) sampleHeap (λ '(newBoard, _) h',
    ∃ m', boardAt h' newBoard m' ∧ sumAll m' = sumAll sampleBoard) ∧
  post (addRandomTile 0 0 4%nat) sampleHeap (λ b' h',
    ∃ m', boardAt h' b' m' ∧ sumAll m' = sumAll sampleBoard + 2).
Proof.
  split; [exact sample_proper|].
  assert (Hrow : sampleHeap !! 0%nat = Some (Row [2; 2; 0; 0]))
    by reflexivity.
  destruct (mass_invariant sampleHeap 4%nat sampleBoard 0%nat
              [2; 2; 0; 0] "up" moveUp 0 0 sample_proper sample_4x4 Hrow
              eq_refl unit01_0) as (_ & Hmove & Hspawn).
  split; [exact Hmove|]. eapply post_mono; [exact Hspawn|].
  intros b' h' (m' & Hb' & _ & Hgrow). exists m'. split; [done|].
  apply Hgrow. by exists 0%nat, 2%nat.
Defined.

(** C1 (as amended).  The four moves do not write to the board they
    receive: every array of the store holds after the call what it
    held before, and the returned board and its rows are new arrays.
    [addRandomTile] is different.  When some cell of the board is 0 it
    writes the spawned value, 2 or 4, into one of the cells that are
    0, in place: the board it was given no longer holds what it held,
    that cell now has the value and every other cell is as before;
    and it returns a new copy of the board so modified, which is not
    the array it was given.  When no cell is 0 it returns the board it
    received, the same array, and the store is unchanged. *)
Theorem moves_pure_spawn_in_place (h : heap) b m direction move u1 u2 :
  properBoardAt h b m → is4x4 m → moveOf direction = Some move →
  unit01 u1 →
  post (move b) h (λ '(newBoard, _) h',
    (h ⊆ h') ∧ boardAt h' b m ∧ ∃ m', newBoardAt h h' newBoard m') ∧
  post (addRandomTile u1 u2 b) h (λ b' h',
    ((∀ i j, cell m i j ≠ Some 0) → b' = b ∧ h' = h) ∧
    ((∃ i j, cell m i j = Some 0) →
       ∃ x y m', cell m x y = Some 0 ∧
         boardAt h' b m' ∧ ¬ boardAt h' b m ∧
         cell m' x y = Some (tileValue u2) ∧
         (tileValue u2 = 2 ∨ tileValue u2 = 4) ∧
         (∀ i j, (i, j) ≠ (x, y) → cell m' i j = cell m i j) ∧
         m' = Den.setAt x y (tileValue u2) m ∧
         newBoardAt h h' b' m' ∧ b' ≠ b)).
Proof.
  intros Hb Hm Hmove Hu. split.
  - destruct (moveOf_Den _ _ Hmove) as [dmove Hdmove].
    destruct (moveOf_4x4 _ _ m Hdmove Hm) as (m1 & s & Hdm & Hm1).
    eapply post_mono.
    { eapply move_spec; [done..|by apply properBoardAt_boardAt|done]. }
    intros [newBoard totalScore] h' (Hsub & Hnew & _).
    split_and!; [done| |by exists m1].
    eapply boardAt_weaken; [done|]. by apply properBoardAt_boardAt.
  - eapply post_mono; [by apply addRandomTile_cells_spec|].
    intros b' h' [Hfull Hspawn]. split; [done|]. intros Hex.
    destruct (Hspawn Hex) as (x & y & Hcell & Hold & Hnew).
    pose proof (setAt_changes x y (tileValue u2) m Hcell
                  (tileValue_nonzero u2)) as Hne.
    exists x, y, (Den.setAt x y (tileValue u2) m).
    split_and!; [done..| | |apply tileValue_cases| |done|done|].
    + intros Hb'. apply Hne. by eapply boardAt_inj.
    + rewrite cell_setAt, decide_True; [done|]. by rewrite Hcell.
    + intros i j Hij. rewrite cell_setAt, decide_False; [done|].
      intros (-> & -> & _). by apply Hij.
    + intros ->. destruct Hnew as (rs & _ & _ & _ & Hfresh & _).
      destruct Hb as (rows & Hrows & _). apply Hfresh, elem_of_dom. eauto.
Qed.

Lemma moves_pure_spawn_in_place_witness :
  properBoardAt sampleHeap 4%nat sampleBoard ∧
  post (addRandomTile 0 0 4%nat) sampleHeap (λ b' h',
    ∃ x y m', cell sampleBoard x y = Some 0 ∧
      boardAt h' 4%nat m' ∧ ¬ boardAt h' 4%nat sampleBoard ∧
      cell m' x y = Some 2 ∧ newBoardAt sampleHeap h' b' m' ∧ b' ≠ 4%nat).
Proof.
  split; [exact sample_proper|].
  assert (Hmove : moveOf "left" = Some moveLeft) by reflexivity.
  eapply post_mono.
  - exact (proj2 (moves_pure_spawn_in_place sampleHeap 4%nat sampleBoard
                    "left" moveLeft 0 0 sample_proper sample_4x4 Hmove
                    unit01_0)).
  - intros b' h' [_ Hspawn].
    destruct Hspawn as (x & y & m' & Hc & Hold & Hnot & Hv & _ & _ & _ &
                        Hnew & Hne); [by exists 0%nat, 2%nat|].
    by exists x, y, m'.
Defined.

(** C1, as the specification states it, fails for [addRandomTile]:
    called on [sampleHeap]'s board with draws 0 and 0, it leaves the
    board it was given with a 2 in cell (0, 2), which was empty. *)
Lemma addRandomTile_writes_argument :
  boardAt sampleHeap 4%nat
    [[2; 2; 0; 0]; [0; 0; 0; 0]; [0; 4; 0; 4]; [0; 0; 0; 0]] ∧
  post (addRandomTile 0 0 4%nat) sampleHeap (λ _ h',
    boardAt h' 4%nat
      [[2; 2; 2; 0]; [0; 0; 0; 0]; [0; 4; 0; 4]; [0; 0; 0; 0]] ∧
    ¬ boardAt h' 4%nat
      [[2; 2; 0; 0]; [0; 0; 0; 0]; [0; 4; 0; 4]; [0; 0; 0; 0]]).
Proof.
  split; [apply properBoardAt_boardAt, sample_proper|].
  unfold post.
  set (r := addRandomTile 0 0 4%nat sampleHeap). vm_compute in r. subst r.
  cbv beta iota.
  match goal with |- ?P ∧ ¬ _ => assert (Hb : P) end.
  { exists [0; 1; 2; 3]%nat. split; [reflexivity|].
    repeat constructor; reflexivity. }
  split; [exact Hb|]. intros Hb'.
  by pose proof (boardAt_inj _ _ _ _ Hb Hb').
Qed.

(** C4. On a 4 by 4 board [isGameOver] returns, without touching the
    store, and it returns [true] exactly when no cell is 0 and no cell
    with a non-zero value has that value as its right neighbour or
    below it; it returns [false] whenever some cell is empty.  Only
    the right neighbour [(i, j+1)] and the lower neighbour [(i+1, j)]
    enter the condition, never a diagonal one. *)
Theorem isGameOver_iff (h : heap) b m :
  boardAt h b m → is4x4 m →
  post (isGameOver b) h (λ r h',
    h' = h ∧
    (r = true ↔
       (∀ i j, cell m i j ≠ Some 0) ∧
       (∀ i j v, v ≠ 0 → cell m i j = Some v →
          cell m i (j + 1) ≠ Some v ∧ cell m (i + 1) j ≠ Some v)) ∧
    ((∃ i j, cell m i j = Some 0) → r = false)).
Proof.
  intros Hb Hm. eapply post_mono.
  { eapply isGameOver_spec; [done|]. by apply isGameOver_4x4. }
  intros r h' [-> ->]. split; [done|].
  assert (Hempty : hasEmpty m = true ↔ ∃ i j, cell m i j = Some 0).
  { rewrite hasEmpty_true. split.
    - intros (i & j & _ & _ & H). eauto.
    - intros (i & j & H).
      destruct (is4x4_cell_range m i j 0 Hm H). eauto. }
  split.
  - rewrite andb_true_iff, !negb_true_iff. split.
    + intros [He Hn]. split.
      * intros i j H. assert (hasEmpty m = true) by (apply Hempty; eauto).
        congruence.
      * intros i j v Hv Hc.
        assert (¬ ∃ i j, (i < GRID_SIZE)%nat ∧ (j < GRID_SIZE)%nat ∧
          ((j + 1 < GRID_SIZE)%nat ∧ cell m i j = cell m i (j + 1) ∨
           (i + 1 < GRID_SIZE)%nat ∧ cell m i j = cell m (i + 1) j)) as Hno.
        { rewrite <-hasEqualNeighbours_true. congruence. }
        destruct (is4x4_cell_range m i j v Hm Hc) as [Hi Hj].
        split; intros Hc'; apply Hno; exists i, j;
          (split; [done|]; split; [done|]).
        -- left. split; [|congruence].
           by destruct (is4x4_cell_range m i (j + 1) v Hm Hc').
        -- right. split; [|congruence].
           by destruct (is4x4_cell_range m (i + 1) j v Hm Hc').
    + intros [Hz Hp]. split.
      * apply not_true_is_false. rewrite Hempty.
        intros (i & j & H). by eapply Hz.
      * apply not_true_is_false. rewrite hasEqualNeighbours_true.
        intros (i & j & Hi & Hj & Hadj).
        destruct (is4x4_cell m i j Hm Hi Hj) as [v Hv].
        assert (v ≠ 0) by (intros ->; by eapply Hz).
        destruct (Hp i j v ltac:(done) Hv) as [Hr Hd].
        destruct Hadj as [[_ Heq]|[_ Heq]]; congruence.
  - intros Hex. apply Hempty in Hex. by rewrite Hex.
Qed.

Lemma isGameOver_iff_witness :
  boardAt checkerHeap 4%nat checkerBoard ∧ is4x4 checkerBoard ∧
  cell checkerBoard 0 0 = cell checkerBoard 1 1 ∧
  isGameOver 4%nat checkerHeap = Some (true, checkerHeap).
Proof.
  assert (Hb : boardAt checkerHeap 4%nat checkerBoard).
  { exists [0; 1; 2; 3]%nat. split; [reflexivity|].
    repeat constructor; reflexivity. }
  split_and!; [exact Hb | apply is4x4_intro | reflexivity |].
  pose proof (isGameOver_iff checkerHeap 4%nat checkerBoard Hb
                (is4x4_intro _ _ _ _ _ _ _ _ _ _ _ _ _ _ _ _)) as H.
  apply post_run in H as (r & h' & Hrun & -> & _ & _).
  rewrite Hrun. vm_compute in Hrun. congruence.
Defined.

(** ** A move followed by the comparison of [handleMove] *)

Lemma move_compare direction move b m (h : heap) :
  boardAt h b m → is4x4 m → moveOf direction = Some move →
  ∃ dmove m1 s newBoard h1,
    Den.moveOf direction = Some dmove ∧ dmove m = Some (m1, s) ∧
    is4x4 m1 ∧
    move b h = Some ((newBoard, s), h1) ∧
    (h ⊆ h1) ∧ newBoardAt h h1 newBoard m1 ∧
    arraysEqual b newBoard h1 = Some (bool_decide (m = m1), h1).
Proof.
  intros Hb Hm Hmove.
  destruct (moveOf_Den _ _ Hmove) as [dmove Hdmove].
  destruct (moveOf_4x4 _ _ m Hdmove Hm) as (m1 & s & Hdm & Hm1).
  pose proof (move_spec _ _ _ _ _ _ _ h Hmove Hdmove Hb Hdm) as Hrun.
  apply post_run in Hrun as ([newBoard s'] & h1 & Hrun & Hsub & Hnew & ->).
  exists dmove, m1, s, newBoard, h1. split_and!; try done.
  pose proof (arraysEqual_spec b newBoard m m1 (bool_decide (m = m1)) h1)
    as Heq.
  apply post_run in Heq as (r & h' & Heq & -> & ->); [done|..].
  - by eapply boardAt_weaken.
  - by eapply newBoardAt_boardAt.
  - by apply arraysEqual_4x4.
Qed.

Lemma differ_4x4 m m1 :
  is4x4 m → is4x4 m1 → m ≠ m1 → ∃ i j, cell m1 i j ≠ cell m i j.
Proof.
  intros Hm Hm1 Hne.
  destruct (is4x4_inv m Hm)
    as (a0&a1&a2&a3&b0&b1&b2&b3&c0&c1&c2&c3&d0&d1&d2&d3&->).
  destruct (is4x4_inv m1 Hm1)
    as (a0'&a1'&a2'&a3'&b0'&b1'&b2'&b3'&c0'&c1'&c2'&c3'&d0'&d1'&d2'&d3'&->).
  destruct (decide (a0' = a0)) as [->|]; [|exists 0%nat, 0%nat; cbn; congruence].
  destruct (decide (a1' = a1)) as [->|]; [|exists 0%nat, 1%nat; cbn; congruence].
  destruct (decide (a2' = a2)) as [->|]; [|exists 0%nat, 2%nat; cbn; congruence].
  destruct (decide (a3' = a3)) as [->|]; [|exists 0%nat, 3%nat; cbn; congruence].
  destruct (decide (b0' = b0)) as [->|]; [|exists 1%nat, 0%nat; cbn; congruence].
  destruct (decide (b1' = b1)) as [->|]; [|exists 1%nat, 1%nat; cbn; congruence].
  destruct (decide (b2' = b2)) as [->|]; [|exists 1%nat, 2%nat; cbn; congruence].
  destruct (decide (b3' = b3)) as [->|]; [|exists 1%nat, 3%nat; cbn; congruence].
  destruct (decide (c0' = c0)) as [->|]; [|exists 2%nat, 0%nat; cbn; congruence].
  destruct (decide (c1' = c1)) as [->|]; [|exists 2%nat, 1%nat; cbn; congruence].
  destruct (decide (c2' = c2)) as [->|]; [|exists 2%nat, 2%nat; cbn; congruence].
  destruct (decide (c3' = c3)) as [->|]; [|exists 2%nat, 3%nat; cbn; congruence].
  destruct (decide (d0' = d0)) as [->|]; [|exists 3%nat, 0%nat; cbn; congruence].
  destruct (decide (d1' = d1)) as [->|]; [|exists 3%nat, 1%nat; cbn; congruence].
  destruct (decide (d2' = d2)) as [->|]; [|exists 3%nat, 2%nat; cbn; congruence].
  destruct (decide (d3' = d3)) as [->|]; [|exists 3%nat, 3%nat; cbn; congruence].
  done.
Qed.

(** C5. No-op isolation.  In a game that is not over, when the move of
    the direction returns a board that [arraysEqual] finds equal to the
    current one, [handleMove] returns the state it was given (same
    board reference, score and best score), whatever the draws; the
    store it leaves is the store the move alone leaves, so that no
    tile was written and no board was copied, and the board still
    holds the same cells. *)
Theorem noop_isolation (h : heap) st m direction move u1 u2 :
  gameOver st = false → boardAt h (board st) m → is4x4 m →
  moveOf direction = Some move →
  post (move (board st)) h (λ '(newBoard, _) h1,
    post (arraysEqual (board st) newBoard) h1 (λ same _,
      same = true →
      handleMove direction u1 u2 st h = Some (st, h1) ∧
      boardAt h1 (board st) m)).
Proof.
  intros Hover Hb Hm Hmove.
  destruct (move_compare _ _ _ _ _ Hb Hm Hmove)
    as (dmove & m1 & s & newBoard & h1 & _ & _ & _ & Hrun & Hsub & _ & Heq).
  unfold post at 1. rewrite Hrun. unfold post. rewrite Heq.
  intros Hsame. split; [|by eapply boardAt_weaken].
  unfold handleMove. rewrite Hover, Hmove.
  unfold mbind, M_bind. rewrite Hrun, Heq, Hsame. done.
Qed.

(** C6. No-op stability.  When a move returns a board that
    [arraysEqual] finds equal to the board it was given, calling the
    same move on the same board again returns again a board equal to
    it, with the same contents and the same score. *)
Theorem noop_stable (h : heap) b m direction move :
  boardAt h b m → is4x4 m → moveOf direction = Some move →
  post (move b) h (λ '(b1, s1) h1,
    post (arraysEqual b b1) h1 (λ same1 _,
      same1 = true →
      post (move b) h1 (λ '(b2, s2) h2,
        post (arraysEqual b b2) h2 (λ same2 _,
          same2 = true ∧ s2 = s1 ∧
          boardAt h2 b m ∧ boardAt h2 b1 m ∧ boardAt h2 b2 m)))).
Proof.
  intros Hb Hm Hmove.
  destruct (move_compare _ _ _ _ _ Hb Hm Hmove)
    as (dmove & m1 & s & b1 & h1 & Hd & Hdm & _ & Hrun & Hsub & Hnew & Heq).
  unfold post at 1. rewrite Hrun. unfold post at 1. rewrite Heq.
  intros Hsame%bool_decide_eq_true. subst m1.
  assert (Hb1 : boardAt h1 b m) by by eapply boardAt_weaken.
  destruct (move_compare _ _ _ _ _ Hb1 Hm Hmove)
    as (dmove' & m2 & s' & b2 & h2 & Hd' & Hdm' & _ & Hrun' & Hsub' &
        Hnew' & Heq').
  assert (dmove' = dmove) as -> by congruence.
  assert (m2 = m ∧ s' = s) as [-> ->] by (split; congruence).
  unfold post at 1. rewrite Hrun'. unfold post. rewrite Heq'.
  split_and!; [by apply bool_decide_eq_true|done|..].
  - by eapply boardAt_weaken.
  - eapply boardAt_weaken; [done|]. by eapply newBoardAt_boardAt.
  - by eapply newBoardAt_boardAt.
Qed.

(** C10. On a 4 by 4 board, a move that scores more than 0 returns a
    board that differs from the one it was given in some cell, and
    [arraysEqual] reports it; a move whose result [arraysEqual] finds
    equal to the board scored 0.  So the guard of [handleMove] never
    drops the points of a merge. *)
Theorem score_implies_change (h : heap) b m direction move :
  boardAt h b m → is4x4 m → moveOf direction = Some move →
  post (move b) h (λ '(newBoard, totalScore) h1,
    post (arraysEqual b newBoard) h1 (λ same _,
      (same = true → totalScore = 0) ∧
      (totalScore > 0 →
         same = false ∧
         ∃ m1, boardAt h1 newBoard m1 ∧ ∃ i j, cell m1 i j ≠ cell m i j))).
Proof.
  intros Hb Hm Hmove.
  destruct (move_compare _ _ _ _ _ Hb Hm Hmove)
    as (dmove & m1 & s & b1 & h1 & Hd & Hdm & Hm1 & Hrun & Hsub & Hnew & Heq).
  unfold post at 1. rewrite Hrun. unfold post. rewrite Heq.
  assert (Hzero : m = m1 → s = 0).
  { intros <-. by eapply moveOf_unchanged. }
  split.
  - intros Hsame%bool_decide_eq_true. auto.
  - intros Hs. assert (m ≠ m1) by (intros ->%Hzero; lia).
    split; [by apply bool_decide_eq_false|].
    exists m1. split; [by eapply newBoardAt_boardAt|].
    by apply differ_4x4.
Qed.

Lemma settled_boardAt : boardAt settledHeap 4%nat settledBoard.
Proof.
  exists [0; 1; 2; 3]%nat. split; [reflexivity|].
  repeat constructor; reflexivity.
Qed.

Lemma noop_isolation_witness :
  boardAt settledHeap 4%nat settledBoard ∧
  ∃ h1, handleMove "left" 0 0 (State true 4%nat 12 20 false) settledHeap =
        Some (State true 4%nat 12 20 false, h1) ∧
        boardAt h1 4%nat settledBoard.
Proof.
  split; [exact settled_boardAt|].
  pose proof (noop_isolation settledHeap (State true 4%nat 12 20 false)
    settledBoard "left" moveLeft 0 0 eq_refl settled_boardAt
    (is4x4_intro _ _ _ _ _ _ _ _ _ _ _ _ _ _ _ _) eq_refl) as H.
  destruct (proj1 (post_run _ _ _) H)
    as ([newBoard totalScore] & h1 & Hrun & H1).
  destruct (proj1 (post_run _ _ _) H1) as (same & h1' & Heq & H2).
  exists h1. apply H2. clear H H1 H2.
  vm_compute in Hrun. injection Hrun as <- <- <-.
  vm_compute in Heq. congruence.
Defined.

Lemma noop_stable_witness :
  boardAt settledHeap 4%nat settledBoard ∧
  post (moveLeft 4%nat) settledHeap (λ '(b1, s1) h1,
    post (arraysEqual 4%nat b1) h1 (λ same1 _,
      same1 = true →
      post (moveLeft 4%nat) h1 (λ '(b2, s2) h2,
        post (arraysEqual 4%nat b2) h2 (λ same2 _,
          same2 = true ∧ s2 = s1 ∧
          boardAt h2 4%nat settledBoard ∧ boardAt h2 b1 settledBoard ∧
          boardAt h2 b2 settledBoard)))).
Proof.
  split; [exact settled_boardAt|].
  exact (noop_stable settledHeap 4%nat settledBoard "left" moveLeft
    settled_boardAt (is4x4_intro _ _ _ _ _ _ _ _ _ _ _ _ _ _ _ _) eq_refl).
Defined.

Lemma score_implies_change_witness :
  boardAt sampleHeap 4%nat sampleBoard ∧
  post (moveLeft 4%nat) sampleHeap (λ '(newBoard, totalScore) h1,
    post (arraysEqual 4%nat newBoard) h1 (λ same _,
      (same = true → totalScore = 0) ∧
      (totalScore > 0 →
         same = false ∧
         ∃ m1, boardAt h1 newBoard m1 ∧
               ∃ i j, cell m1 i j ≠ cell sampleBoard i j))).
Proof.
  split; [exact (properBoardAt_boardAt _ _ _ sample_proper)|].
  exact (score_implies_change sampleHeap 4%nat sampleBoard "left" moveLeft
    (properBoardAt_boardAt _ _ _ sample_proper) sample_4x4 eq_refl).
Defined.

(** C7. Best score.  From the state of the first render, after any
    sequence of events the best score is at least what it was, and the
    next event, whatever it is, does not lower it: a key either leaves
    the state as it is or (accepted move) sets the best score to the
    maximum of the old best score and the new score; "New Game" and
    "Restart" set the score to 0 and keep the best score; "Play" keeps
    both. *)
Theorem bestScore_monotone (h : heap) u1 u2 u3 u4 es e :
  unit01 u1 → unit01 u3 → Forall validEvent es → validEvent e →
  post (initialState u1 u2 u3 u4) h (λ st0 h0,
    bestScore st0 = 0 ∧
    post (handleAll es st0) h0 (λ st h1,
      bestScore st0 ≤ bestScore st ∧
      post (handle e st) h1 (λ st' _,
        bestScore st ≤ bestScore st' ∧
        match e with
        | Key _ _ _ =>
          st' = st ∨ bestScore st' = Z.max (bestScore st) (score st')
        | NewGameButton _ _ _ _ | RestartButton _ _ _ _ =>
          score st' = 0 ∧ bestScore st' = bestScore st
        | PlayButton => score st' = score st ∧ bestScore st' = bestScore st
        end))).
Proof.
  intros Hu1 Hu3 Hes He.
  eapply post_mono; [by apply initialState_spec|].
  intros st0 h0 (_ & Hwf0 & _ & Hbest0 & _). split; [done|].
  eapply post_mono; [by apply handleAll_spec|].
  intros st h1 (_ & Hwf & Hbest). split; [done|].
  eapply post_mono; [by apply handle_spec|].
  intros st' h' (_ & _ & Hmono & Hshape). done.
Qed.

Lemma bestScore_monotone_witness :
  unit01 (1 # 2) ∧
  Forall validEvent [Key "left" 0 0; NewGameButton 0 0 (1 # 2) 0] ∧
  post (initialState 0 0 0 0) ∅ (λ st0 h0,
    bestScore st0 = 0 ∧
    post (handleAll [Key "left" 0 0; NewGameButton 0 0 (1 # 2) 0] st0) h0
      (λ st h1,
        bestScore st0 ≤ bestScore st ∧
        post (handle (Key "up" (1 # 2) 0) st) h1 (λ st' _,
          bestScore st ≤ bestScore st' ∧
          (st' = st ∨ bestScore st' = Z.max (bestScore st) (score st'))))).
Proof.
  assert (Hhalf : unit01 (1 # 2)) by by split.
  assert (Hes : Forall validEvent
                  [Key "left" 0 0; NewGameButton 0 0 (1 # 2) 0]).
  { repeat constructor; done. }
  split_and!; [done..|].
  exact (bestScore_monotone ∅ 0 0 0 0 _ (Key "up" (1 # 2) 0)
           unit01_0 unit01_0 Hes Hhalf).
Defined.

(** C8. Spawn correctness.  On a board where no cell is 0
    [addRandomTile] returns the board it was given and leaves the store
    as it is; it does not fail.  On a board where exactly one cell is
    0, whatever the two draws, it returns a board where that cell
    holds the spawned value, 2 or 4, every other cell is as before, and
    no cell is 0. *)
Theorem spawn_correct (h : heap) b m u1 u2 :
  boardAt h b m → unit01 u1 →
  ((∀ i j, cell m i j ≠ Some 0) → addRandomTile u1 u2 b h = Some (b, h)) ∧
  (∀ x y, cell m x y = Some 0 →
     (∀ i j, cell m i j = Some 0 → (i, j) = (x, y)) →
     post (addRandomTile u1 u2 b) h (λ b' h',
       ∃ m', boardAt h' b' m' ∧
         cell m' x y = Some (tileValue u2) ∧
         (tileValue u2 = 2 ∨ tileValue u2 = 4) ∧
         (∀ i j, (i, j) ≠ (x, y) → cell m' i j = cell m i j) ∧
         (∀ i j, cell m' i j ≠ Some 0))).
Proof.
  intros Hb Hu. split.
  - intros Hfull%emptyCells_nil.
    pose proof (addRandomTile_full_spec u1 u2 b m h Hb Hfull) as H.
    by apply post_run in H as (b' & h' & -> & -> & ->).
  - intros x y Hcell Honly. destruct Hb as (rows & Hb & Hrows).
    destruct (Den_addRandomTile_cases u1 u2 m Hu)
      as (m1 & _ & [[Hnil _]|(Hne & x' & y' & Hlook & Hcell' & _)]).
    { by destruct (proj1 (emptyCells_nil m) Hnil x y). }
    assert ((x', y') = (x, y)) as [= -> ->] by by apply Honly.
    eapply post_mono.
    { apply (addRandomTile_spawn_spec u1 u2 b rows m x y); [done..| |done|done].
      intros i rx Hx Hi.
      apply bind_Some in Hcell as (xs & Hxs & Hy).
      pose proof (Forall2_lookup_lr _ _ _ _ _ _ Hrows Hx Hxs) as Hrx.
      destruct (Forall2_lookup_l _ _ _ _ _ Hrows Hi) as (xs' & Hxs' & Hrx').
      cbn in Hrx, Hrx'. assert (xs' = xs) as -> by congruence.
      assert (Hiy : cell m i y = Some 0).
      { unfold cell. by rewrite Hxs'. }
      by injection (Honly i y Hiy). }
    intros b' h' (rx & xs & _ & _ & _ & _ & _ & Hnew).
    eexists. split; [by eapply newBoardAt_boardAt|].
    split_and!.
    + rewrite cell_setAt, decide_True; [done|]. by rewrite Hcell.
    + apply tileValue_cases.
    + intros i j Hij. rewrite cell_setAt, decide_False; [done|].
      intros (-> & -> & _). by apply Hij.
    + intros i j Hin. rewrite cell_setAt in Hin. case_decide as Hd.
      * injection Hin. apply tileValue_nonzero.
      * apply Hd. injection (Honly i j Hin) as -> ->.
        by rewrite Hcell.
Qed.

Lemma spawn_correct_witness :
  boardAt crowdedHeap 4%nat crowdedBoard ∧ unit01 (3 # 4) ∧
  cell crowdedBoard 2 1 = Some 0 ∧
  post (addRandomTile (3 # 4) (19 # 20) 4%nat) crowdedHeap (λ b' h',
    ∃ m', boardAt h' b' m' ∧ cell m' 2 1 = Some 4 ∧
      ∀ i j, cell m' i j ≠ Some 0).
Proof.
  assert (Hb : boardAt crowdedHeap 4%nat crowdedBoard).
  { exists [0; 1; 2; 3]%nat. split; [reflexivity|].
    repeat constructor; reflexivity. }
  assert (Hu : unit01 (3 # 4)) by by split.
  assert (Honly : ∀ i j, cell crowdedBoard i j = Some 0 →
                    (i, j) = (2, 1)%nat).
  { intros [|[|[|[|i]]]] [|[|[|[|j]]]]; by inversion 1. }
  split_and!; [done..|reflexivity|].
  eapply post_mono.
  - exact (proj2 (spawn_correct crowdedHeap 4%nat crowdedBoard
                    (3 # 4) (19 # 20) Hb Hu) 2%nat 1%nat eq_refl Honly).
  - intros b' h' (m' & Hb' & Hcell & _ & _ & Hnone). by exists m'.
Defined.

Lemma runOp_gameBoard o b (h : heap) :
  gameBoard h b → validOp o → post (runOp o b) h (λ b' h', gameBoard h' b').
Proof.
  intros (m & Hb & Hm & Ht) Hv. destruct o as [d|u1 u2]; cbn [runOp validOp] in *.
  - destruct (moveOf d) as [move|] eqn:Hmove.
    + destruct (moveOf_Den _ _ Hmove) as [dmove Hdmove].
      destruct (moveOf_4x4 _ _ m Hdmove Hm) as (m1 & s & Hdm & Hm1).
      apply post_bind. eapply post_mono.
      { eapply move_spec; [done..|by apply properBoardAt_boardAt|done]. }
      intros [newBoard totalScore] h' (_ & Hnew & _). apply post_ret.
      exists m1. split_and!; [by eapply newBoardAt_proper|done|].
      exact (moveOf_tiles _ _ _ _ _ Hdmove Hm Hdm Ht).
    + apply post_ret. by exists m.
  - eapply post_mono; [by apply addRandomTile_proper_spec|].
    intros b' h' [(_ & -> & ->)|
                  (x & y & rows & rx & xs & _ & _ & _ & _ & _ & _ & Hnew)].
    + by exists m.
    + eexists. split_and!; [by eapply newBoardAt_proper|..].
      * by apply setAt_4x4.
      * apply setAt_tiles; [apply isTile_tileValue|done].
Qed.

Lemma runOps_gameBoard os b (h : heap) :
  gameBoard h b → Forall validOp os →
  post (runOps os b) h (λ b' h', gameBoard h' b').
Proof.
  intros Hb Hos. revert b h Hb.
  induction Hos as [|o os Ho _ IH]; intros b h Hb.
  - by apply post_ret.
  - cbn [runOps]. apply post_bind. eapply post_mono;
      [by apply runOp_gameBoard|].
    intros b' h' Hb'. by apply IH.
Qed.

(** C9. Board values.  Every board reached from [getInitialBoard] by
    any sequence of moves and [addRandomTile] calls is a 4 by 4 board
    whose cells are each 0 or a power of two that is at least 2 (so
    none is negative). *)
Theorem reachable_tiles (h : heap) u1 u2 u3 u4 os :
  unit01 u1 → unit01 u3 → Forall validOp os →
  post (b ← getInitialBoard u1 u2 u3 u4; runOps os b) h (λ b' h',
    ∃ m, boardAt h' b' m ∧ is4x4 m ∧
      ∀ i j v, cell m i j = Some v →
        v = 0 ∨ ∃ k, 1 ≤ k ∧ v = 2 ^ k).
Proof.
  intros Hu1 Hu3 Hos. apply post_bind.
  eapply post_mono; [by apply getInitialBoard_spec|].
  intros b h0 (_ & m0 & Hnew & Hm0 & Ht0).
  eapply post_mono.
  { apply runOps_gameBoard; [|done].
    exists m0. split; [by eapply newBoardAt_proper|done]. }
  intros b' h' (m & Hb & Hm & Ht). exists m.
  split_and!; [by apply properBoardAt_boardAt|done|].
  intros i j v (row & Hrow & Hv)%bind_Some. apply isTile_pow2.
  unfold allTiles in Ht. rewrite Forall_forall in Ht.
  specialize (Ht row (list_elem_of_lookup_2 _ _ _ Hrow)).
  rewrite Forall_forall in Ht. by eapply Ht, list_elem_of_lookup_2.
Qed.

Lemma reachable_tiles_witness :
  Forall validOp [OpMove "left"; OpSpawn (1 # 2) 0; OpMove "down";
                  OpSpawn 0 (19 # 20); OpMove "right"; OpMove "up"] ∧
  post (b ← getInitialBoard 0 0 (1 # 2) (19 # 20);
        runOps [OpMove "left"; OpSpawn (1 # 2) 0; OpMove "down";
                OpSpawn 0 (19 # 20); OpMove "right"; OpMove "up"] b) ∅
    (λ b' h',
      ∃ m, boardAt h' b' m ∧ is4x4 m ∧
        ∀ i j v, cell m i j = Some v → v = 0 ∨ ∃ k, 1 ≤ k ∧ v = 2 ^ k).
Proof.
  assert (Hhalf : unit01 (1 # 2)) by by split.
  assert (Hos : Forall validOp
    [OpMove "left"; OpSpawn (1 # 2) 0; OpMove "down";
     OpSpawn 0 (19 # 20); OpMove "right"; OpMove "up"]).
  { repeat constructor; done. }
  split; [exact Hos|].
  exact (reachable_tiles ∅ 0 0 (1 # 2) (19 # 20) _ unit01_0 Hhalf Hos).
Defined.

(** * Further properties of the code *)

(** ** More on the line primitive *)

Lemma filter_length_id {A} (P : A → Prop) `{∀ x, Decision (P x)} (l : list A) :
  length (filter P l) = length l → filter P l = l.
Proof.
  induction l as [|a l IH]; [done|]. rewrite filter_cons.
  pose proof (length_filter P l). case_decide; cbn [length]; intros Hlen.
  - f_equal. apply IH. lia.
  - lia.
Qed.

Lemma slideAndMergeLine_shape xs :
  ∃ nz k, (slideAndMergeLine xs).1 = nz ++ replicate k 0 ∧
          Forall (λ v, v ≠ 0) nz ∧
          nz = nonZero (mergePass (nonZero xs)).1 ∧
          k = (GRID_SIZE - length nz)%nat.
Proof.
  eexists _, _. rewrite slideAndMergeLine_fst. unfold padTo.
  split; [done|]. split; [apply nonZero_Forall|done].
Qed.

Lemma packed_left nz k j v :
  Forall (λ v, v ≠ 0) nz →
  (nz ++ replicate k 0) !! j = Some 0 →
  (nz ++ replicate k 0) !! (j + 1)%nat = Some v → v = 0.
Proof.
  intros Hnz H0 Hv.
  destruct (decide (j < length nz)%nat) as [Hj|Hj].
  - rewrite lookup_app_l in H0 by done. rewrite Forall_forall in Hnz.
    by apply list_elem_of_lookup_2, Hnz in H0.
  - rewrite lookup_app_r in Hv by lia.
    by apply lookup_replicate in Hv as [-> _].
Qed.

Lemma packed_right nz k j v :
  Forall (λ v, v ≠ 0) nz →
  (replicate k 0 ++ nz) !! (j + 1)%nat = Some 0 →
  (replicate k 0 ++ nz) !! j = Some v → v = 0.
Proof.
  intros Hnz H0 Hv.
  destruct (decide (j + 1 < k)%nat) as [Hj|Hj].
  - rewrite lookup_app_l in Hv by (rewrite length_replicate; lia).
    by apply lookup_replicate in Hv as [-> _].
  - rewrite lookup_app_r in H0 by (rewrite length_replicate; lia).
    rewrite Forall_forall in Hnz.
    by apply list_elem_of_lookup_2, Hnz in H0.
Qed.

(** After the slide no tile stands right of an empty cell. *)
Lemma slideAndMergeLine_packed xs j v :
  (slideAndMergeLine xs).1 !! j = Some 0 →
  (slideAndMergeLine xs).1 !! (j + 1)%nat = Some v → v = 0.
Proof.
  destruct (slideAndMergeLine_shape xs) as (nz & k & -> & Hnz & _).
  by apply packed_left.
Qed.

Lemma slideAndMergeLine_packed_reverse xs j v :
  reverse (slideAndMergeLine xs).1 !! (j + 1)%nat = Some 0 →
  reverse (slideAndMergeLine xs).1 !! j = Some v → v = 0.
Proof.
  destruct (slideAndMergeLine_shape xs) as (nz & k & -> & Hnz & _).
  rewrite reverse_app, reverse_replicate.
  apply packed_right. by apply Forall_reverse.
Qed.

(** The pass never makes tiles, and never merges a merged tile: it
    keeps at least half of them. *)
Lemma mergePass_tiles_bounds l :
  Forall (λ v, v ≠ 0) l →
  (length (nonZero (mergePass l).1) ≤ length l)%nat ∧
  (length l ≤ 2 * length (nonZero (mergePass l).1))%nat.
Proof.
  induction l as [|a|a rest IH|a b rest Hne IH] using mergePass_ind';
    intros Hl.
  - cbn. lia.
  - inv Hl. unfold nonZero. cbn [mergePass fst].
    rewrite filter_cons, decide_True by done. cbn. lia.
  - inv Hl. inv H2. rewrite mergePass_merge. cbn [fst]. unfold nonZero in *.
    rewrite filter_cons, decide_True by lia.
    rewrite filter_cons, decide_False by (intros H; by apply H).
    specialize (IH H4). cbn [length]. lia.
  - inv Hl. rewrite mergePass_skip by done. cbn [fst]. unfold nonZero in *.
    rewrite filter_cons, decide_True by done.
    specialize (IH H2). cbn [length] in *. lia.
Qed.

Lemma tiles_slideAndMergeLine xs :
  (tiles (slideAndMergeLine xs).1 ≤ tiles xs)%nat ∧
  (tiles xs ≤ 2 * tiles (slideAndMergeLine xs).1)%nat.
Proof.
  unfold tiles. rewrite slideAndMergeLine_fst, nonZero_padTo.
  rewrite (nonZero_id (nonZero (mergePass _).1)) by apply nonZero_Forall.
  apply mergePass_tiles_bounds, nonZero_Forall.
Qed.

(** The score of a pass over non-negative values. *)
Lemma mergePass_score_bounds l :
  Forall (λ v, 0 ≤ v) l → 0 ≤ (mergePass l).2 ≤ sumZ l.
Proof.
  unfold sumZ.
  induction l as [|a|a rest IH|a b rest Hne IH] using mergePass_ind';
    intros Hl.
  - cbn. lia.
  - inv Hl. cbn. lia.
  - inv Hl. inv H2. rewrite mergePass_merge. cbn [snd foldr].
    specialize (IH H4). lia.
  - inv Hl. rewrite mergePass_skip by done. cbn [snd foldr] in *.
    specialize (IH H2). lia.
Qed.

Lemma nonZero_nonneg l : Forall (λ v, 0 ≤ v) l → Forall (λ v, 0 ≤ v) (nonZero l).
Proof.
  rewrite !Forall_forall. intros Hl v Hv. apply Hl.
  by apply list_elem_of_filter in Hv as [_ ?].
Qed.

Lemma slideAndMergeLine_score_bounds xs :
  Forall (λ v, 0 ≤ v) xs → 0 ≤ (slideAndMergeLine xs).2 ≤ sumZ xs.
Proof.
  intros Hxs. rewrite slideAndMergeLine_snd, <-(sumZ_nonZero xs).
  by apply mergePass_score_bounds, nonZero_nonneg.
Qed.

Lemma slideAndMergeLine_length_max xs :
  length (slideAndMergeLine xs).1 =
  (GRID_SIZE `max` tiles (slideAndMergeLine xs).1)%nat.
Proof.
  unfold tiles. rewrite slideAndMergeLine_fst, nonZero_padTo.
  rewrite (nonZero_id (nonZero (mergePass _).1)) by apply nonZero_Forall.
  unfold padTo. rewrite length_app, length_replicate. lia.
Qed.

(** A line of [GRID_SIZE] cells that is full after the slide was full
    before it, and the slide changed nothing. *)
Lemma slideAndMergeLine_full xs :
  length xs = GRID_SIZE → Forall (λ v, v ≠ 0) (slideAndMergeLine xs).1 →
  (slideAndMergeLine xs).1 = xs.
Proof.
  intros Hlen Hfull.
  destruct (slideAndMergeLine_shape xs) as (nz & k & Heq & Hnz & -> & ->).
  set (l := nonZero xs) in *. set (mg := (mergePass l).1) in *.
  rewrite Heq in Hfull. apply Forall_app in Hfull as [_ Hrep].
  assert (Hk : (GRID_SIZE - length (nonZero mg) = 0)%nat).
  { destruct (GRID_SIZE - length (nonZero mg))%nat; [done|].
    by inv Hrep. }
  pose proof (nonZero_length mg) as H1. pose proof (nonZero_length xs) as H2.
  pose proof (mergePass_length l) as H3. fold mg in H3. fold l in H2.
  destruct (mergePass_no_merge l) as [_ Hmg]; [apply nonZero_Forall|fold mg; lia|].
  fold mg in Hmg. rewrite Heq, Hk, app_nil_r, Hmg.
  rewrite (nonZero_id l) by apply nonZero_Forall.
  apply filter_length_id. fold (nonZero xs). fold l. lia.
Qed.

Lemma noEqualPair_tail a l : noEqualPair (a :: l) → noEqualPair l.
Proof. intros H j v Hj. exact (H (S j) v Hj). Qed.

Lemma mergePass_noEqualPair l : noEqualPair l → mergePass l = (l, 0).
Proof.
  induction l as [|a|a rest IH|a b rest Hne IH] using mergePass_ind';
    intros Hl; [done..| |].
  - by destruct (Hl 0%nat a).
  - rewrite mergePass_skip by done.
    by rewrite IH by by eapply noEqualPair_tail.
Qed.

Lemma mergePass_fixed_noEqualPair l :
  Forall (λ v, v ≠ 0) l → (mergePass l).1 = l → noEqualPair l.
Proof.
  induction l as [|a|a rest IH|a b rest Hne IH] using mergePass_ind';
    intros Hnz Hfix.
  - by intros [|?] ?.
  - intros [|[|?]] ? ?; by simplify_eq.
  - rewrite mergePass_merge in Hfix. cbn in Hfix.
    apply Forall_cons in Hnz as [Ha _]. injection Hfix as H1 H2 _. lia.
  - rewrite mergePass_skip in Hfix by done. cbn [fst] in Hfix.
    apply Forall_cons in Hnz as [Ha H2].
    injection Hfix as Hfix. specialize (IH H2 Hfix).
    intros [|j] v Hj Hj'.
    + cbn in Hj, Hj'. congruence.
    + exact (IH j v Hj Hj').
Qed.

(** A full line without equal neighbours slides onto itself. *)
Lemma slideAndMergeLine_stuck xs :
  length xs = GRID_SIZE → Forall (λ v, v ≠ 0) xs → noEqualPair xs →
  slideAndMergeLine xs = (xs, 0).
Proof.
  intros Hlen Hnz Hne. unfold slideAndMergeLine.
  rewrite (nonZero_id xs), mergePass_noEqualPair by done.
  rewrite (nonZero_id xs) by done. by rewrite padTo_ge by lia.
Qed.

Lemma slideAndMergeLine_fixed_noEqualPair xs :
  Forall (λ v, v ≠ 0) xs → (slideAndMergeLine xs).1 = xs → noEqualPair xs.
Proof.
  intros Hnz Hfix. apply mergePass_fixed_noEqualPair; [done|].
  destruct (mergePass_no_merge (nonZero xs)) as [_ H];
    [apply nonZero_Forall| |by rewrite (nonZero_id xs) in H].
  rewrite <-Hfix at 2. by rewrite slideAndMergeLine_fst, nonZero_padTo,
    (nonZero_id (nonZero _)) by apply nonZero_Forall.
Qed.

(** ** [transpose] on rectangular boards *)

Lemma rect_4x4 m : is4x4 m ↔ rect GRID_SIZE GRID_SIZE m.
Proof. done. Qed.

Lemma rect_lookup n k m i row :
  rect n k m → m !! i = Some row → length row = k.
Proof.
  intros [_ Hrows] Hrow. rewrite Forall_forall in Hrows.
  by eapply Hrows, list_elem_of_lookup_2.
Qed.

Lemma rect_cell_range n k m i j v :
  rect n k m → cell m i j = Some v → (i < n)%nat ∧ (j < k)%nat.
Proof.
  intros Hm (row & Hrow & Hj)%bind_Some.
  pose proof (rect_lookup _ _ _ _ _ Hm Hrow) as Hlen.
  apply lookup_lt_Some in Hrow, Hj. destruct Hm as [<- _]. lia.
Qed.

Lemma rect_cell n k m i j :
  rect n k m → (i < n)%nat → (j < k)%nat → is_Some (cell m i j).
Proof.
  intros Hm Hi Hj. destruct (lookup_lt_is_Some_2 m i) as [row Hrow].
  { destruct Hm as [-> _]. lia. }
  unfold cell. rewrite Hrow. cbn. apply lookup_lt_is_Some_2.
  by rewrite (rect_lookup _ _ _ _ _ Hm Hrow).
Qed.

Lemma rect_ext n k a b :
  rect n k a → rect n k b → (∀ i j, cell a i j = cell b i j) → a = b.
Proof.
  intros Ha Hb Hcell. apply list_eq_same_length with n;
    [apply Hb | apply Ha |].
  intros i ra rb Hi Hra Hrb.
  apply list_eq_same_length with k;
    [exact (rect_lookup _ _ _ _ _ Hb Hrb)
    |exact (rect_lookup _ _ _ _ _ Ha Hra)|].
  intros j x y Hj Hx Hy. specialize (Hcell i j). unfold cell in Hcell.
  rewrite Hra, Hrb in Hcell. cbn in Hcell. congruence.
Qed.

Lemma transpose_rect n k m :
  rect n k m → (1 ≤ n)%nat →
  ∃ t, Den.transpose m = Some t ∧ rect k n t ∧
       ∀ i j, cell t i j = cell m j i.
Proof.
  intros Hm Hn. unfold Den.transpose.
  destruct (lookup_lt_is_Some_2 m 0) as [r0 Hr0].
  { destruct Hm as [-> _]. lia. }
  rewrite Hr0. cbn [mbind option_bind].
  rewrite (rect_lookup _ _ _ _ _ Hm Hr0).
  destruct (mapM (λ i, mapM (λ row : list Z, row !! i) m) (seq 0 k))
    as [t|] eqn:Ht.
  2: { exfalso. apply eq_None_not_Some in Ht. apply Ht.
       apply mapM_is_Some, Forall_forall. intros i Hi%elem_of_seq_0.
       apply mapM_is_Some, Forall_forall. intros row Hrow.
       apply list_elem_of_lookup in Hrow as [j Hrow].
       apply lookup_lt_is_Some_2.
       by rewrite (rect_lookup _ _ _ _ _ Hm Hrow). }
  exists t. split; [done|]. apply mapM_Some in Ht.
  assert (Hlen : length t = k).
  { apply Forall2_length in Ht. by rewrite length_seq in Ht. }
  assert (Hcol : ∀ i col, t !! i = Some col →
            Forall2 (λ (row : list Z) y, row !! i = Some y) m col).
  { intros i col Hcol.
    destruct (Forall2_lookup_r _ _ _ _ _ Ht Hcol) as (i' & Hi' & Hm').
    apply lookup_seq in Hi' as [-> _]. by apply mapM_Some in Hm'. }
  split; [split|].
  - done.
  - apply Forall_forall. intros col Hin.
    apply list_elem_of_lookup in Hin as [i Hi].
    specialize (Hcol i col Hi). apply Forall2_length in Hcol.
    destruct Hm as [<- _]. done.
  - intros i j. unfold cell.
    destruct (t !! i) as [col|] eqn:Hi; cbn.
    + specialize (Hcol i col Hi).
      destruct (m !! j) as [row|] eqn:Hj; cbn.
      * destruct (Forall2_lookup_l _ _ _ _ _ Hcol Hj) as (y & -> & Hy).
        done.
      * apply lookup_ge_None. apply lookup_ge_None in Hj.
        apply Forall2_length in Hcol. lia.
    + destruct (m !! j) as [row|] eqn:Hj; cbn; [|done].
      symmetry. apply lookup_ge_None. apply lookup_ge_None in Hi.
      rewrite (rect_lookup _ _ _ _ _ Hm Hj). lia.
Qed.

Lemma transpose_involutive n k m t :
  rect n k m → (1 ≤ n)%nat → (1 ≤ k)%nat →
  Den.transpose m = Some t → Den.transpose t = Some m.
Proof.
  intros Hm Hn Hk Ht.
  destruct (transpose_rect n k m Hm Hn) as (t' & Ht' & Hrect & Hcell).
  assert (t' = t) as -> by congruence.
  destruct (transpose_rect k n t Hrect Hk) as (m' & Hm' & Hrect' & Hcell').
  rewrite Hm'. f_equal. apply (rect_ext n k); [done..|].
  intros i j. by rewrite Hcell', Hcell.
Qed.

(** ** Moves as slides of lines *)

Lemma map_fmap {A B} (f : A → B) (l : list A) : map f l = f <$> l.
Proof. done. Qed.

Lemma mirror_4x4 m : is4x4 m → is4x4 (mirror m).
Proof.
  intros [Hlen Hrows]. split; [by unfold mirror; rewrite length_map|].
  unfold mirror. rewrite map_fmap. apply Forall_fmap.
  eapply Forall_impl; [exact Hrows|]. intros row Hrow. cbn.
  by rewrite length_reverse.
Qed.

Lemma mirror_involutive m : mirror (mirror m) = m.
Proof.
  unfold mirror. rewrite !map_fmap, <-list_fmap_compose.
  rewrite <-(list_fmap_id m) at 2. apply list_fmap_ext.
  intros i row _. cbn. apply reverse_involutive.
Qed.

Lemma cell_mirror m p q :
  is4x4 m → (q < GRID_SIZE)%nat →
  cell (mirror m) p q = cell m p (GRID_SIZE - 1 - q).
Proof.
  intros Hm Hq. unfold cell, mirror. rewrite map_fmap, list_lookup_fmap.
  destruct (m !! p) as [row|] eqn:Hrow; [|done]. cbn.
  pose proof (rect_lookup _ _ _ _ _ Hm Hrow) as Hlen.
  unfold GRID_SIZE in *. rewrite reverse_lookup by lia. f_equal. lia.
Qed.

Lemma moveRight_mirror m :
  Den.moveRight m =
  (mirror (Den.moveLeft (mirror m)).1, (Den.moveLeft (mirror m)).2).
Proof.
  unfold Den.moveRight, Den.moveLeft, mirror. cbn [fst snd].
  rewrite !map_fmap, <-!list_fmap_compose. done.
Qed.

Lemma lines_4x4 direction m :
  is_Some (Den.moveOf direction) → is4x4 m →
  ∃ ls, lines direction m = Some ls ∧ is4x4 ls.
Proof.
  unfold Den.moveOf, lines. intros [dmove Hd] Hm.
  destruct (transpose_4x4 m Hm) as (t & Ht & Ht4 & _).
  repeat case_decide; simplify_eq.
  - by exists t.
  - exists (mirror t). rewrite Ht. split; [done|]. by apply mirror_4x4.
  - by exists m.
  - exists (mirror m). split; [done|]. by apply mirror_4x4.
Qed.

(** A move slides the lines of the board: the lines of the result are
    the lines of the board after [moveLeft], and the score is the
    score of [moveLeft] on them. *)
Lemma moveOf_lines direction dmove m ls :
  Den.moveOf direction = Some dmove → is4x4 m →
  lines direction m = Some ls →
  ∃ m1, dmove m = Some (m1, (Den.moveLeft ls).2) ∧ is4x4 m1 ∧
        lines direction m1 = Some (Den.moveLeft ls).1.
Proof.
  unfold Den.moveOf, lines. intros Hd Hm Hls.
  repeat case_decide; simplify_eq.
  - destruct (transpose_4x4 m Hm) as (t & Ht & Ht4 & _).
    assert (t = ls) as -> by congruence.
    destruct (transpose_4x4 _ (moveLeft_4x4 ls Ht4))
      as (r & Hr & Hr4 & Hinv & _).
    exists r. split_and!; [|done..].
    apply bind_Some. exists ls. split; [done|].
    apply bind_Some. by exists r.
  - destruct (transpose_4x4 m Hm) as (t & Ht & Ht4 & _).
    rewrite Ht in Hls. injection Hls as <-.
    destruct (transpose_4x4 _ (moveRight_4x4 t Ht4))
      as (r & Hr & Hr4 & Hinv & _).
    exists r. rewrite Hinv. cbn [fmap option_fmap option_map].
    rewrite moveRight_mirror. cbn [fst snd]. rewrite mirror_involutive.
    split_and!; [|done..].
    apply bind_Some. exists t. split; [done|].
    apply bind_Some. exists r. split; [done|].
    by rewrite moveRight_mirror.
  - exists (Den.moveLeft ls).1. split_and!; [|by apply moveLeft_4x4|done].
    by destruct (Den.moveLeft ls).
  - exists (Den.moveRight m).1. split_and!.
    + by rewrite moveRight_mirror.
    + by apply moveRight_4x4.
    + rewrite moveRight_mirror. cbn [fst]. by rewrite mirror_involutive.
Qed.

Lemma lines_inj direction a b ls :
  is4x4 a → is4x4 b →
  lines direction a = Some ls → lines direction b = Some ls → a = b.
Proof.
  unfold lines. intros Ha Hb Hla Hlb.
  destruct (transpose_4x4 a Ha) as (ta & Hta & _ & Hia & _).
  destruct (transpose_4x4 b Hb) as (tb & Htb & _ & Hib & _).
  rewrite Hta in Hla. rewrite Htb in Hlb.
  repeat case_decide; try done.
  - congruence.
  - cbn in Hla, Hlb.
    assert (ta = tb) by (rewrite <-(mirror_involutive ta),
      <-(mirror_involutive tb); congruence).
    congruence.
  - congruence.
  - rewrite <-(mirror_involutive a), <-(mirror_involutive b). congruence.
Qed.

Lemma transpose_4x4_cell m t i j :
  is4x4 m → Den.transpose m = Some t → cell t i j = cell m j i.
Proof.
  intros Hm Ht.
  destruct (transpose_rect GRID_SIZE GRID_SIZE m Hm) as (t' & Ht' & _ & Hc);
    [unfold GRID_SIZE; lia|].
  assert (t' = t) as -> by congruence. apply Hc.
Qed.

(** Cell [q] of line [p] is the cell [source direction p q] of the
    board. *)
Lemma lines_cell direction m ls p q :
  is_Some (Den.moveOf direction) → is4x4 m →
  lines direction m = Some ls → (q < GRID_SIZE)%nat →
  cell ls p q = cell m (source direction p q).1 (source direction p q).2.
Proof.
  unfold Den.moveOf, lines, source. intros [dmove Hd] Hm Hls Hq.
  repeat case_decide; simplify_eq; cbn [fst snd].
  - by apply transpose_4x4_cell.
  - destruct (transpose_4x4 m Hm) as (t & Ht & Ht4 & _).
    rewrite Ht in Hls. injection Hls as <-.
    rewrite cell_mirror by done. by apply transpose_4x4_cell.
  - done.
  - by apply cell_mirror.
Qed.

Lemma map_fixed {A} (f : A → A) (l : list A) :
  map f l = l ↔ ∀ x, x ∈ l → f x = x.
Proof.
  induction l as [|a l IH]; cbn.
  - split; [|done]. intros _ x Hx. by apply elem_of_nil in Hx.
  - split.
    + intros [= Ha Hl] x [->|Hx]%elem_of_cons; [done|]. by apply IH.
    + intros Hall. f_equal; [apply Hall; left|].
      apply IH. intros x Hx. apply Hall. by right.
Qed.

Lemma cell_moveLeft ls p q :
  cell (Den.moveLeft ls).1 p q =
  row ← ls !! p; (slideAndMergeLine row).1 !! q.
Proof.
  unfold cell, Den.moveLeft. cbn [fst]. rewrite map_fmap, list_lookup_fmap.
  by destruct (ls !! p).
Qed.

Lemma moveLeft_packed ls p q v :
  cell (Den.moveLeft ls).1 p q = Some 0 →
  cell (Den.moveLeft ls).1 p (q + 1) = Some v → v = 0.
Proof.
  rewrite !cell_moveLeft. destruct (ls !! p) as [row|]; [|done]. cbn.
  apply slideAndMergeLine_packed.
Qed.

(** Along every line, from the wall outward, no tile follows an empty
    cell. *)
Lemma moveOf_packed direction dmove m m1 s p q v :
  Den.moveOf direction = Some dmove → is4x4 m → dmove m = Some (m1, s) →
  (q + 1 < GRID_SIZE)%nat →
  cell m1 (source direction p q).1 (source direction p q).2 = Some 0 →
  cell m1 (source direction p (q + 1)).1 (source direction p (q + 1)).2
    = Some v →
  v = 0.
Proof.
  intros Hd Hm Hdm Hq H0 Hv.
  destruct (lines_4x4 direction m) as (ls & Hls & Hls4); [by eexists|done|].
  destruct (moveOf_lines _ _ _ _ Hd Hm Hls) as (m1' & Hdm' & Hm1 & Hls1).
  assert (m1' = m1) as -> by congruence.
  rewrite <-(lines_cell direction m1 (Den.moveLeft ls).1 p q) in H0;
    [|by eexists|done|done|lia].
  rewrite <-(lines_cell direction m1 (Den.moveLeft ls).1 p (q + 1)) in Hv;
    [|by eexists|done|done|lia].
  by eapply moveLeft_packed.
Qed.

Lemma Forall_nonZero_cells ls :
  is4x4 ls → (∀ p q, cell ls p q ≠ Some 0) →
  ∀ row, row ∈ ls → Forall (λ v, v ≠ 0) row.
Proof.
  intros Hls Hnz row [p Hrow]%list_elem_of_lookup.
  apply Forall_lookup. intros q v Hv ->.
  apply (Hnz p q). unfold cell. by rewrite Hrow.
Qed.

Lemma lines_nonZero direction m ls :
  is_Some (Den.moveOf direction) → is4x4 m →
  lines direction m = Some ls →
  (∀ i j, cell m i j ≠ Some 0) → ∀ p q, cell ls p q ≠ Some 0.
Proof.
  intros Hd Hm Hls Hnz p q Hc.
  destruct (lines_4x4 direction m Hd Hm) as (ls' & Hls' & Hls4).
  assert (ls' = ls) as -> by congruence.
  destruct (is4x4_cell_range ls p q 0 Hls4 Hc) as [_ Hq].
  rewrite (lines_cell direction m ls p q) in Hc by done.
  by eapply Hnz.
Qed.

(** A move whose result has no empty cell returned the board it was
    given. *)
Lemma moveOf_full_unchanged direction dmove m m1 s :
  Den.moveOf direction = Some dmove → is4x4 m → dmove m = Some (m1, s) →
  (∀ i j, cell m1 i j ≠ Some 0) → m1 = m.
Proof.
  intros Hd Hm Hdm Hfull.
  destruct (lines_4x4 direction m) as (ls & Hls & Hls4); [by eexists|done|].
  destruct (moveOf_lines _ _ _ _ Hd Hm Hls) as (m1' & Hdm' & Hm1 & Hls1).
  assert (m1' = m1) as -> by congruence.
  apply (lines_inj direction _ _ ls); [done|done| |done].
  rewrite Hls1. f_equal. unfold Den.moveLeft. cbn [fst].
  apply map_fixed. intros row Hrow.
  apply slideAndMergeLine_full.
  { destruct Hls4 as [_ Hrows]. rewrite Forall_forall in Hrows. by apply Hrows. }
  apply (Forall_nonZero_cells (Den.moveLeft ls).1).
  - by apply moveLeft_4x4.
  - eapply lines_nonZero; [by eexists|exact Hm1|done..].
  - unfold Den.moveLeft. cbn [fst]. rewrite map_fmap.
    apply list_elem_of_fmap. by exists row.
Qed.

Lemma moveOf_changed_empty direction dmove m m1 s :
  Den.moveOf direction = Some dmove → is4x4 m → dmove m = Some (m1, s) →
  m1 ≠ m → Val.emptyCells m1 ≠ [].
Proof.
  intros Hd Hm Hdm Hne Hnil. apply Hne.
  eapply moveOf_full_unchanged; [done..|].
  intros i j Hc%cell_emptyCells. rewrite Hnil in Hc.
  by apply elem_of_nil in Hc.
Qed.

(** ** Game over and the moves *)

Lemma isGameOver_true_4x4 m :
  is4x4 m →
  Val.isGameOver m = Some true ↔
  (∀ i j, cell m i j ≠ Some 0) ∧
  (∀ i j v, cell m i j = Some v →
     cell m i (j + 1) ≠ Some v ∧ cell m (i + 1) j ≠ Some v).
Proof.
  intros Hm. rewrite isGameOver_4x4 by done.
  assert (Hempty : hasEmpty m = true ↔ ∃ i j, cell m i j = Some 0).
  { rewrite hasEmpty_true. split.
    - intros (i & j & _ & _ & H). eauto.
    - intros (i & j & H).
      destruct (is4x4_cell_range m i j 0 Hm H). eauto. }
  split.
  - intros [= [He Hn]%andb_true_iff]. apply negb_true_iff in He, Hn. split.
    + intros i j H. assert (hasEmpty m = true) by (apply Hempty; eauto).
      congruence.
    + intros i j v Hc.
      assert (Hno : ¬ (hasEqualNeighbours m = true)) by congruence.
      rewrite hasEqualNeighbours_true in Hno.
      destruct (is4x4_cell_range m i j v Hm Hc) as [Hi Hj].
      split; intros Hc'; apply Hno; exists i, j;
        (split; [done|]; split; [done|]).
      * left. split; [|congruence].
        by destruct (is4x4_cell_range m i (j + 1) v Hm Hc').
      * right. split; [|congruence].
        by destruct (is4x4_cell_range m (i + 1) j v Hm Hc').
  - intros [Hz Hp]. f_equal. apply andb_true_iff.
    split; apply negb_true_iff, not_true_is_false.
    + rewrite Hempty. intros (i & j & H). by eapply Hz.
    + rewrite hasEqualNeighbours_true.
      intros (i & j & Hi & Hj & Hadj).
      destruct (is4x4_cell m i j Hm Hi Hj) as [v Hv].
      destruct (Hp i j v Hv) as [Hr Hd].
      destruct Hadj as [[_ Heq]|[_ Heq]]; congruence.
Qed.

Lemma moveLeft_fixed_rows ls :
  (∀ row, row ∈ ls → slideAndMergeLine row = (row, 0)) →
  Den.moveLeft ls = (ls, 0).
Proof.
  unfold Den.moveLeft, sumZ. induction ls as [|row ls IH]; [done|].
  intros Hall. cbn [map foldr].
  assert (Hrest : ∀ r, r ∈ ls → slideAndMergeLine r = (r, 0)).
  { intros r Hr. apply Hall. by right. }
  specialize (IH Hrest). injection IH as IH1 IH2.
  rewrite IH1, IH2, Hall by by left. done.
Qed.

Lemma fixed_lines direction dmove m ls :
  Den.moveOf direction = Some dmove → is4x4 m →
  lines direction m = Some ls →
  (∃ s, dmove m = Some (m, s)) ↔ (Den.moveLeft ls).1 = ls.
Proof.
  intros Hd Hm Hls.
  destruct (moveOf_lines _ _ _ _ Hd Hm Hls) as (m1 & Hdm & Hm1 & Hls1).
  split.
  - intros [s Hs]. assert (m1 = m) as -> by congruence. congruence.
  - intros Hfix. exists (Den.moveLeft ls).2. rewrite Hdm. do 2 f_equal.
    apply (lines_inj direction _ _ ls); [done..| |done]. congruence.
Qed.

Lemma source_adjacent direction p q :
  is_Some (Den.moveOf direction) → (q + 1 < GRID_SIZE)%nat →
  let c := source direction p q in
  let c' := source direction p (q + 1) in
  c'.1 = c.1 ∧ c'.2 = (c.2 + 1)%nat ∨ c'.1 = c.1 ∧ c.2 = (c'.2 + 1)%nat ∨
  c'.2 = c.2 ∧ c'.1 = (c.1 + 1)%nat ∨ c'.2 = c.2 ∧ c.1 = (c'.1 + 1)%nat.
Proof.
  unfold Den.moveOf, source, GRID_SIZE. intros [dmove Hd] Hq.
  repeat case_decide; simplify_eq; cbn; lia.
Qed.

(** When [isGameOver] holds every move returns the board, and scores
    nothing. *)
Lemma isGameOver_stuck m direction dmove :
  is4x4 m → Val.isGameOver m = Some true →
  Den.moveOf direction = Some dmove → dmove m = Some (m, 0).
Proof.
  intros Hm [Hz Hp]%isGameOver_true_4x4 Hd; [|done].
  destruct (lines_4x4 direction m) as (ls & Hls & Hls4); [by eexists|done|].
  destruct (moveOf_lines _ _ _ _ Hd Hm Hls) as (m1 & Hdm & Hm1 & Hls1).
  assert (Hfix : Den.moveLeft ls = (ls, 0)).
  { apply moveLeft_fixed_rows. intros row Hrow.
    pose proof Hrow as [p Hp']%list_elem_of_lookup.
    apply slideAndMergeLine_stuck.
    - destruct Hls4 as [_ Hrows]. rewrite Forall_forall in Hrows.
      by apply Hrows.
    - eapply Forall_nonZero_cells; [exact Hls4| |done].
      exact (lines_nonZero direction m ls (mk_is_Some _ _ Hd) Hm Hls Hz).
    - intros q v Hq Hq'.
      assert (q + 1 < GRID_SIZE)%nat as Hlt.
      { apply lookup_lt_Some in Hq'.
        by rewrite (rect_lookup _ _ _ _ _ Hls4 Hp') in Hq'. }
      assert (Hc : cell ls p q = Some v) by (unfold cell; by rewrite Hp').
      assert (Hc' : cell ls p (q + 1) = Some v)
        by (unfold cell; by rewrite Hp').
      rewrite (lines_cell direction m ls p q) in Hc;
        [|by eexists|done|done|lia].
      rewrite (lines_cell direction m ls p (q + 1)) in Hc';
        [|by eexists|done|done|lia].
      destruct (source_adjacent direction p q) as [[E1 E2]|[[E1 E2]|[[E1 E2]|[E1 E2]]]];
        [by eexists|done|..]; rewrite E1, E2 in *.
      + by destruct (Hp _ _ _ Hc).
      + by destruct (Hp _ _ _ Hc').
      + by destruct (Hp _ _ _ Hc).
      + by destruct (Hp _ _ _ Hc'). }
  rewrite Hfix in Hdm, Hls1. cbn [fst snd] in *. rewrite Hdm. do 2 f_equal.
  by apply (lines_inj direction _ _ ls).
Qed.

Lemma source_left p q : source "left" p q = (p, q).
Proof. done. Qed.

Lemma source_right p q : source "right" p q = (p, (3 - q)%nat).
Proof. done. Qed.

Lemma source_up p q : source "up" p q = (q, p).
Proof. done. Qed.

Lemma source_down p q : source "down" p q = ((3 - q)%nat, p).
Proof. done. Qed.

Lemma spread_zero (f : nat → option Z) n :
  (∀ q v, (q + 1 < n)%nat → f q = Some 0 → f (q + 1)%nat = Some v → v = 0) →
  (∀ q v, (q + 1 < n)%nat → f (q + 1)%nat = Some 0 → f q = Some v → v = 0) →
  (∀ q, (q < n)%nat → is_Some (f q)) →
  ∀ q0, (q0 < n)%nat → f q0 = Some 0 → ∀ q, (q < n)%nat → f q = Some 0.
Proof.
  intros Hup Hdown Hdef q0 Hq0 H0.
  assert (Hge : ∀ d, (q0 + d < n)%nat → f (q0 + d)%nat = Some 0).
  { induction d as [|d IH]; intros Hd.
    - by rewrite Nat.add_0_r.
    - destruct (Hdef (q0 + S d)%nat Hd) as [v Hv].
      replace (q0 + S d)%nat with (q0 + d + 1)%nat in * by lia.
      rewrite Hv. f_equal. eapply Hup; [done| |done]. apply IH. lia. }
  assert (Hle : ∀ d, (d ≤ q0)%nat → f (q0 - d)%nat = Some 0).
  { induction d as [|d IH]; intros Hd.
    - by rewrite Nat.sub_0_r.
    - destruct (Hdef (q0 - S d)%nat ltac:(lia)) as [v Hv].
      rewrite Hv. f_equal. eapply (Hdown (q0 - S d)%nat); [lia| |done].
      replace (q0 - S d + 1)%nat with (q0 - d)%nat by lia. apply IH. lia. }
  intros q Hq. destruct (decide (q0 ≤ q)%nat).
  - replace q with (q0 + (q - q0))%nat by lia. apply Hge. lia.
  - replace q with (q0 - (q0 - q))%nat by lia. apply Hle. lia.
Qed.

Lemma moveOf_valid direction :
  direction = "up" ∨ direction = "down" ∨ direction = "left" ∨
  direction = "right" → is_Some (Den.moveOf direction).
Proof. unfold Den.moveOf. intros [->|[->|[->| ->]]]; by eexists. Qed.

(** A board that no move changes and that holds a tile is a board
    where [isGameOver] holds. *)
Lemma stuck_isGameOver m :
  is4x4 m → stuck m → (∃ i j v, cell m i j = Some v ∧ v ≠ 0) →
  Val.isGameOver m = Some true.
Proof.
  intros Hm Hstuck (i0 & j0 & v0 & Hv0 & Hne0).
  assert (Hpacked : ∀ direction p q v,
    is_Some (Den.moveOf direction) → (q + 1 < GRID_SIZE)%nat →
    cell m (source direction p q).1 (source direction p q).2 = Some 0 →
    cell m (source direction p (q + 1)).1 (source direction p (q + 1)).2
      = Some v → v = 0).
  { intros direction p q v [dmove Hd] Hq.
    destruct (Hstuck _ _ Hd) as [s Hs]. by eapply moveOf_packed. }
  assert (Hrow : ∀ i j, (i < GRID_SIZE)%nat → (j < GRID_SIZE)%nat →
    cell m i j = Some 0 → ∀ j', (j' < GRID_SIZE)%nat → cell m i j' = Some 0).
  { intros i j Hi Hj H0. apply (spread_zero (cell m i) GRID_SIZE) with j;
      [| |by intros; apply is4x4_cell|done..].
    - intros q v Hq. apply (Hpacked "left" i q v); [by eexists|done].
    - intros q v Hq Hz Hv. unfold GRID_SIZE in *.
      apply (Hpacked "right" i (2 - q)%nat v); [by eexists|lia|..];
        rewrite source_right; cbn [fst snd].
      + rewrite <-Hz. f_equal. lia.
      + rewrite <-Hv. f_equal. lia. }
  assert (Hcol : ∀ i j, (i < GRID_SIZE)%nat → (j < GRID_SIZE)%nat →
    cell m i j = Some 0 → ∀ i', (i' < GRID_SIZE)%nat → cell m i' j = Some 0).
  { intros i j Hi Hj H0.
    apply (spread_zero (λ i, cell m i j) GRID_SIZE) with i;
      [| |by intros; apply is4x4_cell|done..].
    - intros q v Hq. apply (Hpacked "up" j q v); [by eexists|done].
    - intros q v Hq Hz Hv. unfold GRID_SIZE in *.
      apply (Hpacked "down" j (2 - q)%nat v); [by eexists|lia|..];
        rewrite source_down; cbn [fst snd].
      + rewrite <-Hz. f_equal. lia.
      + rewrite <-Hv. f_equal. lia. }
  destruct (is4x4_cell_range m i0 j0 v0 Hm Hv0) as [Hi0 Hj0].
  assert (Hz : ∀ i j, cell m i j ≠ Some 0).
  { intros i j H0. destruct (is4x4_cell_range m i j 0 Hm H0) as [Hi Hj].
    pose proof (Hrow i j Hi Hj H0 j0 Hj0) as H1.
    pose proof (Hcol i j0 Hi Hj0 H1 i0 Hi0) as H2. congruence. }
  apply isGameOver_true_4x4; [done|]. split; [done|].
  assert (Hpair : ∀ direction ls p q v,
    is_Some (Den.moveOf direction) → lines direction m = Some ls →
    cell ls p q = Some v → cell ls p (q + 1) ≠ Some v).
  { intros direction ls p q v [dmove Hd] Hls Hc Hc'.
    destruct (lines_4x4 direction m) as (ls' & Hls' & Hls4);
      [by eexists|done|].
    assert (ls' = ls) as -> by congruence.
    pose proof (proj1 (fixed_lines _ _ _ _ Hd Hm Hls) (Hstuck _ _ Hd)) as Hfix.
    apply bind_Some in Hc as (row & Hr & Hq).
    unfold cell in Hc'. rewrite Hr in Hc'. cbn in Hc'.
    assert (Hin : row ∈ ls) by by eapply list_elem_of_lookup_2.
    apply (slideAndMergeLine_fixed_noEqualPair row) in Hq; [done| |].
    - eapply Forall_nonZero_cells; [exact Hls4| |done].
      exact (lines_nonZero direction m ls (mk_is_Some _ _ Hd) Hm Hls Hz).
    - unfold Den.moveLeft in Hfix. cbn [fst] in Hfix.
      by apply map_fixed with (x := row) in Hfix. }
  intros i j v Hv. split.
  - by apply (Hpair "left" m i j v); [eexists|..].
  - destruct (transpose_4x4 m Hm) as (t & Ht & _).
    rewrite <-(transpose_4x4_cell m t j (i + 1) Hm Ht).
    rewrite <-(transpose_4x4_cell m t j i Hm Ht) in Hv.
    by apply (Hpair "up" t j i v); [eexists|..].
Qed.

(** ** The moves, line by line *)

Lemma move_post direction move b m (h : heap) (Q : loc * Z → heap → Prop) :
  boardAt h b m → is4x4 m → moveOf direction = Some move →
  (∀ dmove m1 s newBoard h1,
     Den.moveOf direction = Some dmove → dmove m = Some (m1, s) →
     is4x4 m1 → h ⊆ h1 → newBoardAt h h1 newBoard m1 →
     Q (newBoard, s) h1) →
  post (move b) h Q.
Proof.
  intros Hb Hm Hmove HQ.
  destruct (moveOf_Den _ _ Hmove) as [dmove Hdmove].
  destruct (moveOf_4x4 _ _ m Hdmove Hm) as (m1 & s & Hdm & Hm1).
  eapply post_mono; [by eapply move_spec|].
  intros [newBoard totalScore] h' (Hsub & Hnew & ->). by eapply HQ.
Qed.

Lemma isTile_nonneg v : isTile v → 0 ≤ v.
Proof. intros [->|[? _]]; lia. Qed.

Lemma allTiles_nonneg m : allTiles m → Forall (Forall (λ v, 0 ≤ v)) m.
Proof.
  intros Hm. eapply Forall_impl; [exact Hm|]. intros row Hrow.
  eapply Forall_impl; [exact Hrow|]. intros v. apply isTile_nonneg.
Qed.

Lemma moveLeft_score_bounds ls :
  Forall (Forall (λ v, 0 ≤ v)) ls →
  0 ≤ (Den.moveLeft ls).2 ≤ sumAll ls.
Proof.
  unfold Den.moveLeft, sumAll. cbn [snd].
  induction 1 as [|row ls Hrow _ IH]; [done|].
  cbn [map sumZ foldr].
  pose proof (slideAndMergeLine_score_bounds row Hrow).
  change (foldr Z.add 0) with sumZ in *. lia.
Qed.

Lemma sumAll_mirror m : sumAll (mirror m) = sumAll m.
Proof.
  unfold sumAll, mirror. induction m as [|row m IH]; [done|].
  cbn [map sumZ foldr]. change (foldr Z.add 0) with sumZ in *.
  by rewrite sumZ_reverse, IH.
Qed.

Lemma allTiles_mirror m : allTiles m → allTiles (mirror m).
Proof.
  unfold allTiles, mirror. rewrite map_fmap, Forall_fmap. intros Hm.
  eapply Forall_impl; [exact Hm|]. intros row Hrow. by apply Forall_reverse.
Qed.

Lemma lines_sum_tiles direction m ls :
  is4x4 m → lines direction m = Some ls →
  sumAll ls = sumAll m ∧ (allTiles m → allTiles ls).
Proof.
  intros Hm. unfold lines.
  destruct (transpose_4x4 m Hm) as (t & Ht & _ & _ & Hsum & Htl).
  repeat case_decide; rewrite ?Ht; intros Hls; simplify_eq/=.
  - done.
  - rewrite sumAll_mirror. split; [done|]. intros ?.
    by apply allTiles_mirror, Htl.
  - done.
  - rewrite sumAll_mirror. split; [done|]. apply allTiles_mirror.
Qed.

Lemma moveOf_score_bounds direction dmove m m1 s :
  Den.moveOf direction = Some dmove → is4x4 m → allTiles m →
  dmove m = Some (m1, s) → 0 ≤ s ≤ sumAll m.
Proof.
  intros Hd Hm Ht Hdm.
  destruct (lines_4x4 direction m) as (ls & Hls & Hls4); [by eexists|done|].
  destruct (moveOf_lines _ _ _ _ Hd Hm Hls) as (m1' & Hdm' & _).
  assert (s = (Den.moveLeft ls).2) as -> by congruence.
  destruct (lines_sum_tiles _ _ _ Hm Hls) as [<- Htl].
  apply moveLeft_score_bounds, allTiles_nonneg, Htl, Ht.
Qed.

(** X1.  Each of the four moves is the row move applied line by line,
    the lines of the board being read from the wall the tiles are
    pushed to: the rows for "left", the reversed rows for "right", the
    columns for "up", the columns from the bottom for "down".  The
    lines of the returned board are the lines of the given board after
    [slideAndMergeLine], and the score is the sum of their scores. *)
Theorem move_by_lines (h : heap) b m direction move :
  boardAt h b m → is4x4 m → moveOf direction = Some move →
  post (move b) h (λ '(newBoard, totalScore) h',
    ∃ ls m1, lines direction m = Some ls ∧ boardAt h' newBoard m1 ∧
      lines direction m1
        = Some (map (λ line, (slideAndMergeLine line).1) ls) ∧
      totalScore = sumZ (map (λ line, (slideAndMergeLine line).2) ls)).
Proof.
  intros Hb Hm Hmove. eapply move_post; [done..|].
  intros dmove m1 s newBoard h1 Hd Hdm Hm1 Hsub Hnew.
  destruct (lines_4x4 direction m) as (ls & Hls & Hls4); [by eexists|done|].
  destruct (moveOf_lines _ _ _ _ Hd Hm Hls) as (m1' & Hdm' & _ & Hl1).
  assert (m1' = m1 ∧ s = (Den.moveLeft ls).2) as [-> ->]
    by (split; congruence).
  exists ls, m1. split_and!; [done| |done..].
  by eapply newBoardAt_boardAt.
Qed.

Lemma move_by_lines_witness :
  boardAt sampleHeap 4%nat sampleBoard ∧
  post (moveDown 4%nat) sampleHeap (λ '(newBoard, totalScore) h',
    ∃ ls m1, lines "down" sampleBoard = Some ls ∧ boardAt h' newBoard m1 ∧
      lines "down" m1
        = Some (map (λ line, (slideAndMergeLine line).1) ls) ∧
      totalScore = sumZ (map (λ line, (slideAndMergeLine line).2) ls)).
Proof.
  split; [exact (properBoardAt_boardAt _ _ _ sample_proper)|].
  exact (move_by_lines sampleHeap 4%nat sampleBoard "down" moveDown
           (properBoardAt_boardAt _ _ _ sample_proper) sample_4x4 eq_refl).
Defined.

(** X2.  After a move no tile is left behind an empty cell: on every
    line of the returned board, read from the wall the move pushes to,
    a cell that follows an empty cell is empty. *)
Theorem move_packed (h : heap) b m direction move :
  boardAt h b m → is4x4 m → moveOf direction = Some move →
  post (move b) h (λ '(newBoard, _) h',
    ∃ m1 ls, boardAt h' newBoard m1 ∧ lines direction m1 = Some ls ∧
      ∀ p q v, cell ls p q = Some 0 → cell ls p (q + 1) = Some v → v = 0).
Proof.
  intros Hb Hm Hmove. eapply move_post; [done..|].
  intros dmove m1 s newBoard h1 Hd Hdm Hm1 Hsub Hnew.
  destruct (lines_4x4 direction m) as (ls & Hls & Hls4); [by eexists|done|].
  destruct (moveOf_lines _ _ _ _ Hd Hm Hls) as (m1' & Hdm' & _ & Hl1).
  assert (m1' = m1) as -> by congruence.
  exists m1, (Den.moveLeft ls).1. split_and!; [|done|].
  - by eapply newBoardAt_boardAt.
  - intros p q v. apply moveLeft_packed.
Qed.

Lemma move_packed_witness :
  boardAt sampleHeap 4%nat sampleBoard ∧
  post (moveUp 4%nat) sampleHeap (λ '(newBoard, _) h',
    ∃ m1 ls, boardAt h' newBoard m1 ∧ lines "up" m1 = Some ls ∧
      ∀ p q v, cell ls p q = Some 0 → cell ls p (q + 1) = Some v → v = 0).
Proof.
  split; [exact (properBoardAt_boardAt _ _ _ sample_proper)|].
  exact (move_packed sampleHeap 4%nat sampleBoard "up" moveUp
           (properBoardAt_boardAt _ _ _ sample_proper) sample_4x4 eq_refl).
Defined.

(** X3.  The row [moveRowLeft] returns, for a row of any length: its
    tiles come first and zeros after them; it has [GRID_SIZE] cells, or
    as many as it has tiles when these are more, so that a long row is
    never cut; it has no more tiles than the given row and at least
    half as many, a merge joining two tiles and a merged tile not
    merging again. *)
Theorem moveRowLeft_row_shape (h : heap) row xs :
  h !! row = Some (Row xs) →
  post (moveRowLeft row) h (λ '(newRow, _) h',
    ∃ nz k, h' !! newRow = Some (Row (nz ++ replicate k 0)) ∧
      Forall (λ v, v ≠ 0) nz ∧
      length (nz ++ replicate k 0) = (GRID_SIZE `max` length nz)%nat ∧
      (length nz ≤ tiles xs)%nat ∧ (tiles xs ≤ 2 * length nz)%nat).
Proof.
  intros Hrow. eapply post_mono; [by apply moveRowLeft_spec|].
  intros [newRow score] h' (_ & _ & Hnew & _).
  destruct (slideAndMergeLine_shape xs) as (nz & k & Heq & Hnz & _ & _).
  pose proof (slideAndMergeLine_length_max xs) as Hlen.
  pose proof (tiles_slideAndMergeLine xs) as Ht.
  assert (Htiles : tiles (slideAndMergeLine xs).1 = length nz).
  { rewrite Heq. unfold tiles.
    by rewrite nonZero_app, nonZero_replicate_0, app_nil_r, nonZero_id. }
  rewrite Htiles in Hlen, Ht. rewrite Heq in Hnew, Hlen.
  exists nz, k. split_and!; [done..|lia|lia].
Qed.

Lemma moveRowLeft_row_shape_witness :
  ({[0%nat := Row [2; 2; 2; 2; 2]]} : heap) !! 0%nat
    = Some (Row [2; 2; 2; 2; 2]) ∧
  post (moveRowLeft 0%nat) {[0%nat := Row [2; 2; 2; 2; 2]]}
    (λ '(newRow, _) h',
      ∃ nz k, h' !! newRow = Some (Row (nz ++ replicate k 0)) ∧
        Forall (λ v, v ≠ 0) nz ∧
        length (nz ++ replicate k 0) = (GRID_SIZE `max` length nz)%nat ∧
        (length nz ≤ tiles [2; 2; 2; 2; 2]%Z)%nat ∧
        (tiles [2; 2; 2; 2; 2]%Z ≤ 2 * length nz)%nat).
Proof.
  split; [reflexivity|].
  apply (moveRowLeft_row_shape _ 0%nat [2; 2; 2; 2; 2]). reflexivity.
Defined.

(** X4.  Scores are bounded by what is on the board: on a row whose
    cells are not negative, [moveRowLeft] returns a score between 0 and
    the sum of the row; on a 4 by 4 board of tile values each move
    returns a score between 0 and the total of the board. *)
Theorem score_bounds (h : heap) row xs b m direction move :
  h !! row = Some (Row xs) → Forall (λ v, 0 ≤ v) xs →
  boardAt h b m → is4x4 m → allTiles m → moveOf direction = Some move →
  post (moveRowLeft row) h (λ '(_, score) _, 0 ≤ score ≤ sumZ xs) ∧
  post (move b) h (λ '(_, totalScore) _, 0 ≤ totalScore ≤ sumAll m).
Proof.
  intros Hrow Hxs Hb Hm Ht Hmove. split.
  - eapply post_mono; [by apply moveRowLeft_spec|].
    intros [newRow score] h' (_ & _ & _ & ->).
    by apply slideAndMergeLine_score_bounds.
  - eapply move_post; [done..|].
    intros dmove m1 s newBoard h1 Hd Hdm _ _ _.
    by eapply moveOf_score_bounds.
Qed.

Lemma sample_tiles : allTiles sampleBoard.
Proof. apply (bool_decide_unpack _). by vm_compute. Qed.

Lemma score_bounds_witness :
  boardAt sampleHeap 4%nat sampleBoard ∧ allTiles sampleBoard ∧
  post (moveRowLeft 0%nat) sampleHeap
    (λ '(_, score) _, 0 ≤ score ≤ sumZ [2; 2; 0; 0]) ∧
  post (moveRight 4%nat) sampleHeap
    (λ '(_, totalScore) _, 0 ≤ totalScore ≤ sumAll sampleBoard).
Proof.
  split; [exact (properBoardAt_boardAt _ _ _ sample_proper)|].
  split; [exact sample_tiles|].
  apply (score_bounds sampleHeap 0%nat [2; 2; 0; 0] 4%nat sampleBoard
           "right" moveRight);
    [reflexivity|repeat constructor; lia
    |exact (properBoardAt_boardAt _ _ _ sample_proper)
    |exact sample_4x4|exact sample_tiles|reflexivity].
Defined.

(** ** Scores and merges *)

Lemma mergePass_score_merge l :
  Forall (λ v, 0 < v) l →
  (mergePass l).2 = 0 ↔ length (nonZero (mergePass l).1) = length l.
Proof.
  induction l as [|a|a rest IH|a b rest Hne IH] using mergePass_ind';
    intros Hl.
  - done.
  - apply Forall_cons in Hl as [Ha _]. unfold nonZero. cbn [mergePass fst snd].
    rewrite filter_cons, decide_True by lia. done.
  - apply Forall_cons in Hl as [Ha Hl]. apply Forall_cons in Hl as [_ Hl].
    rewrite mergePass_merge. cbn [fst snd].
    assert (Hnn : Forall (λ v, 0 ≤ v) rest).
    { eapply Forall_impl; [exact Hl|]. intros; cbn in *; lia. }
    assert (Hnz : Forall (λ v, v ≠ 0) rest).
    { eapply Forall_impl; [exact Hl|]. intros; cbn in *; lia. }
    pose proof (mergePass_score_bounds rest Hnn).
    pose proof (mergePass_tiles_bounds rest Hnz) as [Hle _].
    unfold nonZero in *.
    rewrite filter_cons, decide_True by lia.
    rewrite filter_cons, decide_False by (intros H'; by apply H').
    cbn [length]. split; intros; lia.
  - apply Forall_cons in Hl as [Ha Hl].
    rewrite mergePass_skip by done. cbn [fst snd]. unfold nonZero in *.
    rewrite filter_cons, decide_True by lia. cbn [length] in *.
    rewrite (IH Hl). split; intros; lia.
Qed.

Lemma nonZero_pos l : Forall (λ v, 0 ≤ v) l → Forall (λ v, 0 < v) (nonZero l).
Proof.
  intros Hl. pose proof (nonZero_Forall l) as Hnz.
  pose proof (nonZero_nonneg l Hl) as Hnn.
  rewrite Forall_forall in *. intros v Hv.
  specialize (Hnz v Hv). specialize (Hnn v Hv). cbn in *. lia.
Qed.

Lemma slideAndMergeLine_score_merge xs :
  Forall (λ v, 0 ≤ v) xs →
  (slideAndMergeLine xs).2 = 0 ↔ tiles (slideAndMergeLine xs).1 = tiles xs.
Proof.
  intros Hxs. unfold tiles.
  rewrite slideAndMergeLine_snd, slideAndMergeLine_fst, nonZero_padTo.
  rewrite (nonZero_id (nonZero (mergePass _).1)) by apply nonZero_Forall.
  by apply mergePass_score_merge, nonZero_pos.
Qed.

(** X5.  On a row whose cells are not negative, [moveRowLeft] scores
    exactly when it merges: the score is 0 when the returned row has
    as many tiles as the given one, and more than 0 when it has
    fewer. *)
Theorem moveRowLeft_score_iff_merge (h : heap) row xs :
  h !! row = Some (Row xs) → Forall (λ v, 0 ≤ v) xs →
  post (moveRowLeft row) h (λ '(newRow, score) h',
    ∃ ys, h' !! newRow = Some (Row ys) ∧
      (score = 0 ↔ tiles ys = tiles xs) ∧
      (score > 0 ↔ (tiles ys < tiles xs)%nat)).
Proof.
  intros Hrow Hxs. eapply post_mono; [by apply moveRowLeft_spec|].
  intros [newRow score] h' (_ & _ & Hnew & ->).
  exists (slideAndMergeLine xs).1. split; [done|].
  pose proof (slideAndMergeLine_score_merge xs Hxs) as Hiff.
  pose proof (slideAndMergeLine_score_bounds xs Hxs) as Hb.
  pose proof (tiles_slideAndMergeLine xs) as [Hle _].
  split; [done|]. split; intros; [|lia].
  destruct (decide (tiles (slideAndMergeLine xs).1 = tiles xs)) as [He|He];
    [|lia].
  apply Hiff in He. lia.
Qed.

Lemma moveRowLeft_score_iff_merge_witness :
  sampleHeap !! 2%nat = Some (Row [0; 4; 0; 4]) ∧
  post (moveRowLeft 2%nat) sampleHeap (λ '(newRow, score) h',
    ∃ ys, h' !! newRow = Some (Row ys) ∧
      (score = 0 ↔ tiles ys = tiles [0; 4; 0; 4]) ∧
      (score > 0 ↔ (tiles ys < tiles [0; 4; 0; 4]%Z)%nat)).
Proof.
  split; [reflexivity|].
  apply (moveRowLeft_score_iff_merge sampleHeap 2%nat [0; 4; 0; 4]);
    [reflexivity|repeat constructor; lia].
Defined.

(** ** [transpose], and boards without cells *)

Lemma run_bind {A B} (c : M A) (k : A → M B) (h h' : heap) a :
  c h = Some (a, h') → (c ≫= k) h = k a h'.
Proof. intros Hc. unfold mbind, M_bind. by rewrite Hc. Qed.

Lemma run_bind_None {A B} (c : M A) (k : A → M B) (h : heap) :
  c h = None → (c ≫= k) h = None.
Proof. intros Hc. unfold mbind, M_bind. by rewrite Hc. Qed.

Lemma rect_0 k m : rect 0 k m → m = [].
Proof. intros [Hlen _]. by destruct m. Qed.

Lemma transpose_empty_rows n m :
  rect n 0 m → (1 ≤ n)%nat → Den.transpose m = Some [].
Proof.
  intros Hm Hn. destruct (transpose_rect n 0%nat m Hm Hn) as (t & Ht & Hr & _).
  by rewrite (rect_0 _ _ Hr) in Ht.
Qed.

Lemma transpose_throws (h : heap) b :
  h !! b = Some (Mat []) → transpose b h = None.
Proof.
  intros Hb. unfold transpose.
  rewrite (run_bind _ _ h h []); [by apply run_bind_None|].
  unfold getMat. by rewrite Hb.
Qed.

(** X6.  [transpose] on a board of [n] rows of [k] cells, [n] and [k]
    at least 1, returns a new board of [k] rows of [n] cells whose
    cell [(i, j)] is the cell [(j, i)] of the given board, and
    transposing that board gives a new board with the cells of the
    first; the given board is still in the store. *)
Theorem transpose_round_trip (h : heap) b m n k :
  boardAt h b m → rect n k m → (1 ≤ n)%nat → (1 ≤ k)%nat →
  post (transpose b) h (λ t h1,
    ∃ mt, newBoardAt h h1 t mt ∧ rect k n mt ∧
      (∀ i j, cell mt i j = cell m j i) ∧
      post (transpose t) h1 (λ b' h',
        newBoardAt h h' b' m ∧ boardAt h' b m)).
Proof.
  intros Hb Hm Hn Hk.
  destruct (transpose_rect n k m Hm Hn) as (mt & Ht & Hr & Hc).
  pose proof (transpose_involutive n k m mt Hm Hn Hk Ht) as Hback.
  eapply post_mono; [by eapply transpose_spec|].
  intros t h1 [Hsub1 Hnew1]. exists mt. split_and!; [done..|].
  eapply post_mono.
  { eapply transpose_spec; [by eapply newBoardAt_boardAt|done]. }
  intros b' h' [Hsub2 Hnew2]. split.
  - eapply newBoardAt_dom; [|done]. by apply subseteq_dom.
  - eapply (boardAt_weaken h); [by etrans|done].
Qed.

Lemma transpose_round_trip_witness :
  ({[0%nat := Row [1; 2; 3]; 1%nat := Row [4; 5; 6];
     2%nat := Mat [0; 1]%nat]} : heap) !! 2%nat = Some (Mat [0; 1]%nat) ∧
  post (transpose 2%nat)
    {[0%nat := Row [1; 2; 3]; 1%nat := Row [4; 5; 6];
      2%nat := Mat [0; 1]%nat]} (λ t h1,
    ∃ mt, boardAt h1 t mt ∧ (∀ i j, cell mt i j = cell [[1; 2; 3]; [4; 5; 6]] j i) ∧
       post (transpose t) h1 (λ b' h',
         boardAt h' b' [[1; 2; 3]; [4; 5; 6]])).
Proof.
  split; [reflexivity|].
  eapply post_mono.
  - apply (transpose_round_trip _ 2%nat [[1; 2; 3]; [4; 5; 6]] 2 3).
    + exists [0; 1]%nat. split; [reflexivity|]. by repeat constructor.
    + split; [reflexivity|]. by repeat constructor.
    + lia.
    + lia.
  - intros t h1 (mt & Hnew & _ & Hc & Hback). exists mt.
    split_and!; [by eapply newBoardAt_boardAt|done|].
    eapply post_mono; [exact Hback|].
    intros b' h' [Hnew' _]. by eapply newBoardAt_boardAt.
Defined.

(** X7.  Boards without cells.  On a board with no rows [moveLeft] and
    [moveRight] return a new board with no rows and the score 0, while
    [transpose], [moveUp] and [moveDown] fail, [board[0]] being
    undefined.  On a board whose rows are all empty [transpose] returns
    a board with no rows, on which it then fails. *)
Theorem boards_without_cells (h : heap) b m n :
  boardAt h b m → rect n 0 m →
  (n = 0%nat →
     transpose b h = None ∧ moveUp b h = None ∧ moveDown b h = None ∧
     post (moveLeft b) h (λ '(newBoard, totalScore) h',
       newBoardAt h h' newBoard [] ∧ totalScore = 0) ∧
     post (moveRight b) h (λ '(newBoard, totalScore) h',
       newBoardAt h h' newBoard [] ∧ totalScore = 0)) ∧
  ((1 ≤ n)%nat →
     post (transpose b) h (λ t h',
       newBoardAt h h' t [] ∧ transpose t h' = None)).
Proof.
  intros Hb Hm. split.
  - intros ->. apply rect_0 in Hm as ->.
    assert (Hnil : h !! b = Some (Mat [])).
    { destruct Hb as (rs & Hrs & Hrows). by inv Hrows. }
    pose proof (transpose_throws h b Hnil) as Ht.
    split_and!; [done| | | |].
    + unfold moveUp. by apply run_bind_None.
    + unfold moveDown. by apply run_bind_None.
    + eapply post_mono; [by apply moveLeft_spec|].
      by intros [newBoard totalScore] h' (_ & Hnew & ->).
    + eapply post_mono; [by apply moveRight_spec|].
      by intros [newBoard totalScore] h' (_ & Hnew & ->).
  - intros Hn. eapply post_mono.
    { eapply transpose_spec; [done|by eapply transpose_empty_rows]. }
    intros t h' [_ Hnew]. split; [done|].
    apply transpose_throws. destruct Hnew as (rs & Hrs & Hrows & _).
    by inv Hrows.
Qed.

Lemma boards_without_cells_witness :
  boardAt ({[0%nat := Mat []]} : heap) 0%nat [] ∧
  transpose 0%nat ({[0%nat := Mat []]} : heap) = None ∧
  post (moveLeft 0%nat) ({[0%nat := Mat []]} : heap)
    (λ '(newBoard, totalScore) h',
       newBoardAt {[0%nat := Mat []]} h' newBoard [] ∧ totalScore = 0).
Proof.
  assert (Hb : boardAt ({[0%nat := Mat []]} : heap) 0%nat []).
  { exists []. split; [reflexivity|constructor]. }
  assert (Hr : rect 0 0 []) by (split; [reflexivity|constructor]).
  pose proof (proj1 (boards_without_cells _ 0%nat [] 0%nat Hb Hr) eq_refl)
    as (Ht & _ & _ & Hl & _).
  split_and!; done.
Defined.

(** ** [arraysEqual] on boards of any shape *)

Lemma forIn_app {R} idx idx' (body : nat → option (ctl R)) :
  forIn idx body = Some Next →
  forIn (idx ++ idx') body = forIn idx' body.
Proof.
  induction idx as [|i idx IH]; [done|]. cbn.
  destruct (body i) as [[|r]|]; [|done..]. apply IH.
Qed.

Lemma arraysEqual_row_body (a b : list (list Z)) i :
  (i < length a)%nat → (i < length b)%nat →
  (ai ← a !! i;
   forIn (seq 0 (length ai)) (λ j,
     bi ← b !! i;
     if decide (ai !! j ≠ bi !! j) then Some (Return false)
     else Some Next)) =
  Some (if rowDiffers a b i then Return false else Next).
Proof.
  intros Ha Hb. unfold rowDiffers.
  destruct (lookup_lt_is_Some_2 a i Ha) as [ai Hai].
  destruct (lookup_lt_is_Some_2 b i Hb) as [bi Hbi].
  rewrite Hai, Hbi. cbn.
  rewrite (forIn_ext _ _
    (λ j, Some (if bool_decide (ai !! j ≠ bi !! j)
                then Return false else Next))).
  2: { intros j _. by case_decide; case_bool_decide. }
  by rewrite forIn_test.
Qed.

Lemma rowDiffers_false a b i :
  (i < length a)%nat → (i < length b)%nat →
  rowDiffers a b i = false ↔
  ∀ j v, cell a i j = Some v → cell b i j = Some v.
Proof.
  intros Ha Hb. unfold rowDiffers, cell.
  destruct (lookup_lt_is_Some_2 a i Ha) as [ai Hai].
  destruct (lookup_lt_is_Some_2 b i Hb) as [bi Hbi].
  rewrite Hai, Hbi. cbn. rewrite existsb_false. split.
  - intros Hall j v Hv.
    assert (Hj : (j < length ai)%nat) by by eapply lookup_lt_Some.
    specialize (Hall j (proj2 (elem_of_seq_0 _ _) Hj)).
    apply bool_decide_eq_false in Hall. apply dec_stable in Hall. congruence.
  - intros Hall j Hj%elem_of_seq_0. apply bool_decide_eq_false.
    intros Hne. apply Hne.
    destruct (lookup_lt_is_Some_2 ai j Hj) as [v Hv].
    rewrite Hv. symmetry. by apply Hall.
Qed.

Lemma arraysEqual_one_sided_val a b :
  (length a ≤ length b)%nat →
  ∃ r, Val.arraysEqual a b = Some r ∧
    (r = true ↔ ∀ i j v, cell a i j = Some v → cell b i j = Some v).
Proof.
  intros Hlen. unfold Val.arraysEqual.
  rewrite (forIn_ext _ _
    (λ i, Some (if rowDiffers a b i then Return false else Next))).
  2: { intros i Hi%elem_of_seq_0. apply arraysEqual_row_body; lia. }
  rewrite forIn_test. cbn.
  destruct (existsb _ _) eqn:Hex; eexists; (split; [done|]).
  - split; [done|]. intros Hall.
    apply existsb_true in Hex as (i & Hi%elem_of_seq_0 & Hd).
    assert (Hf : rowDiffers a b i = false).
    { apply rowDiffers_false; [lia..|]. apply Hall. }
    congruence.
  - split; [|done]. intros _ i j v Hv.
    assert (Hi : (i < length a)%nat).
    { unfold cell in Hv. apply bind_Some in Hv as (row & Hrow & _).
      by eapply lookup_lt_Some. }
    pose proof (proj1 (existsb_false _ _) Hex i
                  (proj2 (elem_of_seq_0 _ _) Hi)) as Hf.
    by apply (proj1 (rowDiffers_false a b i Hi ltac:(lia)) Hf).
Qed.

Lemma arraysEqual_throws_val a b row :
  (∀ i j v, (i < length b)%nat → cell a i j = Some v → cell b i j = Some v) →
  a !! length b = Some row → row ≠ [] →
  Val.arraysEqual a b = None.
Proof.
  intros Hall Hrow Hne. unfold Val.arraysEqual.
  assert (Hlt : (length b < length a)%nat) by by eapply lookup_lt_Some.
  replace (length a) with (length b + (length a - length b))%nat by lia.
  rewrite seq_app, forIn_app.
  - destruct (length a - length b)%nat as [|n] eqn:Hn; [lia|].
    cbn [seq forIn]. rewrite Nat.add_0_l, Hrow. cbn [mbind option_bind].
    destruct row as [|v row]; [done|]. cbn [length seq forIn].
    by rewrite (lookup_ge_None_2 b (length b)).
  - rewrite (forIn_ext _ _
      (λ i, Some (if rowDiffers a b i then Return false else Next))).
    2: { intros i Hi%elem_of_seq_0. apply arraysEqual_row_body; lia. }
    rewrite forIn_test.
    destruct (existsb _ _) eqn:Hex; [|done].
    apply existsb_true in Hex as (i & Hi%elem_of_seq_0 & Hd).
    assert (Hf : rowDiffers a b i = false).
    { apply rowDiffers_false; [lia..|]. intros j v. by apply Hall. }
    congruence.
Qed.

(** X8.  [arraysEqual(a, b)] looks only at the cells of [a].  When [b]
    has at least as many rows as [a] it returns, leaving the store as
    it is, and it returns [true] exactly when every cell of [a] is in
    [b] at the same place with the same value, whatever else [b]
    holds.  When [b] has fewer rows, agrees with [a] on them, and the
    next row of [a] has a cell, the call fails: [b[i]] is undefined
    there. *)
Theorem arraysEqual_one_sided (h : heap) a b ma mb :
  boardAt h a ma → boardAt h b mb →
  ((length ma ≤ length mb)%nat →
     post (arraysEqual a b) h (λ r h',
       h' = h ∧
       (r = true ↔
          ∀ i j v, cell ma i j = Some v → cell mb i j = Some v))) ∧
  (∀ row,
     (∀ i j v, (i < length mb)%nat →
        cell ma i j = Some v → cell mb i j = Some v) →
     ma !! length mb = Some row → row ≠ [] →
     arraysEqual a b h = None).
Proof.
  intros Ha Hb. split.
  - intros Hlen.
    destruct (arraysEqual_one_sided_val ma mb Hlen) as (r & Hr & Hiff).
    eapply post_mono; [by eapply arraysEqual_spec|].
    by intros r' h' [-> ->].
  - intros row Hall Hrow Hne. unfold arraysEqual.
    destruct (proj1 (post_run _ _ _) (getBoard_spec a ma h Ha))
      as (ma' & h1 & Hrun1 & -> & ->).
    destruct (proj1 (post_run _ _ _) (getBoard_spec b mb h Hb))
      as (mb' & h2 & Hrun2 & -> & ->).
    rewrite (run_bind _ _ _ _ _ Hrun1), (run_bind _ _ _ _ _ Hrun2).
    unfold liftO. by rewrite (arraysEqual_throws_val ma mb row).
Qed.

Lemma arraysEqual_one_sided_witness :
  boardAt ({[0%nat := Row [2]; 1%nat := Mat [0%nat];
             2%nat := Row [2; 4]; 3%nat := Mat [2; 2]%nat]} : heap)
    1%nat [[2]] ∧
  boardAt ({[0%nat := Row [2]; 1%nat := Mat [0%nat];
             2%nat := Row [2; 4]; 3%nat := Mat [2; 2]%nat]} : heap)
    3%nat [[2; 4]; [2; 4]] ∧
  post (arraysEqual 1%nat 3%nat)
    {[0%nat := Row [2]; 1%nat := Mat [0%nat];
      2%nat := Row [2; 4]; 3%nat := Mat [2; 2]%nat]}
    (λ r _, r = true) ∧
  post (arraysEqual 3%nat 1%nat)
    {[0%nat := Row [2]; 1%nat := Mat [0%nat];
      2%nat := Row [2; 4]; 3%nat := Mat [2; 2]%nat]}
    (λ r _, r = false).
Proof.
  set (h := ({[0%nat := Row [2]; 1%nat := Mat [0%nat];
               2%nat := Row [2; 4]; 3%nat := Mat [2; 2]%nat]} : heap)).
  assert (Ha : boardAt h 1%nat [[2]]).
  { exists [0%nat]. split; [reflexivity|]. by repeat constructor. }
  assert (Hb : boardAt h 3%nat [[2; 4]; [2; 4]]).
  { exists [2; 2]%nat. split; [reflexivity|]. by repeat constructor. }
  split_and!; [done..| |].
  - eapply post_mono;
      [apply (proj1 (arraysEqual_one_sided h 1%nat 3%nat _ _ Ha Hb));
       cbn; lia|].
    intros r h' [_ Hiff]. apply Hiff.
    intros [|[|i]] [|[|j]] v; by inversion 1.
  - vm_compute. reflexivity.
Defined.

(** ** The initial board *)

Lemma zeroBoard_4x4 : is4x4 zeroBoard.
Proof. apply is4x4_intro. Qed.

Lemma cell_zeroBoard i j :
  (i < GRID_SIZE)%nat → (j < GRID_SIZE)%nat → cell zeroBoard i j = Some 0.
Proof.
  intros Hi Hj. unfold GRID_SIZE in Hi, Hj.
  destruct i as [|[|[|[|i]]]]; try lia;
    destruct j as [|[|[|[|j]]]]; try lia; reflexivity.
Qed.

Lemma getInitialBoard_den_spec u1 u2 u3 u4 (h : heap) :
  unit01 u1 → unit01 u3 →
  post (getInitialBoard u1 u2 u3 u4) h (λ b h',
    (h ⊆ h') ∧ ∃ m1 m2,
      Den.addRandomTile u1 u2 zeroBoard = Some m1 ∧
      Den.addRandomTile u3 u4 m1 = Some m2 ∧ newBoardAt h h' b m2).
Proof.
  intros Hu1 Hu3. unfold getInitialBoard.
  apply post_bind. eapply post_mono; [apply zeroRows_spec|].
  intros rows h1 (Hsub1 & Hrows & Hnd & Hfr).
  apply post_bind. eapply post_mono; [by apply (post_allocMat h)|].
  intros board h2 [Hsub2 Hnew2].
  assert (Hsub02 : h ⊆ h2) by by etrans.
  apply post_bind. eapply post_mono;
    [by eapply (addRandomTile_new_spec u1 u2 _ _ h)|].
  intros b1 h3 (Hsub3 & m1 & Hm1 & Hnew3).
  eapply post_mono; [by eapply (addRandomTile_new_spec u3 u4 _ _ h)|].
  intros b2 h4 (Hsub4 & m2 & Hm2 & Hnew4).
  split; [done|]. by exists m1, m2.
Qed.

(** A 4 by 4 board with at most two tiles has an empty cell. *)
Lemma third_cell_empty m x1 y1 x2 y2 :
  (∀ i j, (i < GRID_SIZE)%nat → (j < GRID_SIZE)%nat →
     (i, j) ≠ (x1, y1) → (i, j) ≠ (x2, y2) → cell m i j = Some 0) →
  ∃ i j, cell m i j = Some 0.
Proof.
  intros Hrest. unfold GRID_SIZE in Hrest.
  destruct (decide ((0, 0)%nat = (x1, y1))) as [H1|H1];
    destruct (decide ((0, 0)%nat = (x2, y2))) as [H2|H2];
    destruct (decide ((0, 1)%nat = (x1, y1))) as [H3|H3];
    destruct (decide ((0, 1)%nat = (x2, y2))) as [H4|H4];
    simplify_eq;
    first [ exists 0%nat, 0%nat; apply Hrest; [lia|lia|congruence|congruence]
          | exists 0%nat, 1%nat; apply Hrest; [lia|lia|congruence|congruence]
          | exists 0%nat, 2%nat; apply Hrest; [lia|lia|congruence|congruence] ].
Qed.

Lemma sumAll_zeroBoard : sumAll zeroBoard = 0.
Proof. reflexivity. Qed.

Lemma initial_two_tiles u1 u2 u3 u4 m1 m2 :
  unit01 u1 → unit01 u3 →
  Den.addRandomTile u1 u2 zeroBoard = Some m1 →
  Den.addRandomTile u3 u4 m1 = Some m2 →
  is4x4 m2 ∧ sumAll m2 = tileValue u2 + tileValue u4 ∧
  ∃ x1 y1 x2 y2, (x1, y1) ≠ (x2, y2) ∧
    cell m2 x1 y1 = Some (tileValue u2) ∧
    cell m2 x2 y2 = Some (tileValue u4) ∧
    ∀ i j, (i < GRID_SIZE)%nat → (j < GRID_SIZE)%nat →
      (i, j) ≠ (x1, y1) → (i, j) ≠ (x2, y2) → cell m2 i j = Some 0.
Proof.
  intros Hu1 Hu3 Hm1 Hm2.
  destruct (Den_addRandomTile_cases u1 u2 zeroBoard Hu1)
    as (m1' & Hm1' & [[Hnil _]|(_ & x1 & y1 & _ & Hc1 & ->)]).
  { exfalso. assert (Hin : (0, 0)%nat ∈ Val.emptyCells zeroBoard)
      by by apply cell_emptyCells.
    rewrite Hnil in Hin. by apply elem_of_nil in Hin. }
  assert (m1 = Den.setAt x1 y1 (tileValue u2) zeroBoard) as -> by congruence.
  clear Hm1'.
  destruct (is4x4_cell_range _ _ _ _ zeroBoard_4x4 Hc1) as [Hx1 Hy1].
  set (m1 := Den.setAt x1 y1 (tileValue u2) zeroBoard) in *.
  assert (Hm14 : is4x4 m1) by apply setAt_4x4, zeroBoard_4x4.
  assert (Hcell1 : ∀ i j, cell m1 i j =
            if decide (i = x1 ∧ j = y1) then Some (tileValue u2)
            else cell zeroBoard i j).
  { intros i j. unfold m1. rewrite cell_setAt.
    destruct (decide (i = x1 ∧ j = y1)) as [[-> ->]|Hne].
    - rewrite decide_True; [done|]. split_and!; [done..|]. by rewrite Hc1.
    - rewrite decide_False; [done|]. intros (? & ? & _). by apply Hne. }
  destruct (Den_addRandomTile_cases u3 u4 m1 Hu3)
    as (m2' & Hm2' & [[Hnil _]|(_ & x2 & y2 & _ & Hc2 & ->)]).
  { exfalso.
    destruct (third_cell_empty m1 x1 y1 x1 y1) as (i & j & Hij).
    - intros i j Hi Hj Hne _. rewrite Hcell1, decide_False.
      + by apply cell_zeroBoard.
      + intros [-> ->]. by apply Hne.
    - apply cell_emptyCells in Hij. rewrite Hnil in Hij.
      by apply elem_of_nil in Hij. }
  assert (m2 = Den.setAt x2 y2 (tileValue u4) m1) as -> by congruence.
  clear Hm2'.
  assert (Hne : (x1, y1) ≠ (x2, y2)).
  { intros [= <- <-]. rewrite Hcell1, decide_True in Hc2 by done.
    injection Hc2 as Hc2. by apply (tileValue_nonzero u2). }
  assert (Hcell2 : ∀ i j, cell (Den.setAt x2 y2 (tileValue u4) m1) i j =
            if decide (i = x2 ∧ j = y2) then Some (tileValue u4)
            else cell m1 i j).
  { intros i j. rewrite cell_setAt.
    destruct (decide (i = x2 ∧ j = y2)) as [[-> ->]|Hne'].
    - rewrite decide_True; [done|]. split_and!; [done..|]. by rewrite Hc2.
    - rewrite decide_False; [done|]. intros (? & ? & _). by apply Hne'. }
  split_and!.
  - by apply setAt_4x4.
  - rewrite (setAt_sum _ _ _ _ Hc2). unfold m1.
    rewrite (setAt_sum _ _ _ _ Hc1), sumAll_zeroBoard. lia.
  - exists x1, y1, x2, y2. split_and!; [done| | |].
    + rewrite Hcell2, decide_False, Hcell1, decide_True; [done..|].
      intros [-> ->]. by apply Hne.
    + by rewrite Hcell2, decide_True.
    + intros i j Hi Hj H1 H2.
      rewrite Hcell2, decide_False, Hcell1, decide_False.
      * by apply cell_zeroBoard.
      * intros [-> ->]. by apply H1.
      * intros [-> ->]. by apply H2.
Qed.

(** X9.  [getInitialBoard] returns a new 4 by 4 board with exactly two
    tiles: two different cells hold the two spawned values, each 2 or
    4, and every other cell is 0, so that the total of the board is
    the sum of the two values. *)
Theorem getInitialBoard_two_tiles (h : heap) u1 u2 u3 u4 :
  unit01 u1 → unit01 u3 →
  post (getInitialBoard u1 u2 u3 u4) h (λ b h',
    ∃ m x1 y1 x2 y2,
      newBoardAt h h' b m ∧ is4x4 m ∧ (x1, y1) ≠ (x2, y2) ∧
      cell m x1 y1 = Some (tileValue u2) ∧
      cell m x2 y2 = Some (tileValue u4) ∧
      (tileValue u2 = 2 ∨ tileValue u2 = 4) ∧
      (tileValue u4 = 2 ∨ tileValue u4 = 4) ∧
      (∀ i j, (i < GRID_SIZE)%nat → (j < GRID_SIZE)%nat →
         (i, j) ≠ (x1, y1) → (i, j) ≠ (x2, y2) → cell m i j = Some 0) ∧
      sumAll m = tileValue u2 + tileValue u4).
Proof.
  intros Hu1 Hu3. eapply post_mono; [by apply getInitialBoard_den_spec|].
  intros b h' (_ & m1 & m2 & Hm1 & Hm2 & Hnew).
  destruct (initial_two_tiles _ _ _ _ _ _ Hu1 Hu3 Hm1 Hm2)
    as (H4 & Hsum & x1 & y1 & x2 & y2 & Hne & Hc1 & Hc2 & Hrest).
  exists m2, x1, y1, x2, y2.
  split_and!; try done; apply tileValue_cases.
Qed.

Lemma getInitialBoard_two_tiles_witness :
  unit01 (1 # 2) ∧
  post (getInitialBoard 0 0 (1 # 2) (19 # 20)) ∅ (λ b h',
    ∃ m, boardAt h' b m ∧ sumAll m = 6).
Proof.
  assert (Hhalf : unit01 (1 # 2)) by by split.
  split; [done|]. eapply post_mono.
  - exact (getInitialBoard_two_tiles ∅ 0 0 (1 # 2) (19 # 20) unit01_0 Hhalf).
  - intros b h' (m & x1 & y1 & x2 & y2 & Hnew & _ & _ & _ & _ & _ & _ & _ &
                 Hsum).
    exists m. split; [by eapply newBoardAt_boardAt|]. by rewrite Hsum.
Defined.

(** ** Accepted moves *)

Lemma goodState_weaken (h h' : heap) st :
  h ⊆ h' → goodState h st → goodState h' st.
Proof.
  intros Hsub (m & Hb & ?). exists m. split; [|done].
  by eapply boardAt_weaken.
Qed.

Lemma handleMove_changed_spec direction dmove u1 u2 st m m1 s (h : heap) :
  boardAt h (board st) m → is4x4 m → unit01 u1 → gameOver st = false →
  Den.moveOf direction = Some dmove → dmove m = Some (m1, s) → m1 ≠ m →
  post (handleMove direction u1 u2 st) h (λ st' h',
    (h ⊆ h') ∧ accepted direction u1 u2 m h h' st st').
Proof.
  intros Hb Hm Hu Hover Hdmove Hdm Hne. unfold handleMove. rewrite Hover.
  destruct (moveOf direction) as [move|] eqn:Hmove.
  2: { exfalso. revert Hmove Hdmove. unfold moveOf, Den.moveOf.
       by repeat case_decide. }
  destruct (moveOf_4x4 _ _ m Hdmove Hm) as (m1' & s' & Hdm' & Hm1).
  assert (m1' = m1 ∧ s' = s) as [-> ->] by (split; congruence).
  apply post_bind. eapply post_mono; [by eapply move_spec|].
  intros [newBoard totalScore] h1 (Hsub1 & Hnew1 & ->).
  apply post_bind. eapply post_mono.
  { eapply arraysEqual_spec.
    - by eapply boardAt_weaken.
    - by eapply newBoardAt_boardAt.
    - by apply arraysEqual_4x4. }
  intros same h1' [-> ->].
  rewrite bool_decide_false by congruence. cbn [negb].
  apply post_bind. eapply post_mono;
    [by eapply (addRandomTile_new_spec u1 u2 _ _ h)|].
  intros boardWithNewTile h2 (Hsub2 & m2 & Hm2 & Hnew2).
  assert (Hm2' : is4x4 m2) by by eapply Den_addRandomTile_4x4.
  apply post_bind. eapply post_mono.
  { eapply isGameOver_spec; [by eapply newBoardAt_boardAt|].
    by apply isGameOver_4x4. }
  intros over h2' [-> ->]. apply post_ret. split; [done|].
  exists dmove, m1, s, m2.
  rewrite (isGameOver_4x4 m2) by done.
  destruct (negb (hasEmpty m2) && negb (hasEqualNeighbours m2)),
    (decide (score st + s > bestScore st));
    cbn; rewrite ?Hover; split_and!; try done; lia.
Qed.

Lemma accepted_spawn direction u1 u2 m (h h' : heap) st st' :
  is4x4 m → unit01 u1 → accepted direction u1 u2 m h h' st st' →
  ∃ m1 s m2 x y, (∃ dmove, Den.moveOf direction = Some dmove ∧
                    dmove m = Some (m1, s)) ∧
    is4x4 m1 ∧ cell m1 x y = Some 0 ∧
    m2 = Den.setAt x y (tileValue u2) m1 ∧
    newBoardAt h h' (board st') m2 ∧ is4x4 m2 ∧
    score st' = score st + s ∧
    bestScore st' = Z.max (bestScore st) (score st') ∧
    gameStarted st' = gameStarted st ∧
    Val.isGameOver m2 = Some (gameOver st').
Proof.
  intros Hm Hu (dmove & m1 & s & m2 & Hd & Hdm & Hne & Hadd & Hnew & Hm2 &
                Hs & Hbest & Hgs & Hover).
  destruct (moveOf_4x4 _ _ m Hd Hm) as (m1' & s' & Hdm' & Hm1).
  assert (m1' = m1) as -> by congruence.
  pose proof (moveOf_changed_empty _ _ _ _ _ Hd Hm Hdm Hne) as Hempty.
  destruct (Den_addRandomTile_cases u1 u2 m1 Hu)
    as (m2' & Hm2' & [[Hnil _]|(_ & x & y & _ & Hc & ->)]); [done|].
  assert (m2 = Den.setAt x y (tileValue u2) m1) as -> by congruence.
  exists m1, s, (Den.setAt x y (tileValue u2) m1), x, y.
  split_and!; try done. by exists dmove.
Qed.

(** X10.  A move that [handleMove] accepts always gets its tile.  In
    a game that is not over [handleMove] runs the move of the
    direction on the board of the state.  When the board the move
    returns has the cells of the given one, [handleMove] returns the
    state it was given.  When it differs, some cell of it is 0, and
    [handleMove] returns a state whose board is a new board: the board
    the move returned with one of its cells that were 0 set to the
    spawned value, 2 or 4, and every other cell as the move left it;
    its total is the total of the board before the key plus that
    value, and the score has grown by the score of the move. *)
Theorem handleMove_spawns (h : heap) st m direction move u1 u2 :
  boardAt h (board st) m → is4x4 m → unit01 u1 →
  gameOver st = false → moveOf direction = Some move →
  post (move (board st)) h (λ '(newBoard, totalScore) h1,
    ∃ m1, boardAt h1 newBoard m1 ∧
      (m1 = m → handleMove direction u1 u2 st h = Some (st, h1)) ∧
      (m1 ≠ m →
         (∃ i j, cell m1 i j = Some 0) ∧
         post (handleMove direction u1 u2 st) h (λ st' h',
           ∃ x y m2, cell m1 x y = Some 0 ∧
             newBoardAt h h' (board st') m2 ∧
             cell m2 x y = Some (tileValue u2) ∧
             (tileValue u2 = 2 ∨ tileValue u2 = 4) ∧
             (∀ i j, (i, j) ≠ (x, y) → cell m2 i j = cell m1 i j) ∧
             sumAll m2 = sumAll m + tileValue u2 ∧
             score st' = score st + totalScore))).
Proof.
  intros Hb Hm Hu Hover Hmove.
  destruct (move_compare direction move (board st) m h Hb Hm Hmove)
    as (dmove & m1 & s & newBoard & h1 & Hd & Hdm & Hm1 & Hrun & Hsub &
        Hnew & Heq).
  apply post_run. exists (newBoard, s), h1. split; [done|].
  exists m1. split; [by eapply newBoardAt_boardAt|]. split.
  - intros ->. unfold handleMove. rewrite Hover, Hmove.
    rewrite (run_bind _ _ _ _ _ Hrun). cbn beta iota.
    rewrite (run_bind _ _ _ _ _ Heq).
    by rewrite bool_decide_true.
  - intros Hne.
    pose proof (moveOf_changed_empty _ _ _ _ _ Hd Hm Hdm Hne) as Hempty.
    split.
    { destruct (Val.emptyCells m1) as [|[i j] cells] eqn:Hcells; [done|].
      exists i, j. apply cell_emptyCells. rewrite Hcells.
      apply list_elem_of_here. }
    eapply post_mono; [by eapply handleMove_changed_spec|].
    intros st' h' [_ Hacc].
    destruct (accepted_spawn _ _ _ _ _ _ _ _ Hm Hu Hacc)
      as (m1' & s' & m2 & x & y & (dmove' & Hd' & Hdm') & _ & Hc & -> &
          Hnew' & _ & Hs & _).
    assert (dmove' = dmove) as -> by congruence.
    assert (m1' = m1 ∧ s' = s) as [-> ->] by (split; congruence).
    pose proof (moveOf_sum _ _ _ _ _ Hd Hm Hdm) as Hsum.
    exists x, y, (Den.setAt x y (tileValue u2) m1).
    split_and!; [done|done| |apply tileValue_cases| | |done].
    + rewrite cell_setAt, decide_True; [done|]. by rewrite Hc.
    + intros i j Hij. rewrite cell_setAt, decide_False; [done|].
      intros (-> & -> & _). by apply Hij.
    + by rewrite (setAt_sum _ _ _ _ Hc), Hsum.
Qed.

Lemma handleMove_spawns_witness :
  boardAt sampleHeap 4%nat sampleBoard ∧
  post (handleMove "left" 0 0 (State true 4%nat 0 0 false)) sampleHeap
    (λ st' h',
      ∃ m2, boardAt h' (board st') m2 ∧
        sumAll m2 = sumAll sampleBoard + 2 ∧ score st' = 12).
Proof.
  assert (Hb : boardAt sampleHeap 4%nat sampleBoard)
    by exact (properBoardAt_boardAt _ _ _ sample_proper).
  split; [exact Hb|].
  assert (Hmove : moveOf "left" = Some moveLeft) by reflexivity.
  pose proof (handleMove_spawns sampleHeap (State true 4%nat 0 0 false)
                sampleBoard "left" moveLeft 0 0 Hb sample_4x4 unit01_0
                eq_refl Hmove) as Hx.
  destruct (proj1 (post_run _ _ _) Hx)
    as ([newBoard totalScore] & h1 & Hrun & m1 & Hb1 & _ & Hchanged).
  destruct (proj1 (post_run _ _ _) (moveLeft_spec 4%nat sampleBoard
                                      sampleHeap Hb))
    as ([newBoard' totalScore'] & h1' & Hrun' & _ & Hnew & Hs).
  cbn [board] in Hrun.
  assert (newBoard' = newBoard ∧ totalScore' = totalScore ∧ h1' = h1)
    as (-> & -> & ->) by (split_and!; congruence).
  assert (m1 = (Den.moveLeft sampleBoard).1) as ->.
  { eapply boardAt_inj; [done|]. by eapply newBoardAt_boardAt. }
  destruct Hchanged as [_ Hpost]; [by vm_compute|].
  eapply post_mono; [exact Hpost|].
  intros st' h' (x & y & m2 & _ & Hnew2 & _ & _ & _ & Hsum & Hscore).
  exists m2. split_and!; [by eapply newBoardAt_boardAt|exact Hsum|].
  rewrite Hscore, Hs. reflexivity.
Defined.

Lemma sumZ_nonzero l : sumZ l ≠ 0 → ∃ j v, l !! j = Some v ∧ v ≠ 0.
Proof.
  induction l as [|a l IH]; [done|]. cbn [sumZ foldr].
  change (foldr Z.add 0 l) with (sumZ l). intros Hs.
  destruct (decide (a = 0)) as [->|Ha].
  - destruct IH as (j & v & Hj & Hv); [lia|]. by exists (S j), v.
  - by exists 0%nat, a.
Qed.

Lemma sumAll_nonzero m :
  sumAll m ≠ 0 → ∃ i j v, cell m i j = Some v ∧ v ≠ 0.
Proof.
  induction m as [|row m IH]; [done|]. rewrite sumAll_cons. intros Hs.
  destruct (decide (sumZ row = 0)) as [Hr|Hr].
  - destruct IH as (i & j & v & Hc & Hv); [lia|]. by exists (S i), j, v.
  - destruct (sumZ_nonzero row Hr) as (j & v & Hj & Hv). by exists 0%nat, j, v.
Qed.

Lemma isGameOver_false_move m :
  is4x4 m → 0 < sumAll m → Val.isGameOver m = Some false →
  ∃ direction dmove m1 s,
    direction ∈ ["up"; "down"; "left"; "right"] ∧
    Den.moveOf direction = Some dmove ∧ dmove m = Some (m1, s) ∧ m1 ≠ m.
Proof.
  intros Hm Hsum Hover.
  destruct (moveOf_4x4 "up" Den.moveUp m eq_refl Hm) as (mu & su & Hmu & _).
  destruct (moveOf_4x4 "down" Den.moveDown m eq_refl Hm)
    as (md & sd & Hmd & _).
  destruct (moveOf_4x4 "left" (λ m, Some (Den.moveLeft m)) m eq_refl Hm)
    as (ml & sl & Hml & _).
  destruct (moveOf_4x4 "right" (λ m, Some (Den.moveRight m)) m eq_refl Hm)
    as (mr & sr & Hmr & _).
  destruct (decide (mu = m)) as [->|Hu].
  2: { exists "up", Den.moveUp, mu, su.
       split_and!; [apply list_elem_of_here|done..]. }
  destruct (decide (md = m)) as [->|Hd].
  2: { exists "down", Den.moveDown, md, sd.
       split_and!; [repeat constructor|done..]. }
  destruct (decide (ml = m)) as [->|Hl].
  2: { exists "left", (λ m, Some (Den.moveLeft m)), ml, sl.
       split_and!; [repeat constructor|done..]. }
  destruct (decide (mr = m)) as [->|Hr].
  2: { exists "right", (λ m, Some (Den.moveRight m)), mr, sr.
       split_and!; [repeat constructor|done..]. }
  exfalso. assert (Hstuck : stuck m).
  { intros direction dmove Hd. unfold Den.moveOf in Hd.
    repeat case_decide; simplify_eq; rewrite ?Hml, ?Hmr; eauto. }
  destruct (sumAll_nonzero m) as (i & j & v & Hc & Hv); [lia|].
  pose proof (stuck_isGameOver m Hm Hstuck) as Ht.
  rewrite Ht in Hover; [done|]. by exists i, j, v.
Qed.

(** ** What the controller keeps *)

Lemma allTiles_zeroBoard : allTiles zeroBoard.
Proof. apply Forall_replicate, Forall_replicate, isTile_0. Qed.

Lemma isGameOver_empty_cell m i j :
  is4x4 m → cell m i j = Some 0 → Val.isGameOver m = Some false.
Proof.
  intros Hm Hc. rewrite isGameOver_4x4 by done.
  destruct (is4x4_cell_range _ _ _ _ Hm Hc) as [Hi Hj].
  rewrite (proj2 (hasEmpty_true m)); [done|]. by exists i, j.
Qed.

Lemma initial_good u1 u2 u3 u4 m1 m2 :
  unit01 u1 → unit01 u3 →
  Den.addRandomTile u1 u2 zeroBoard = Some m1 →
  Den.addRandomTile u3 u4 m1 = Some m2 →
  is4x4 m2 ∧ allTiles m2 ∧ 0 < sumAll m2 ∧ Val.isGameOver m2 = Some false.
Proof.
  intros Hu1 Hu3 Hm1 Hm2.
  destruct (initial_two_tiles _ _ _ _ _ _ Hu1 Hu3 Hm1 Hm2)
    as (H4 & Hsum & x1 & y1 & x2 & y2 & _ & _ & _ & Hrest).
  split_and!; [done| | |].
  - eapply Den_addRandomTile_tiles; [exact Hm2|].
    eapply Den_addRandomTile_tiles; [exact Hm1|]. apply allTiles_zeroBoard.
  - rewrite Hsum.
    destruct (tileValue_cases u2), (tileValue_cases u4); lia.
  - destruct (third_cell_empty m2 x1 y1 x2 y2 Hrest) as (i & j & Hij).
    by eapply isGameOver_empty_cell.
Qed.

Lemma handleMove_good direction u1 u2 st (h : heap) :
  goodState h st → unit01 u1 →
  post (handleMove direction u1 u2 st) h (λ st' h',
    (h ⊆ h') ∧ goodState h' st' ∧ score st ≤ score st').
Proof.
  intros (m & Hb & Hm & Ht & Hsum & Hsc & Hover) Hu.
  eapply post_mono; [by apply handleMove_spec|].
  intros st' h' [Hsub [->|[_ Hacc]]].
  { split_and!; [done| |lia]. eapply goodState_weaken; [done|].
    by exists m. }
  destruct (accepted_spawn _ _ _ _ _ _ _ _ Hm Hu Hacc)
    as (m1 & s & m2 & x & y & (dmove & Hd & Hdm) & Hm1 & Hc & -> & Hnew &
        Hm2 & Hs & Hbest & _ & Hover').
  pose proof (moveOf_sum _ _ _ _ _ Hd Hm Hdm) as Hsum1.
  pose proof (moveOf_tiles _ _ _ _ _ Hd Hm Hdm Ht) as Ht1.
  pose proof (moveOf_score_bounds _ _ _ _ _ Hd Hm Ht Hdm) as Hsb.
  split_and!; [done| |lia].
  exists (Den.setAt x y (tileValue u2) m1). split_and!.
  - by eapply newBoardAt_boardAt.
  - done.
  - apply setAt_tiles; [apply isTile_tileValue|done].
  - rewrite (setAt_sum _ _ _ _ Hc), Hsum1.
    destruct (tileValue_cases u2); lia.
  - lia.
  - lia.
  - done.
Qed.

Lemma newGame_good u1 u2 u3 u4 st (h : heap) :
  unit01 u1 → unit01 u3 → 0 ≤ bestScore st →
  post (newGame u1 u2 u3 u4 st) h (λ st' h',
    (h ⊆ h') ∧ goodState h' st' ∧ gameStarted st' = gameStarted st).
Proof.
  intros Hu1 Hu3 Hbest. unfold newGame.
  apply post_bind. eapply post_mono; [by apply getInitialBoard_den_spec|].
  intros b h' (Hsub & m1 & m2 & Hm1 & Hm2 & Hnew). apply post_ret.
  destruct (initial_good _ _ _ _ _ _ Hu1 Hu3 Hm1 Hm2)
    as (H4 & Ht & Hsum & Hover).
  split_and!; [done| |done]. exists m2. cbn.
  split_and!; [by eapply newBoardAt_boardAt|done..].
Qed.

Lemma initialState_good u1 u2 u3 u4 (h : heap) :
  unit01 u1 → unit01 u3 →
  post (initialState u1 u2 u3 u4) h (λ st h', (h ⊆ h') ∧ goodState h' st).
Proof.
  intros Hu1 Hu3. unfold initialState.
  apply post_bind. eapply post_mono; [by apply getInitialBoard_den_spec|].
  intros b h' (Hsub & m1 & m2 & Hm1 & Hm2 & Hnew). apply post_ret.
  destruct (initial_good _ _ _ _ _ _ Hu1 Hu3 Hm1 Hm2)
    as (H4 & Ht & Hsum & Hover).
  split; [done|]. exists m2. cbn.
  split_and!; [by eapply newBoardAt_boardAt|done..].
Qed.

Lemma goodState_started (h : heap) g st :
  goodState h st → goodState h (setGameStarted g st).
Proof. done. Qed.

Lemma handle_good e st (h : heap) :
  goodState h st → validEvent e →
  post (handle e st) h (λ st' h', (h ⊆ h') ∧ goodState h' st').
Proof.
  intros Hg He. destruct e as [direction u1 u2|u1 u2 u3 u4|u1 u2 u3 u4|];
    cbn [handle validEvent] in *.
  - eapply post_mono; [by apply handleMove_good|]. by intros ? ? (? & ? & _).
  - destruct He as [Hu1 Hu3]. apply post_bind.
    eapply post_mono.
    { apply newGame_good; [done..|].
      destruct Hg as (m & _ & _ & _ & _ & ? & _). lia. }
    intros st' h' (Hsub & Hg' & _). apply post_ret.
    split; [done|]. by apply goodState_started.
  - destruct He as [Hu1 Hu3]. eapply post_mono.
    { apply newGame_good; [done..|].
      destruct Hg as (m & _ & _ & _ & _ & ? & _). lia. }
    by intros st' h' (Hsub & Hg' & _).
  - apply post_ret. split; [done|]. by apply goodState_started.
Qed.

Lemma handleAll_good es st (h : heap) :
  goodState h st → Forall validEvent es →
  post (handleAll es st) h (λ st' h', (h ⊆ h') ∧ goodState h' st').
Proof.
  intros Hg Hes. revert st h Hg.
  induction Hes as [|e es He _ IH]; intros st h Hg; cbn [handleAll].
  - by apply post_ret.
  - apply post_bind. eapply post_mono; [by apply handle_good|].
    intros st1 h1 [Hsub1 Hg1]. eapply post_mono; [by apply IH|].
    intros st2 h2 [Hsub2 Hg2]. split; [by etrans|done].
Qed.

(** X11.  What the controller keeps.  In the state of the first render
    and after any sequence of events, the board of the state is a 4 by
    4 board of tile values with at least one tile, the score is not
    negative and not above the best score, and the game-over flag is
    the value [isGameOver] returns on the board of the state. *)
Theorem controller_invariant (h : heap) u1 u2 u3 u4 es :
  unit01 u1 → unit01 u3 → Forall validEvent es →
  post (st0 ← initialState u1 u2 u3 u4; handleAll es st0) h (λ st h',
    (∃ m, boardAt h' (board st) m ∧ is4x4 m ∧ allTiles m ∧ 0 < sumAll m) ∧
    0 ≤ score st ≤ bestScore st ∧
    post (isGameOver (board st)) h' (λ r _, r = gameOver st)).
Proof.
  intros Hu1 Hu3 Hes. apply post_bind.
  eapply post_mono; [by apply initialState_good|].
  intros st0 h0 [_ Hg0]. eapply post_mono; [by apply handleAll_good|].
  intros st h' [_ (m & Hb & Hm & Ht & Hsum & Hsc & Hover)].
  split_and!; [by exists m|lia|lia|].
  eapply post_mono; [by eapply isGameOver_spec|]. by intros r ? [_ ->].
Qed.

Lemma controller_invariant_witness :
  unit01 (1 # 2) ∧
  Forall validEvent [Key "left" 0 0; Key "up" (1 # 2) 0; PlayButton] ∧
  post (st0 ← initialState 0 0 (1 # 2) 0;
        handleAll [Key "left" 0 0; Key "up" (1 # 2) 0; PlayButton] st0) ∅
    (λ st h', 0 ≤ score st ≤ bestScore st ∧
       post (isGameOver (board st)) h' (λ r _, r = gameOver st)).
Proof.
  assert (Hhalf : unit01 (1 # 2)) by by split.
  assert (Hes : Forall validEvent
                  [Key "left" 0 0; Key "up" (1 # 2) 0; PlayButton]).
  { repeat constructor; done. }
  split_and!; [done..|]. eapply post_mono.
  - exact (controller_invariant ∅ 0 0 (1 # 2) 0 _ unit01_0 Hhalf Hes).
  - by intros st h' (_ & ? & ?).
Defined.

(** X12.  No dead end.  In the state of the first render and after any
    sequence of events, when the game-over flag is not set there is an
    arrow key that [handleMove] accepts whatever the draws: for that
    direction and all draws it returns a state with a new board and a
    score that is not lower. *)
Theorem some_key_accepted (h : heap) u1 u2 u3 u4 es :
  unit01 u1 → unit01 u3 → Forall validEvent es →
  post (st0 ← initialState u1 u2 u3 u4; handleAll es st0) h (λ st h',
    gameOver st = false →
    ∃ direction, direction ∈ ["up"; "down"; "left"; "right"] ∧
      ∀ v1 v2, unit01 v1 →
        post (handleMove direction v1 v2 st) h' (λ st' h'',
          board st' ≠ board st ∧ (board st' ∉ dom h') ∧
          score st ≤ score st')).
Proof.
  intros Hu1 Hu3 Hes. apply post_bind.
  eapply post_mono; [by apply initialState_good|].
  intros st0 h0 [_ Hg0]. eapply post_mono; [by apply handleAll_good|].
  intros st h' [_ Hg] Hfalse.
  pose proof Hg as (m & Hb & Hm & Ht & Hsum & Hsc & Hover).
  rewrite Hfalse in Hover.
  destruct (isGameOver_false_move m Hm Hsum Hover)
    as (direction & dmove & m1 & s & Hin & Hd & Hdm & Hne).
  exists direction. split; [done|]. intros v1 v2 Hv1.
  pose proof (handleMove_changed_spec direction dmove v1 v2 st m m1 s h'
                Hb Hm Hv1 Hfalse Hd Hdm Hne) as Hacc.
  pose proof (handleMove_good direction v1 v2 st h' Hg Hv1) as Hgood.
  apply post_run in Hacc as (st' & h'' & Hrun & _ & Hacc).
  apply post_run in Hgood as (st'' & h''' & Hrun' & _ & _ & Hscore).
  assert (st'' = st' ∧ h''' = h'') as [-> ->] by (split; congruence).
  apply post_run. exists st', h''. split; [done|].
  destruct Hacc as (_ & _ & _ & m2 & _ & _ & _ & _ & Hnew & _).
  destruct Hnew as (rs & _ & _ & _ & Hfresh & _).
  split_and!; [|done..]. intros Heq. apply Hfresh. rewrite Heq.
  destruct Hb as (rs' & Hrs' & _). apply elem_of_dom. eauto.
Qed.

Lemma some_key_accepted_witness :
  unit01 (1 # 2) ∧ Forall validEvent [Key "left" 0 0] ∧
  post (st0 ← initialState 0 0 (1 # 2) 0; handleAll [Key "left" 0 0] st0) ∅
    (λ st h',
      gameOver st = false →
      ∃ direction, direction ∈ ["up"; "down"; "left"; "right"] ∧
        ∀ v1 v2, unit01 v1 →
          post (handleMove direction v1 v2 st) h' (λ st' h'',
            board st' ≠ board st ∧ (board st' ∉ dom h') ∧
            score st ≤ score st')).
Proof.
  assert (Hhalf : unit01 (1 # 2)) by by split.
  assert (Hes : Forall validEvent [Key "left" 0 0]).
  { repeat constructor; done. }
  split_and!; [done..|].
  exact (some_key_accepted ∅ 0 0 (1 # 2) 0 _ unit01_0 Hhalf Hes).
Defined.

(** ** Game over, and events without effect *)

Lemma moveOf_both direction :
  is_Some (moveOf direction) ↔ is_Some (Den.moveOf direction).
Proof.
  unfold moveOf, Den.moveOf. repeat case_decide; split; intros [? ?];
    by eauto.
Qed.

(** X13.  [isGameOver] and the moves.  On a 4 by 4 board with at least
    one tile, [isGameOver] returns [true] exactly when none of the
    four moves changes the board: each returns a board with the same
    cells, and the score 0. *)
Theorem isGameOver_iff_no_move (h : heap) b m :
  boardAt h b m → is4x4 m → (∃ i j v, cell m i j = Some v ∧ v ≠ 0) →
  post (isGameOver b) h (λ r _,
    r = true ↔
    ∀ direction move, moveOf direction = Some move →
      post (move b) h (λ '(newBoard, totalScore) h1,
        boardAt h1 newBoard m ∧ totalScore = 0)).
Proof.
  intros Hb Hm Htile.
  pose proof (isGameOver_4x4 m Hm) as H4.
  set (r0 := negb (hasEmpty m) && negb (hasEqualNeighbours m)) in H4.
  eapply post_mono; [by eapply isGameOver_spec|].
  intros r h' [-> ->]. split.
  - intros ->. intros direction move Hmove.
    eapply move_post; [done..|].
    intros dmove m1 s newBoard h1 Hd Hdm _ _ Hnew.
    pose proof (isGameOver_stuck m direction dmove Hm H4 Hd) as Hs.
    assert (m1 = m ∧ s = 0) as [-> ->] by (split; congruence).
    split; [by eapply newBoardAt_boardAt|done].
  - intros Hall.
    assert (Hstuck : stuck m).
    { intros direction dmove Hd.
      destruct (proj2 (moveOf_both direction)) as [move Hmove];
        [by eexists|].
      destruct (move_compare direction move b m h Hb Hm Hmove)
        as (dmove' & m1 & s & newBoard & h1 & Hd' & Hdm & _ & Hrun & _ &
            Hnew & _).
      assert (dmove' = dmove) as -> by congruence.
      destruct (proj1 (post_run _ _ _) (Hall direction move Hmove))
        as ([nb s'] & h1' & Hrun' & Hb' & _).
      assert (nb = newBoard ∧ h1' = h1) as [-> ->] by (split; congruence).
      exists s. rewrite Hdm. do 2 f_equal.
      eapply boardAt_inj; [by eapply newBoardAt_boardAt|done]. }
    pose proof (stuck_isGameOver m Hm Hstuck Htile) as Hover.
    congruence.
Qed.

Lemma checker_boardAt : boardAt checkerHeap 4%nat checkerBoard.
Proof.
  exists [0; 1; 2; 3]%nat. split; [reflexivity|]. by repeat constructor.
Qed.

Lemma isGameOver_iff_no_move_witness :
  boardAt checkerHeap 4%nat checkerBoard ∧
  (∃ i j v, cell checkerBoard i j = Some v ∧ v ≠ 0) ∧
  post (isGameOver 4%nat) checkerHeap (λ r _,
    r = true ↔
    ∀ direction move, moveOf direction = Some move →
      post (move 4%nat) checkerHeap (λ '(newBoard, totalScore) h1,
        boardAt h1 newBoard checkerBoard ∧ totalScore = 0)).
Proof.
  assert (Ht : ∃ i j v, cell checkerBoard i j = Some v ∧ v ≠ 0).
  { by exists 0%nat, 0%nat, 2. }
  split_and!; [exact checker_boardAt|exact Ht|].
  exact (isGameOver_iff_no_move checkerHeap 4%nat checkerBoard
           checker_boardAt (is4x4_intro _ _ _ _ _ _ _ _ _ _ _ _ _ _ _ _) Ht).
Defined.





(** ** The draws of the spawner *)

(** [Math.floor(u * n)] is [k] exactly for the draws [u] with
    [k <= u * n < k + 1]. *)
Lemma floorMul_interval u n k :
  (inject_Z k <= u * inject_Z (Z.of_nat n))%Q →
  (u * inject_Z (Z.of_nat n) < inject_Z (k + 1))%Q →
  floorMul u n = k.
Proof.
  intros Hle Hlt. unfold floorMul.
  set (x := (u * inject_Z (Z.of_nat n))%Q) in *.
  assert (H1 : k ≤ Qfloor x).
  { rewrite <-(Qfloor_Z k). by apply Qfloor_resp_le. }
  assert (H2 : Qfloor x < k + 1).
  { rewrite Zlt_Qlt. eapply Qle_lt_trans; [apply Qfloor_le|done]. }
  lia.
Qed.

Lemma Zpos_of_nat n : (0 < n)%nat → Z.pos (Pos.of_nat n) = Z.of_nat n.
Proof.
  intros Hn. destruct n as [|n]; [lia|].
  rewrite <-Pos.of_nat_succ, Zpos_P_of_succ_nat. lia.
Qed.

Lemma tileValue_low u : (u < 9 # 10)%Q → tileValue u = 2.
Proof.
  intros Hu. unfold tileValue. destruct (Qlt_le_dec u (9 # 10)); [done|].
  exfalso. by eapply Qlt_not_le.
Qed.

Lemma tileValue_high u : (9 # 10 <= u)%Q → tileValue u = 4.
Proof.
  intros Hu. unfold tileValue. destruct (Qlt_le_dec u (9 # 10)); [|done].
  exfalso. by eapply Qlt_not_le.
Qed.

Lemma mjoin_cons {A} (a : list A) (l : list (list A)) :
  mjoin (a :: l) = a ++ mjoin l.
Proof. done. Qed.

Lemma mjoin_imap_cons {A B} (f : nat → A → list B) a l :
  mjoin (imap f (a :: l)) = f 0%nat a ++ mjoin (imap (f ∘ S) l).
Proof. done. Qed.

Lemma rowCells_length {A} (g : nat → A) (row : list Z) :
  length (mjoin (imap (λ j c, if decide (c = 0) then [g j] else []) row)) =
  length (filter (λ v, v = 0) row).
Proof.
  revert g. induction row as [|c row IH]; intros g; [done|].
  rewrite mjoin_imap_cons, length_app, filter_cons.
  specialize (IH (g ∘ S)). unfold compose in *. cbv beta in *.
  rewrite IH. by case_decide.
Qed.

Lemma rowCells_lookup {A} (g : nat → A) (row : list Z) y :
  row !! y = Some 0 →
  mjoin (imap (λ j c, if decide (c = 0) then [g j] else []) row)
    !! length (filter (λ v, v = 0) (take y row)) = Some (g y).
Proof.
  revert g y. induction row as [|c row IH]; intros g y Hy; [done|].
  rewrite mjoin_imap_cons. destruct y as [|y].
  - cbn in Hy. injection Hy as ->. by rewrite decide_True.
  - cbn in Hy. cbn [take]. rewrite filter_cons.
    specialize (IH (g ∘ S) y Hy). unfold compose in *. cbv beta in *.
    by case_decide.
Qed.

Lemma zeros_take_lt (row : list Z) y :
  row !! y = Some 0 →
  (length (filter (λ v : Z, v = 0%Z) (take y row))
   < length (filter (λ v : Z, v = 0%Z) row))%nat.
Proof.
  revert y. induction row as [|c row IH]; intros y Hy; [done|].
  destruct y as [|y]; cbn in Hy.
  - injection Hy as ->. cbn [take]. rewrite filter_cons, decide_True by done.
    cbn. lia.
  - cbn [take]. rewrite !filter_cons. specialize (IH y Hy).
    case_decide; cbn [length]; lia.
Qed.

Lemma emptyCells_gen_length {A} (g : nat → nat → A) (m : list (list Z)) :
  length (mjoin (imap (λ i row,
      mjoin (imap (λ j c, if decide (c = 0) then [g i j] else []) row)) m)) =
  length (filter (λ v, v = 0) (mjoin m)).
Proof.
  revert g. induction m as [|row m IH]; intros g; [done|].
  rewrite mjoin_imap_cons, mjoin_cons, filter_app, !length_app.
  specialize (IH (g ∘ S)). unfold compose in *. cbv beta in *.
  by rewrite (rowCells_length (g 0%nat)), IH.
Qed.

Lemma emptyCells_gen_lookup {A} (g : nat → nat → A) (m : list (list Z))
    x y row :
  m !! x = Some row → row !! y = Some 0 →
  mjoin (imap (λ i row,
      mjoin (imap (λ j c, if decide (c = 0) then [g i j] else []) row)) m)
    !! (length (filter (λ v : Z, v = 0%Z) (mjoin (take x m))) +
        length (filter (λ v : Z, v = 0%Z) (take y row)))%nat = Some (g x y).
Proof.
  revert g x. induction m as [|r m IH]; intros g x Hx Hy; [done|].
  rewrite mjoin_imap_cons. destruct x as [|x].
  - cbn in Hx. injection Hx as ->. cbn [take mjoin filter length].
    rewrite lookup_app_l.
    + by apply (rowCells_lookup (g 0%nat)).
    + rewrite rowCells_length. cbn. by apply zeros_take_lt.
  - cbn in Hx. cbn [take]. rewrite mjoin_cons, filter_app, length_app.
    rewrite lookup_app_r by (rewrite (rowCells_length (g 0%nat)); lia).
    rewrite (rowCells_length (g 0%nat)).
    specialize (IH (g ∘ S) x Hx Hy). unfold compose in *. cbv beta in *.
    rewrite <-IH. f_equal. lia.
Qed.

Lemma zerosBefore_lt m x y :
  cell m x y = Some 0 → (zerosBefore m x y < zeros m)%nat.
Proof.
  intros (row & Hrow & Hy)%bind_Some. unfold zerosBefore, zeros.
  rewrite Hrow. change (default [] (Some row)) with row.
  assert (Hm : mjoin m = mjoin (take x m) ++ row ++ mjoin (drop (S x) m)).
  { rewrite <-(take_drop_middle m x row Hrow) at 1.
    by rewrite join_app, mjoin_cons. }
  rewrite Hm, !filter_app, !length_app.
  pose proof (zeros_take_lt row y Hy). lia.
Qed.

Lemma emptyCells_length m : length (Val.emptyCells m) = zeros m.
Proof. apply (emptyCells_gen_length (λ i j, (i, j))). Qed.

Lemma emptyCells_lookup m x y :
  cell m x y = Some 0 →
  Val.emptyCells m !! zerosBefore m x y = Some (x, y).
Proof.
  intros (row & Hrow & Hy)%bind_Some. unfold zerosBefore. rewrite Hrow.
  by apply (emptyCells_gen_lookup (λ i j, (i, j))).
Qed.

Lemma margin_unit01 u (k n : nat) :
  (k < n)%nat →
  (inject_Z (Z.of_nat k) + (1 # 4) <= u * inject_Z (Z.of_nat n))%Q →
  (u * inject_Z (Z.of_nat n) <= inject_Z (Z.of_nat k) + (3 # 4))%Q →
  unit01 u.
Proof.
  destruct u as [a p]. unfold unit01, Qle, Qlt, Qplus, Qmult, inject_Z.
  cbn [Qnum Qden]. rewrite !Pos2Z.inj_mul. intros Hk Hlo Hhi.
  pose proof (Pos2Z.is_pos p). split; nia.
Qed.

Lemma margin_floorMul u (k n : nat) :
  (inject_Z (Z.of_nat k) + (1 # 4) <= u * inject_Z (Z.of_nat n))%Q →
  (u * inject_Z (Z.of_nat n) <= inject_Z (Z.of_nat k) + (3 # 4))%Q →
  floorMul u n = Z.of_nat k.
Proof.
  intros Hlo Hhi. apply floorMul_interval.
  - eapply Qle_trans; [|exact Hlo].
    unfold Qle, Qplus, inject_Z. cbn [Qnum Qden]. lia.
  - eapply Qle_lt_trans; [exact Hhi|].
    unfold Qlt, Qplus, inject_Z. cbn [Qnum Qden]. lia.
Qed.

(** The draw in the middle of the share of [k]. *)
Lemma margin_middle (k n : nat) :
  (k < n)%nat →
  let u := ((2 * Z.of_nat k + 1) # (2 * Pos.of_nat n))%Q in
  (inject_Z (Z.of_nat k) + (1 # 4) <= u * inject_Z (Z.of_nat n))%Q ∧
  (u * inject_Z (Z.of_nat n) <= inject_Z (Z.of_nat k) + (3 # 4))%Q.
Proof.
  intros Hk. unfold Qle, Qplus, Qmult, inject_Z. cbn [Qnum Qden].
  rewrite !Pos2Z.inj_mul, Zpos_of_nat by lia. split; nia.
Qed.

(** X15.  How the draws choose.  On a 4 by 4 board with distinct rows
    let [n] be the number of cells that are 0 and [k] the number of
    those that come before a cell [(x, y)] that is 0, reading row by
    row.  Every first draw [u1] with [k + 1/4 <= u1 * n <= k + 3/4]
    (the draw [(2k + 1) / 2n] is one) is a number of [0, 1) and makes
    [addRandomTile] write the spawned value into the cell [(x, y)] of
    the board it was given and return a new board with that cell set
    and every other cell as before; the value is 2 for a second draw
    below 0.9 and 4 from 0.9 on.  So every empty cell can get either
    value, each cell for a share of the draws of the same size.  (The
    draws are taken a quarter away from the ends of the share of [k]:
    the product the code computes in floating point differs from the
    exact one by less than 2^-48, so there both have the same
    floor.) *)
Theorem addRandomTile_reaches (h : heap) b m x y :
  properBoardAt h b m → is4x4 m → cell m x y = Some 0 →
  (zerosBefore m x y < zeros m)%nat ∧
  (∃ u1,
     (inject_Z (Z.of_nat (zerosBefore m x y)) + (1 # 4)
        <= u1 * inject_Z (Z.of_nat (zeros m)))%Q ∧
     (u1 * inject_Z (Z.of_nat (zeros m))
        <= inject_Z (Z.of_nat (zerosBefore m x y)) + (3 # 4))%Q) ∧
  ∀ u1 u2,
    (inject_Z (Z.of_nat (zerosBefore m x y)) + (1 # 4)
       <= u1 * inject_Z (Z.of_nat (zeros m)))%Q →
    (u1 * inject_Z (Z.of_nat (zeros m))
       <= inject_Z (Z.of_nat (zerosBefore m x y)) + (3 # 4))%Q →
    unit01 u1 ∧
    ((u2 < 9 # 10)%Q → tileValue u2 = 2) ∧
    ((9 # 10 <= u2)%Q → tileValue u2 = 4) ∧
    post (addRandomTile u1 u2 b) h (λ b' h',
      ∃ m', newBoardAt h h' b' m' ∧ boardAt h' b m' ∧
        cell m' x y = Some (tileValue u2) ∧
        ∀ i j, (i, j) ≠ (x, y) → cell m' i j = cell m i j).
Proof.
  intros (rows & Hb & Hrows & Hnd) Hm Hc.
  pose proof (zerosBefore_lt m x y Hc) as Hlt.
  pose proof (emptyCells_lookup m x y Hc) as Hk.
  split; [done|]. split.
  { eexists. apply (margin_middle _ _ Hlt). }
  intros u1 u2 Hlo Hhi.
  split; [by eapply margin_unit01|].
  split; [apply tileValue_low|]. split; [apply tileValue_high|].
  eapply post_mono.
  { eapply (addRandomTile_spawn_spec u1 u2 b rows m x y); [done..| | |].
    - intros i rx Hx Hi. by eapply NoDup_lookup.
    - intros Hnil. by rewrite Hnil in Hk.
    - rewrite emptyCells_length, (margin_floorMul _ _ _ Hlo Hhi).
      unfold lookupZ. rewrite decide_True by lia. by rewrite Nat2Z.id. }
  intros b' h' (rx & xs & _ & _ & _ & _ & Hold & Hnew).
  exists (Den.setAt x y (tileValue u2) m). split_and!; [done..| |].
  - rewrite cell_setAt, decide_True; [done|]. by rewrite Hc.
  - intros i j Hij. rewrite cell_setAt, decide_False; [done|].
    intros (-> & -> & _). by apply Hij.
Qed.

Lemma addRandomTile_reaches_witness :
  properBoardAt sampleHeap 4%nat sampleBoard ∧
  cell sampleBoard 3 3 = Some 0 ∧
  zeros sampleBoard = 12%nat ∧ zerosBefore sampleBoard 3 3 = 11%nat ∧
  post (addRandomTile (15 # 16) (15 # 16) 4%nat) sampleHeap (λ b' h',
    ∃ m', newBoardAt sampleHeap h' b' m' ∧ boardAt h' 4%nat m' ∧
      cell m' 3 3 = Some 4 ∧
      ∀ i j, (i, j) ≠ (3, 3)%nat → cell m' i j = cell sampleBoard i j).
Proof.
  split; [exact sample_proper|]. do 3 (split; [reflexivity|]).
  destruct (addRandomTile_reaches sampleHeap 4%nat sampleBoard 3 3
              sample_proper sample_4x4 eq_refl) as (_ & _ & Hall).
  by apply (Hall (15 # 16)%Q (15 # 16)%Q).
Defined.

(** ** What is drawn *)

Lemma colors_keys v c :
  colors !! v = Some c →
  v ∈ [2; 4; 8; 16; 32; 64; 128; 256; 512; 1024; 2048].
Proof.
  intros Hv. unfold colors in Hv.
  apply elem_of_list_to_map_2 in Hv.
  repeat (apply elem_of_cons in Hv as [[= -> _]|Hv];
          [repeat first [apply list_elem_of_here|apply list_elem_of_further]|]).
  by apply elem_of_nil in Hv.
Qed.

Lemma getTileColors_cases v :
  v ∈ [0; 2; 4; 8; 16; 32; 64; 128; 256; 512; 1024; 2048] ∨
  getTileColors v = TileColors "#3c3a32" "#ffffff".
Proof.
  unfold getTileColors. case_decide as H0; [left; subst; apply list_elem_of_here|].
  destruct (colors !! v) as [c|] eqn:Hc; [left|by right].
  apply list_elem_of_further. by eapply colors_keys.
Qed.

Ltac each_key H :=
  repeat (apply elem_of_cons in H as [->|H]); [..|by apply elem_of_nil in H].

(** X16.  The colours of a tile.  For every number, the text colour
    [getTileColors] returns is the dark one exactly for 0, 2 and 4, and
    never the background colour; the tile values up to 2048 and the
    empty cell have backgrounds that differ from one another, while
    every value that is neither 0 nor a key of the table gets the same
    pair of colours. *)
Theorem getTileColors_readable v w :
  (text (getTileColors v) = "#776e65" ↔ v = 0 ∨ v = 2 ∨ v = 4) ∧
  text (getTileColors v) ≠ background (getTileColors v) ∧
  (v ∈ [0; 2; 4; 8; 16; 32; 64; 128; 256; 512; 1024; 2048] →
   background (getTileColors v) = background (getTileColors w) → v = w) ∧
  (v ≠ 0 → colors !! v = None →
   getTileColors v = TileColors "#3c3a32" "#ffffff").
Proof.
  split_and!.
  - destruct (getTileColors_cases v) as [Hv|Hv].
    + each_key Hv; vm_compute; split; intros; try done; try lia; naive_solver lia.
    + rewrite Hv. cbn. split; [done|]. intros [->|[->| ->]]; by vm_compute in Hv.
  - destruct (getTileColors_cases v) as [Hv|Hv].
    + each_key Hv; by vm_compute.
    + by rewrite Hv.
  - intros Hv Heq. destruct (getTileColors_cases w) as [Hw|Hw].
    + each_key Hv; each_key Hw; by vm_compute in Heq.
    + rewrite Hw in Heq. each_key Hv; by vm_compute in Heq.
  - intros H0 Hc. unfold getTileColors. rewrite decide_False, Hc; done.
Qed.

Lemma elem_of_mapM_seq {A} (f : nat → option A) n (l : list A) x :
  mapM f (seq 0 n) = Some l →
  x ∈ l ↔ ∃ i, (i < n)%nat ∧ f i = Some x.
Proof.
  intros Hl%mapM_Some. split.
  - intros [idx Hx]%list_elem_of_lookup_1.
    destruct (Forall2_lookup_r _ _ _ _ _ Hl Hx) as (i & Hi & Hf).
    apply lookup_seq in Hi as [-> ?]. by exists idx.
  - intros (i & Hi & Hf).
    destruct (Forall2_lookup_l _ _ _ i i Hl) as (y & Hy & Hf').
    { by rewrite lookup_seq_lt. }
    assert (y = x) as -> by congruence. by eapply list_elem_of_lookup_2.
Qed.

Lemma elem_of_grid {A} (f : nat → nat → option (list A)) n k
    (cells : list (list (list A))) c :
  mapM (λ i, mapM (λ j, f i j) (seq 0 k)) (seq 0 n) = Some cells →
  c ∈ mjoin (mjoin cells) ↔
  ∃ i j l, (i < n)%nat ∧ (j < k)%nat ∧ f i j = Some l ∧ c ∈ l.
Proof.
  intros Hcells. rewrite list_elem_of_join. split.
  - intros (l & Hc & [row [Hl Hrow]]%list_elem_of_join).
    destruct (proj1 (elem_of_mapM_seq _ _ _ _ Hcells) Hrow)
      as (i & Hi & Hrow').
    destruct (proj1 (elem_of_mapM_seq _ _ _ _ Hrow') Hl) as (j & Hj & Hl').
    by exists i, j, l.
  - intros (i & j & l & Hi & Hj & Hf & Hc).
    destruct (Forall2_lookup_l _ _ _ i i (proj1 (mapM_Some _ _ _) Hcells))
      as (row & Hrow & Hm).
    { by rewrite lookup_seq_lt. }
    exists l. split; [done|]. apply list_elem_of_join. exists row. split.
    + apply (elem_of_mapM_seq _ _ _ _ Hm). by exists j.
    + by eapply list_elem_of_lookup_2.
Qed.

Lemma drawCalls_4x4 m : is4x4 m → is_Some (drawCalls m).
Proof.
  intros Hm. unfold drawCalls.
  assert (Hcells : is_Some (mapM (λ i,
             mapM (λ j, value ← cell m i j; Some (drawCell value i j))
                  (seq 0 GRID_SIZE)) (seq 0 GRID_SIZE))).
  { apply mapM_is_Some, Forall_forall. intros i Hi%elem_of_seq_0.
    apply mapM_is_Some, Forall_forall. intros j Hj%elem_of_seq_0.
    destruct (is4x4_cell m i j Hm Hi Hj) as [v Hv]. cbn. rewrite Hv.
    by eexists. }
  destruct Hcells as [cells ->]. by eexists.
Qed.

Lemma elem_of_drawCalls m cmds c :
  drawCalls m = Some cmds →
  c ∈ cmds ↔
  c = ClearRect 0 0 CANVAS_SIZE CANVAS_SIZE ∨
  ∃ i j v, (i < GRID_SIZE)%nat ∧ (j < GRID_SIZE)%nat ∧
    cell m i j = Some v ∧ c ∈ drawCell v i j.
Proof.
  unfold drawCalls. intros Hd.
  apply bind_Some in Hd as (cells & Hcells & [= <-]).
  rewrite elem_of_cons, (elem_of_grid _ _ _ _ _ Hcells).
  split; (intros [?|(i & j & l & Hi & Hj & Hl & Hc)]; [by left|right]).
  - apply bind_Some in Hl as (v & Hv & [= <-]). by exists i, j, v.
  - exists i, j, (drawCell l i j). split_and!; [done..| |done].
    by rewrite Hl.
Qed.

Lemma elem_of_drawCell c v i j :
  c ∈ drawCell v i j ↔
  c = FillRect (background (getTileColors v))
        (Z.of_nat j * 100 + 5) (Z.of_nat i * 100 + 5) 90 90 ∨
  c = StrokeRect 4 "#444444"
        (Z.of_nat j * 100 + 5) (Z.of_nat i * 100 + 5) 90 90 ∨
  v ≠ 0 ∧ c = FillText (text (getTileColors v)) v
                (Z.of_nat j * 100 + 50) (Z.of_nat i * 100 + 50).
Proof.
  unfold drawCell, TILE_SIZE.
  change (100 - 10) with 90. change (100 / 2) with 50.
  rewrite elem_of_app, !elem_of_cons, elem_of_nil.
  case_decide; rewrite ?elem_of_cons, ?elem_of_nil; tauto.
Qed.

Lemma drawBoard_run (h : heap) b m :
  boardAt h b m → is4x4 m →
  ∃ cmds, drawCalls m = Some cmds ∧
    ∀ Q : list draw → heap → Prop, Q cmds h → post (drawBoard b) h Q.
Proof.
  intros Hb Hm. destruct (drawCalls_4x4 m Hm) as [cmds Hcmds].
  exists cmds. split; [done|]. intros Q HQ.
  unfold drawBoard. apply post_bind.
  eapply post_mono; [by apply getBoard_spec|]. intros ? ? [-> ->].
  by apply (post_liftO _ cmds).
Qed.

Lemma drawCalls_fill m cmds style x y w ht :
  is4x4 m → drawCalls m = Some cmds →
  FillRect style x y w ht ∈ cmds ↔
  ∃ i j v, cell m i j = Some v ∧
    style = background (getTileColors v) ∧
    x = Z.of_nat j * 100 + 5 ∧ y = Z.of_nat i * 100 + 5 ∧
    w = 90 ∧ ht = 90.
Proof.
  intros Hm Hcmds. rewrite (elem_of_drawCalls _ _ _ Hcmds). split.
  - intros [?|(i & j & v & Hi & Hj & Hv & Hc)]; [done|].
    apply elem_of_drawCell in Hc as [[= -> -> -> -> ->]|[?|[_ ?]]];
      [|done..].
    by exists i, j, v.
  - intros (i & j & v & Hv & -> & -> & -> & -> & ->). right.
    destruct (is4x4_cell_range _ _ _ _ Hm Hv) as [Hi Hj].
    exists i, j, v. split_and!; [done..|].
    apply elem_of_drawCell. by left.
Qed.

Lemma drawCalls_text m cmds style v x y :
  is4x4 m → drawCalls m = Some cmds →
  FillText style v x y ∈ cmds ↔
  v ≠ 0 ∧ style = text (getTileColors v) ∧
  ∃ i j, cell m i j = Some v ∧
    x = Z.of_nat j * 100 + 50 ∧ y = Z.of_nat i * 100 + 50.
Proof.
  intros Hm Hcmds. rewrite (elem_of_drawCalls _ _ _ Hcmds). split.
  - intros [?|(i & j & v' & Hi & Hj & Hv & Hc)]; [done|].
    apply elem_of_drawCell in Hc as [?|[?|[Hne [= -> -> -> ->]]]];
      [done..|].
    split_and!; [done..|]. by exists i, j.
  - intros (Hne & -> & i & j & Hv & -> & ->). right.
    destruct (is4x4_cell_range _ _ _ _ Hm Hv) as [Hi Hj].
    exists i, j, v. split_and!; [done..|].
    apply elem_of_drawCell. by right; right.
Qed.

(** X17.  What [drawBoard] draws.  On a 4 by 4 board it returns
    without touching the store, and it first clears the whole canvas;
    then every cell gets a filled square of side 90 in the background
    colour of its value, its corner 5 pixels inside the cell's square
    of side 100, and a number is drawn exactly for the cells that are
    not 0, the value of the cell at the centre of its square in the
    text colour of the value. *)
Theorem drawBoard_cells (h : heap) b m :
  boardAt h b m → is4x4 m →
  post (drawBoard b) h (λ cmds h',
    h' = h ∧ head cmds = Some (ClearRect 0 0 400 400) ∧
    (∀ style x y w ht, FillRect style x y w ht ∈ cmds ↔
       ∃ i j v, cell m i j = Some v ∧
         style = background (getTileColors v) ∧
         x = Z.of_nat j * 100 + 5 ∧ y = Z.of_nat i * 100 + 5 ∧
         w = 90 ∧ ht = 90) ∧
    (∀ style v x y, FillText style v x y ∈ cmds ↔
       v ≠ 0 ∧ style = text (getTileColors v) ∧
       ∃ i j, cell m i j = Some v ∧
         x = Z.of_nat j * 100 + 50 ∧ y = Z.of_nat i * 100 + 50)).
Proof.
  intros Hb Hm. destruct (drawBoard_run h b m Hb Hm) as (cmds & Hcmds & Hrun).
  apply Hrun. split_and!; [done| | |].
  - unfold drawCalls in Hcmds.
    by apply bind_Some in Hcmds as (cells & _ & [= <-]).
  - intros style x y w ht. by apply drawCalls_fill.
  - intros style v x y. by apply drawCalls_text.
Qed.

Lemma drawBoard_cells_witness :
  boardAt sampleHeap 4%nat sampleBoard ∧
  post (drawBoard 4%nat) sampleHeap (λ cmds h',
    h' = sampleHeap ∧ FillText "#776e65" 4 150 250 ∈ cmds ∧
    ∀ style x y, FillText style 0 x y ∉ cmds).
Proof.
  split; [exact (properBoardAt_boardAt _ _ _ sample_proper)|].
  eapply post_mono.
  - exact (drawBoard_cells sampleHeap 4%nat sampleBoard
             (properBoardAt_boardAt _ _ _ sample_proper) sample_4x4).
  - intros cmds h' (-> & _ & _ & Htext). split_and!; [done| |].
    + apply Htext. split_and!; [done..|]. by exists 2%nat, 1%nat.
    + intros style x y [Hne _]%Htext. done.
Defined.

(** X18.  The squares [drawBoard] fills lie on the canvas, and two of
    them are the same square or are at least 10 pixels apart: tiles
    never overlap, whatever the board holds. *)
Theorem drawBoard_squares (h : heap) b m :
  boardAt h b m → is4x4 m →
  post (drawBoard b) h (λ cmds _,
    ∀ s x y w ht, FillRect s x y w ht ∈ cmds →
      (0 ≤ x ∧ x + w ≤ CANVAS_SIZE ∧ 0 ≤ y ∧ y + ht ≤ CANVAS_SIZE) ∧
      ∀ s' x' y' w' ht', FillRect s' x' y' w' ht' ∈ cmds →
        (x' = x ∧ y' = y ∧ w' = w ∧ ht' = ht) ∨
        x + w + 10 ≤ x' ∨ x' + w' + 10 ≤ x ∨
        y + ht + 10 ≤ y' ∨ y' + ht' + 10 ≤ y).
Proof.
  intros Hb Hm. destruct (drawBoard_run h b m Hb Hm) as (cmds & Hcmds & Hrun).
  apply Hrun. intros s x y w ht Hin.
  apply (drawCalls_fill m cmds) in Hin
    as (i & j & v & Hv & _ & -> & -> & -> & ->); [|done..].
  destruct (is4x4_cell_range _ _ _ _ Hm Hv) as [Hi Hj].
  unfold CANVAS_SIZE, TILE_SIZE, GRID_SIZE in *. split; [lia|].
  intros s' x' y' w' ht' Hin'.
  apply (drawCalls_fill m cmds) in Hin'
    as (i' & j' & v' & Hv' & _ & -> & -> & -> & ->); [|done..].
  lia.
Qed.

Lemma drawBoard_squares_witness :
  boardAt checkerHeap 4%nat checkerBoard ∧
  post (drawBoard 4%nat) checkerHeap (λ cmds _,
    ∀ s x y w ht, FillRect s x y w ht ∈ cmds →
      0 ≤ x ∧ x + w ≤ 400 ∧ 0 ≤ y ∧ y + ht ≤ 400).
Proof.
  split; [exact checker_boardAt|]. eapply post_mono.
  - exact (drawBoard_squares checkerHeap 4%nat checkerBoard
             checker_boardAt (is4x4_intro _ _ _ _ _ _ _ _ _ _ _ _ _ _ _ _)).
  - intros cmds h' Hall s x y w ht Hin. by apply (Hall s x y w ht Hin).
Defined.

(** ** The flag [gameStarted] *)

(** X19.  Keys do not wait for "Play".  [handleMove] neither reads
    nor writes [gameStarted]: on a state that differs only in that
    flag it fails or returns as before, with the same store and the
    same state but for the flag.  So the arrow keys move the tiles
    while the start overlay is still shown. *)
Theorem handleMove_ignores_gameStarted (h : heap) direction u1 u2 st g :
  handleMove direction u1 u2 (setGameStarted g st) h =
  (λ '(st', h'), (setGameStarted g st', h')) <$>
    handleMove direction u1 u2 st h.
Proof.
  unfold handleMove.
  change (gameOver (setGameStarted g st)) with (gameOver st).
  change (board (setGameStarted g st)) with (board st).
  change (score (setGameStarted g st)) with (score st).
  change (bestScore (setGameStarted g st)) with (bestScore st).
  destruct (gameOver st); [done|].
  destruct (moveOf direction) as [move|]; [|done].
  unfold mbind, M_bind, mret, M_ret.
  destruct (move (board st) h) as [[[newBoard totalScore] h1]|]; [|done].
  destruct (arraysEqual (board st) newBoard h1) as [[[|] h2]|];
    [done| |done].
  cbn [negb].
  destruct (addRandomTile u1 u2 newBoard h2) as [[boardWithNewTile h3]|];
    [|done].
  destruct (isGameOver boardWithNewTile h3) as [[[|] h4]|]; [| |done];
    by case_decide.
Qed.

(** ** Values of a moved board *)

Lemma slideAndMergeLine_nonZero xs :
  slideAndMergeLine (nonZero xs) = slideAndMergeLine xs.
Proof.
  unfold slideAndMergeLine. by rewrite (nonZero_id (nonZero xs)) by apply nonZero_Forall.
Qed.

(** X20.  The zeros of a row do not matter to [moveRowLeft]: two rows
    with the same tiles in the same order, wherever their zeros are
    and however many, give rows with the same cells and the same
    score. *)
Theorem moveRowLeft_zeros_irrelevant (h : heap) row row' xs xs' :
  h !! row = Some (Row xs) → h !! row' = Some (Row xs') →
  nonZero xs = nonZero xs' →
  post (moveRowLeft row) h (λ '(newRow, score) h1,
    post (moveRowLeft row') h (λ '(newRow', score') h2,
      ∃ ys, h1 !! newRow = Some (Row ys) ∧ h2 !! newRow' = Some (Row ys) ∧
            score' = score)).
Proof.
  intros Hrow Hrow' Hnz. eapply post_mono; [by apply moveRowLeft_spec|].
  intros [newRow score] h1 (_ & _ & Hnew & ->).
  eapply post_mono; [by apply moveRowLeft_spec|].
  intros [newRow' score'] h2 (_ & _ & Hnew' & ->).
  exists (slideAndMergeLine xs).1.
  rewrite <-(slideAndMergeLine_nonZero xs'), <-Hnz, slideAndMergeLine_nonZero
    in Hnew' |- *.
  done.
Qed.

Lemma moveRowLeft_zeros_irrelevant_witness :
  (<[5%nat := Row [0; 2; 0; 0; 2]]> sampleHeap) !! 0%nat
    = Some (Row [2; 2; 0; 0]) ∧
  (<[5%nat := Row [0; 2; 0; 0; 2]]> sampleHeap) !! 5%nat
    = Some (Row [0; 2; 0; 0; 2]) ∧
  post (moveRowLeft 0%nat) (<[5%nat := Row [0; 2; 0; 0; 2]]> sampleHeap)
    (λ '(newRow, score) h1,
      post (moveRowLeft 5%nat) (<[5%nat := Row [0; 2; 0; 0; 2]]> sampleHeap)
        (λ '(newRow', score') h2,
          ∃ ys, h1 !! newRow = Some (Row ys) ∧
                h2 !! newRow' = Some (Row ys) ∧ score' = score)).
Proof.
  split_and!; [reflexivity..|].
  apply (moveRowLeft_zeros_irrelevant _ 0%nat 5%nat
           [2; 2; 0; 0] [0; 2; 0; 0; 2]); reflexivity.
Defined.

Lemma mergePass_values l v :
  v ∈ (mergePass l).1 → v = 0 ∨ v ∈ l ∨ ∃ a, a ∈ l ∧ v = a * 2.
Proof.
  revert v.
  induction l as [|a|a rest IH|a b rest Hne IH] using mergePass_ind';
    intros v.
  - intros Hv. by apply elem_of_nil in Hv.
  - cbn. intros Hv. by right; left.
  - rewrite mergePass_merge. cbn [fst].
    intros [->|[->|Hv]%elem_of_cons]%elem_of_cons.
    + right; right. exists a. split; [apply list_elem_of_here|done].
    + by left.
    + destruct (IH v Hv) as [?|[?|(a' & ? & ?)]]; [by left| |].
      * right; left. by do 2 apply list_elem_of_further.
      * right; right. exists a'. split; [|done].
        by do 2 apply list_elem_of_further.
  - rewrite mergePass_skip by done. cbn [fst].
    intros [->|Hv]%elem_of_cons.
    + right; left. apply list_elem_of_here.
    + destruct (IH v Hv) as [?|[?|(a' & ? & ?)]]; [by left| |].
      * right; left. by apply list_elem_of_further.
      * right; right. exists a'. split; [|done].
        by apply list_elem_of_further.
Qed.

Lemma elem_of_nonZero l v : v ∈ nonZero l → v ∈ l.
Proof. unfold nonZero. by intros [_ ?]%list_elem_of_filter. Qed.

Lemma slideAndMergeLine_values xs v :
  v ∈ (slideAndMergeLine xs).1 →
  v = 0 ∨ v ∈ xs ∨ ∃ a, a ∈ xs ∧ v = a * 2.
Proof.
  rewrite slideAndMergeLine_fst. unfold padTo. rewrite elem_of_app.
  intros [Hv%elem_of_nonZero|Hv].
  - destruct (mergePass_values _ _ Hv) as [?|[?%elem_of_nonZero|(a & Ha & ?)]];
      [by left|by right; left|].
    right; right. exists a. split; [by apply elem_of_nonZero|done].
  - left. by apply elem_of_replicate in Hv as [? _].
Qed.

Lemma moveLeft_values ls p q v :
  cell (Den.moveLeft ls).1 p q = Some v →
  v = 0 ∨ ∃ a q', cell ls p q' = Some a ∧ (v = a ∨ v = a * 2).
Proof.
  rewrite cell_moveLeft. intros (row & Hrow & Hv)%bind_Some.
  apply list_elem_of_lookup_2 in Hv.
  destruct (slideAndMergeLine_values _ _ Hv)
    as [?|[[q' Ha]%list_elem_of_lookup_1|(a & [q' Ha]%list_elem_of_lookup_1 & ?)]].
  - by left.
  - right. exists v, q'. unfold cell. rewrite Hrow. by split; [|left].
  - right. exists a, q'. unfold cell. rewrite Hrow. by split; [|right].
Qed.

Lemma source_onto direction i j :
  is_Some (Den.moveOf direction) →
  (i < GRID_SIZE)%nat → (j < GRID_SIZE)%nat →
  ∃ p q, (q < GRID_SIZE)%nat ∧ source direction p q = (i, j).
Proof.
  intros [dmove Hd] Hi Hj. unfold Den.moveOf in Hd. unfold GRID_SIZE in *.
  repeat case_decide; simplify_eq.
  - exists j, i. by rewrite source_up.
  - exists j, (3 - i)%nat. rewrite source_down. split; [lia|].
    f_equal; lia.
  - exists i, j. by rewrite source_left.
  - exists i, (3 - j)%nat. rewrite source_right. split; [lia|].
    f_equal; lia.
Qed.

Lemma lines_cells direction m ls v :
  is_Some (Den.moveOf direction) → is4x4 m → lines direction m = Some ls →
  (∃ p q, cell ls p q = Some v) ↔ (∃ i j, cell m i j = Some v).
Proof.
  intros Hd Hm Hls.
  destruct (lines_4x4 direction m Hd Hm) as (ls' & Hls' & Hls4).
  assert (ls' = ls) as -> by congruence. split.
  - intros (p & q & Hc).
    destruct (is4x4_cell_range _ _ _ _ Hls4 Hc) as [_ Hq].
    rewrite (lines_cell direction m ls p q Hd Hm Hls Hq) in Hc. eauto.
  - intros (i & j & Hc).
    destruct (is4x4_cell_range _ _ _ _ Hm Hc) as [Hi Hj].
    destruct (source_onto direction i j Hd Hi Hj) as (p & q & Hq & Hs).
    exists p, q. rewrite (lines_cell direction m ls p q Hd Hm Hls Hq).
    by rewrite Hs.
Qed.

Lemma moveOf_values direction dmove m m1 s i j v :
  Den.moveOf direction = Some dmove → is4x4 m → dmove m = Some (m1, s) →
  cell m1 i j = Some v →
  v = 0 ∨ ∃ a i' j', cell m i' j' = Some a ∧ (v = a ∨ v = a * 2).
Proof.
  intros Hd Hm Hdm Hv.
  assert (Hsome : is_Some (Den.moveOf direction)) by by eexists.
  destruct (lines_4x4 direction m Hsome Hm) as (ls & Hls & Hls4).
  destruct (moveOf_lines _ _ _ _ Hd Hm Hls) as (m1' & Hdm' & Hm1 & Hl1).
  assert (m1' = m1) as -> by congruence.
  destruct (proj2 (lines_cells direction m1 _ v Hsome Hm1 Hl1))
    as (p & q & Hc); [by eauto|].
  destruct (moveLeft_values _ _ _ _ Hc) as [?|(a & q' & Ha & Hva)];
    [by left|right].
  destruct (proj1 (lines_cells direction m ls a Hsome Hm Hls))
    as (i' & j' & Ha'); [by eauto|].
  by exists a, i', j'.
Qed.

(** X21.  A move makes no value of its own: every cell of the board a
    move returns is 0, or a value that is on the given board, or the
    double of one (the merge of two equal tiles). *)
Theorem move_values (h : heap) b m direction move :
  boardAt h b m → is4x4 m → moveOf direction = Some move →
  post (move b) h (λ '(newBoard, _) h',
    ∃ m1, boardAt h' newBoard m1 ∧
      ∀ i j v, cell m1 i j = Some v →
        v = 0 ∨ ∃ a i' j', cell m i' j' = Some a ∧ (v = a ∨ v = a * 2)).
Proof.
  intros Hb Hm Hmove. eapply move_post; [done..|].
  intros dmove m1 s newBoard h1 Hd Hdm Hm1 Hsub Hnew.
  exists m1. split; [by eapply newBoardAt_boardAt|].
  intros i j v. by eapply moveOf_values.
Qed.

Lemma move_values_witness :
  boardAt sampleHeap 4%nat sampleBoard ∧
  post (moveRight 4%nat) sampleHeap (λ '(newBoard, _) h',
    ∃ m1, boardAt h' newBoard m1 ∧
      ∀ i j v, cell m1 i j = Some v →
        v = 0 ∨ ∃ a i' j', cell sampleBoard i' j' = Some a ∧
                            (v = a ∨ v = a * 2)).
Proof.
  split; [exact (properBoardAt_boardAt _ _ _ sample_proper)|].
  exact (move_values sampleHeap 4%nat sampleBoard "right" moveRight
           (properBoardAt_boardAt _ _ _ sample_proper) sample_4x4 eq_refl).
Defined.

(** ** Arrays that are never written *)

(** X22.  [moveRowLeft] does not write to the row it is given: its
    writes go to the array [filter] has made.  After the call every
    array of the store holds what it held before, the given row among
    them, and the returned row is a new array. *)
Theorem moveRowLeft_pure (h : heap) row xs :
  h !! row = Some (Row xs) →
  post (moveRowLeft row) h (λ '(newRow, _) h',
    (h ⊆ h') ∧ (newRow ∉ dom h) ∧ newRow ≠ row ∧
    h' !! row = Some (Row xs)).
Proof.
  intros Hrow. eapply post_mono; [by apply moveRowLeft_spec|].
  intros [newRow score] h' (Hsub & Hfresh & _ & _).
  split_and!; [done..| |].
  - intros ->. apply Hfresh, elem_of_dom. eauto.
  - exact (lookup_weaken _ _ _ _ Hrow Hsub).
Qed.

Lemma moveRowLeft_pure_witness :
  sampleHeap !! 0%nat = Some (Row [2; 2; 0; 0]) ∧
  post (moveRowLeft 0%nat) sampleHeap (λ '(newRow, _) h',
    (sampleHeap ⊆ h') ∧ (newRow ∉ dom sampleHeap) ∧ newRow ≠ 0%nat ∧
    h' !! 0%nat = Some (Row [2; 2; 0; 0])).
Proof.
  split; [reflexivity|].
  apply (moveRowLeft_pure sampleHeap 0%nat [2; 2; 0; 0]). reflexivity.
Defined.

(** X23.  No event writes to an array that was there before it.
    [addRandomTile] writes to the board it is given, but [handleMove]
    gives it the board the move has just made and [getInitialBoard]
    the board it has just built: after any sequence of events every
    array of the store holds what it held before, so the board of the
    earlier state still has its cells. *)
Theorem events_never_overwrite (h : heap) st m es :
  boardAt h (board st) m → is4x4 m → Forall validEvent es →
  post (handleAll es st) h (λ st' h',
    (h ⊆ h') ∧ boardAt h' (board st) m).
Proof.
  intros Hb Hm Hes. eapply post_mono.
  { apply handleAll_spec; [by exists m|done]. }
  intros st' h' (Hsub & _ & _). split; [done|]. by eapply boardAt_weaken.
Qed.

Lemma events_never_overwrite_witness :
  boardAt sampleHeap 4%nat sampleBoard ∧
  Forall validEvent [Key "left" 0 0; Key "down" 0 0; RestartButton 0 0 0 0] ∧
  post (handleAll [Key "left" 0 0; Key "down" 0 0; RestartButton 0 0 0 0]
          (State true 4%nat 0 0 false)) sampleHeap
    (λ st' h', (sampleHeap ⊆ h') ∧ boardAt h' 4%nat sampleBoard).
Proof.
  assert (Hes : Forall validEvent
                  [Key "left" 0 0; Key "down" 0 0; RestartButton 0 0 0 0]).
  { repeat constructor; done. }
  split_and!; [exact (properBoardAt_boardAt _ _ _ sample_proper)|done|].
  exact (events_never_overwrite sampleHeap (State true 4%nat 0 0 false)
           sampleBoard _ (properBoardAt_boardAt _ _ _ sample_proper)
           sample_4x4 Hes).
Defined.
